(** * customercare-bot: the duplex streaming session core

    A shallow embedding of
    - [src/services/mockRagService.ts]  (knowledge base and [searchKnowledgeBase]),
    - [src/App.tsx]                     (the [onTranscript] transcript aggregator),
    - [src/services/geminiLiveService.ts] ([handleMessage], [connect], [disconnect]),
    and of the PCM frame encoder of [utils/audioUtils], which the service imports;
    further of the admin methods of [mockRagService.ts] with [handleSubmit] of
    [src/components/AdminPanel.tsx], of [src/services/textAgentService.ts]
    ([processTextQuery]) with the transcript updates of [handleTextSubmit], of
    [formatTime], and of the bytes that [startAudioInput] gives the visualizer.

    Strings are [string], the UTF-8 bytes of the text. Playback times and
    durations are binary64 numbers, held as the rationals ([Q]) that they
    denote: the scheduler compares them, which is exact, and adds them, which
    rounds ([fadd]). The class fields of [GeminiLiveService] are a record. Its asynchronous methods are cut at their
    [await]s: a [Task] is an activation suspended at one, an [Event] is what
    starts or resumes one, and [step] runs the code up to the next [await] and
    then the microtasks that this code has queued, as the event loop of
    JavaScript does. A callback registered with [then] on a resolved promise is
    such a microtask; on a pending promise it waits for the resolver. *)

From Stdlib Require Import String Ascii List ZArith QArith Qround Qminmax Lqa Bool Lia.
From Stdlib Require Qpower.
From stdpp Require Import base list.
Import ListNotations.

Local Open Scope string_scope.
Local Open Scope list_scope.

(* ===================================================================== *)
(** ** Strings of the JavaScript run time *)
(* ===================================================================== *)

(** A string is held as the UTF-8 bytes of its text: a character of ASCII is
    one byte, any other is a sequence of two to four bytes. The methods that go
    by characters, [toLowerCase] and [trim], read the characters off the
    bytes; a byte that begins no well-formed sequence is read as a character
    of its own, which these methods keep as it is. [includes] goes by bytes: a
    text occurs in a text as bytes exactly where it occurs as characters. *)
Inductive Character :=
| scalar (code : N)
| stray (b : ascii).

(** The payload of a continuation byte, [10xxxxxx]. *)
Definition continuation (b : ascii) : option N :=
  let n := N_of_ascii b in
  if (0x80 <=? n)%N && (n <=? 0xBF)%N then Some (n - 0x80)%N else None.

(** The code point of a well-formed sequence of two, three and four bytes: in
    its shortest form, no surrogate, at most U+10FFFF. *)
Definition two_bytes (b0 b1 : ascii) : option N :=
  let n0 := N_of_ascii b0 in
  match continuation b1 with
  | Some x1 =>
      if (0xC2 <=? n0)%N && (n0 <=? 0xDF)%N then Some ((n0 - 0xC0) * 64 + x1)%N else None
  | None => None
  end.

Definition three_bytes (b0 b1 b2 : ascii) : option N :=
  let n0 := N_of_ascii b0 in
  match continuation b1, continuation b2 with
  | Some x1, Some x2 =>
      let c := ((n0 - 0xE0) * 4096 + x1 * 64 + x2)%N in
      if (0xE0 <=? n0)%N && (n0 <=? 0xEF)%N && (0x800 <=? c)%N &&
         negb ((0xD800 <=? c)%N && (c <=? 0xDFFF)%N)
      then Some c else None
  | _, _ => None
  end.

Definition four_bytes (b0 b1 b2 b3 : ascii) : option N :=
  let n0 := N_of_ascii b0 in
  match continuation b1, continuation b2, continuation b3 with
  | Some x1, Some x2, Some x3 =>
      let c := ((n0 - 0xF0) * 262144 + x1 * 4096 + x2 * 64 + x3)%N in
      if (0xF0 <=? n0)%N && (n0 <=? 0xF4)%N && (0x10000 <=? c)%N && (c <=? 0x10FFFF)%N
      then Some c else None
  | _, _, _ => None
  end.

(** The characters of a string. *)
Fixpoint characters (s : string) : list Character :=
  match s with
  | EmptyString => []
  | String b0 s1 =>
      if (N_of_ascii b0 <? 0x80)%N then scalar (N_of_ascii b0) :: characters s1
      else
        match s1 with
        | EmptyString => stray b0 :: characters s1
        | String b1 s2 =>
            match two_bytes b0 b1 with
            | Some c => scalar c :: characters s2
            | None =>
                match s2 with
                | EmptyString => stray b0 :: characters s1
                | String b2 s3 =>
                    match three_bytes b0 b1 b2 with
                    | Some c => scalar c :: characters s3
                    | None =>
                        match s3 with
                        | EmptyString => stray b0 :: characters s1
                        | String b3 s4 =>
                            match four_bytes b0 b1 b2 b3 with
                            | Some c => scalar c :: characters s4
                            | None => stray b0 :: characters s1
                            end
                        end
                    end
                end
            end
        end
  end.

(** The first character of a string, with the bytes after it. *)
Definition first_char (s : string) : option (Character * string) :=
  match s with
  | EmptyString => None
  | String b0 s1 =>
      if (N_of_ascii b0 <? 0x80)%N then Some (scalar (N_of_ascii b0), s1)
      else
        match s1 with
        | EmptyString => Some (stray b0, s1)
        | String b1 s2 =>
            match two_bytes b0 b1 with
            | Some c => Some (scalar c, s2)
            | None =>
                match s2 with
                | EmptyString => Some (stray b0, s1)
                | String b2 s3 =>
                    match three_bytes b0 b1 b2 with
                    | Some c => Some (scalar c, s3)
                    | None =>
                        match s3 with
                        | EmptyString => Some (stray b0, s1)
                        | String b3 s4 =>
                            match four_bytes b0 b1 b2 b3 with
                            | Some c => Some (scalar c, s4)
                            | None => Some (stray b0, s1)
                            end
                        end
                    end
                end
            end
        end
  end.

(** A character as [characters] reads it: a code point, or a byte from 128
    on that begins no well-formed sequence. *)
Definition well_read (ch : Character) : Prop :=
  match ch with
  | scalar _ => True
  | stray b => (128 <= N_of_ascii b)%N
  end.

(** The bytes of a code point. *)
Definition utf8 (c : N) : string :=
  if (c <? 0x80)%N then String (ascii_of_N c) EmptyString
  else if (c <? 0x800)%N then
    String (ascii_of_N (0xC0 + (c / 64) mod 32))
      (String (ascii_of_N (0x80 + c mod 64)) EmptyString)
  else if (c <? 0x10000)%N then
    String (ascii_of_N (0xE0 + (c / 4096) mod 16))
      (String (ascii_of_N (0x80 + (c / 64) mod 64))
         (String (ascii_of_N (0x80 + c mod 64)) EmptyString))
  else
    String (ascii_of_N (0xF0 + (c / 262144) mod 8))
      (String (ascii_of_N (0x80 + (c / 4096) mod 64))
         (String (ascii_of_N (0x80 + (c / 64) mod 64))
            (String (ascii_of_N (0x80 + c mod 64)) EmptyString))).

Definition utf8_of (ch : Character) : string :=
  match ch with
  | scalar c => utf8 c
  | stray b => String b EmptyString
  end.

(** The string of some characters. *)
Fixpoint string_of (l : list Character) : string :=
  match l with
  | [] => EmptyString
  | ch :: rest => (utf8_of ch ++ string_of rest)%string
  end.

(** The simple lowercase mappings of the Unicode Character Database (version
    14.0), as ranges [(first, last, step, target)]: the code points [first],
    [first + step], ... up to [last] go to [target], [target + step], ...;
    a code point in no range has no mapping. *)
Definition Lowercase_Mapping : list (N * N * N * N) :=
  [
   (0x41, 0x5A, 1, 0x61); (0xC0, 0xD6, 1, 0xE0); (0xD8, 0xDE, 1, 0xF8);
   (0x100, 0x12E, 2, 0x101); (0x132, 0x136, 2, 0x133); (0x139, 0x147, 2, 0x13A);
   (0x14A, 0x176, 2, 0x14B); (0x178, 0x178, 1, 0xFF); (0x179, 0x17D, 2, 0x17A);
   (0x181, 0x181, 1, 0x253); (0x182, 0x184, 2, 0x183); (0x186, 0x186, 1, 0x254);
   (0x187, 0x187, 1, 0x188); (0x189, 0x18A, 1, 0x256); (0x18B, 0x18B, 1, 0x18C);
   (0x18E, 0x18E, 1, 0x1DD); (0x18F, 0x18F, 1, 0x259); (0x190, 0x190, 1, 0x25B);
   (0x191, 0x191, 1, 0x192); (0x193, 0x193, 1, 0x260); (0x194, 0x194, 1, 0x263);
   (0x196, 0x196, 1, 0x269); (0x197, 0x197, 1, 0x268); (0x198, 0x198, 1, 0x199);
   (0x19C, 0x19C, 1, 0x26F); (0x19D, 0x19D, 1, 0x272); (0x19F, 0x19F, 1, 0x275);
   (0x1A0, 0x1A4, 2, 0x1A1); (0x1A6, 0x1A6, 1, 0x280); (0x1A7, 0x1A7, 1, 0x1A8);
   (0x1A9, 0x1A9, 1, 0x283); (0x1AC, 0x1AC, 1, 0x1AD); (0x1AE, 0x1AE, 1, 0x288);
   (0x1AF, 0x1AF, 1, 0x1B0); (0x1B1, 0x1B2, 1, 0x28A); (0x1B3, 0x1B5, 2, 0x1B4);
   (0x1B7, 0x1B7, 1, 0x292); (0x1B8, 0x1B8, 1, 0x1B9); (0x1BC, 0x1BC, 1, 0x1BD);
   (0x1C4, 0x1C4, 1, 0x1C6); (0x1C5, 0x1C5, 1, 0x1C6); (0x1C7, 0x1C7, 1, 0x1C9);
   (0x1C8, 0x1C8, 1, 0x1C9); (0x1CA, 0x1CA, 1, 0x1CC); (0x1CB, 0x1DB, 2, 0x1CC);
   (0x1DE, 0x1EE, 2, 0x1DF); (0x1F1, 0x1F1, 1, 0x1F3); (0x1F2, 0x1F4, 2, 0x1F3);
   (0x1F6, 0x1F6, 1, 0x195); (0x1F7, 0x1F7, 1, 0x1BF); (0x1F8, 0x21E, 2, 0x1F9);
   (0x220, 0x220, 1, 0x19E); (0x222, 0x232, 2, 0x223); (0x23A, 0x23A, 1, 0x2C65);
   (0x23B, 0x23B, 1, 0x23C); (0x23D, 0x23D, 1, 0x19A); (0x23E, 0x23E, 1, 0x2C66);
   (0x241, 0x241, 1, 0x242); (0x243, 0x243, 1, 0x180); (0x244, 0x244, 1, 0x289);
   (0x245, 0x245, 1, 0x28C); (0x246, 0x24E, 2, 0x247); (0x370, 0x372, 2, 0x371);
   (0x376, 0x376, 1, 0x377); (0x37F, 0x37F, 1, 0x3F3); (0x386, 0x386, 1, 0x3AC);
   (0x388, 0x38A, 1, 0x3AD); (0x38C, 0x38C, 1, 0x3CC); (0x38E, 0x38F, 1, 0x3CD);
   (0x391, 0x3A1, 1, 0x3B1); (0x3A3, 0x3AB, 1, 0x3C3); (0x3CF, 0x3CF, 1, 0x3D7);
   (0x3D8, 0x3EE, 2, 0x3D9); (0x3F4, 0x3F4, 1, 0x3B8); (0x3F7, 0x3F7, 1, 0x3F8);
   (0x3F9, 0x3F9, 1, 0x3F2); (0x3FA, 0x3FA, 1, 0x3FB); (0x3FD, 0x3FF, 1, 0x37B);
   (0x400, 0x40F, 1, 0x450); (0x410, 0x42F, 1, 0x430); (0x460, 0x480, 2, 0x461);
   (0x48A, 0x4BE, 2, 0x48B); (0x4C0, 0x4C0, 1, 0x4CF); (0x4C1, 0x4CD, 2, 0x4C2);
   (0x4D0, 0x52E, 2, 0x4D1); (0x531, 0x556, 1, 0x561); (0x10A0, 0x10C5, 1, 0x2D00);
   (0x10C7, 0x10C7, 1, 0x2D27); (0x10CD, 0x10CD, 1, 0x2D2D); (0x13A0, 0x13EF, 1, 0xAB70);
   (0x13F0, 0x13F5, 1, 0x13F8); (0x1C90, 0x1CBA, 1, 0x10D0); (0x1CBD, 0x1CBF, 1, 0x10FD);
   (0x1E00, 0x1E94, 2, 0x1E01); (0x1E9E, 0x1E9E, 1, 0xDF); (0x1EA0, 0x1EFE, 2, 0x1EA1);
   (0x1F08, 0x1F0F, 1, 0x1F00); (0x1F18, 0x1F1D, 1, 0x1F10); (0x1F28, 0x1F2F, 1, 0x1F20);
   (0x1F38, 0x1F3F, 1, 0x1F30); (0x1F48, 0x1F4D, 1, 0x1F40); (0x1F59, 0x1F5F, 2, 0x1F51);
   (0x1F68, 0x1F6F, 1, 0x1F60); (0x1F88, 0x1F8F, 1, 0x1F80); (0x1F98, 0x1F9F, 1, 0x1F90);
   (0x1FA8, 0x1FAF, 1, 0x1FA0); (0x1FB8, 0x1FB9, 1, 0x1FB0); (0x1FBA, 0x1FBB, 1, 0x1F70);
   (0x1FBC, 0x1FBC, 1, 0x1FB3); (0x1FC8, 0x1FCB, 1, 0x1F72); (0x1FCC, 0x1FCC, 1, 0x1FC3);
   (0x1FD8, 0x1FD9, 1, 0x1FD0); (0x1FDA, 0x1FDB, 1, 0x1F76); (0x1FE8, 0x1FE9, 1, 0x1FE0);
   (0x1FEA, 0x1FEB, 1, 0x1F7A); (0x1FEC, 0x1FEC, 1, 0x1FE5); (0x1FF8, 0x1FF9, 1, 0x1F78);
   (0x1FFA, 0x1FFB, 1, 0x1F7C); (0x1FFC, 0x1FFC, 1, 0x1FF3); (0x2126, 0x2126, 1, 0x3C9);
   (0x212A, 0x212A, 1, 0x6B); (0x212B, 0x212B, 1, 0xE5); (0x2132, 0x2132, 1, 0x214E);
   (0x2160, 0x216F, 1, 0x2170); (0x2183, 0x2183, 1, 0x2184); (0x24B6, 0x24CF, 1, 0x24D0);
   (0x2C00, 0x2C2F, 1, 0x2C30); (0x2C60, 0x2C60, 1, 0x2C61); (0x2C62, 0x2C62, 1, 0x26B);
   (0x2C63, 0x2C63, 1, 0x1D7D); (0x2C64, 0x2C64, 1, 0x27D); (0x2C67, 0x2C6B, 2, 0x2C68);
   (0x2C6D, 0x2C6D, 1, 0x251); (0x2C6E, 0x2C6E, 1, 0x271); (0x2C6F, 0x2C6F, 1, 0x250);
   (0x2C70, 0x2C70, 1, 0x252); (0x2C72, 0x2C72, 1, 0x2C73); (0x2C75, 0x2C75, 1, 0x2C76);
   (0x2C7E, 0x2C7F, 1, 0x23F); (0x2C80, 0x2CE2, 2, 0x2C81); (0x2CEB, 0x2CED, 2, 0x2CEC);
   (0x2CF2, 0x2CF2, 1, 0x2CF3); (0xA640, 0xA66C, 2, 0xA641); (0xA680, 0xA69A, 2, 0xA681);
   (0xA722, 0xA72E, 2, 0xA723); (0xA732, 0xA76E, 2, 0xA733); (0xA779, 0xA77B, 2, 0xA77A);
   (0xA77D, 0xA77D, 1, 0x1D79); (0xA77E, 0xA786, 2, 0xA77F); (0xA78B, 0xA78B, 1, 0xA78C);
   (0xA78D, 0xA78D, 1, 0x265); (0xA790, 0xA792, 2, 0xA791); (0xA796, 0xA7A8, 2, 0xA797);
   (0xA7AA, 0xA7AA, 1, 0x266); (0xA7AB, 0xA7AB, 1, 0x25C); (0xA7AC, 0xA7AC, 1, 0x261);
   (0xA7AD, 0xA7AD, 1, 0x26C); (0xA7AE, 0xA7AE, 1, 0x26A); (0xA7B0, 0xA7B0, 1, 0x29E);
   (0xA7B1, 0xA7B1, 1, 0x287); (0xA7B2, 0xA7B2, 1, 0x29D); (0xA7B3, 0xA7B3, 1, 0xAB53);
   (0xA7B4, 0xA7C2, 2, 0xA7B5); (0xA7C4, 0xA7C4, 1, 0xA794); (0xA7C5, 0xA7C5, 1, 0x282);
   (0xA7C6, 0xA7C6, 1, 0x1D8E); (0xA7C7, 0xA7C9, 2, 0xA7C8); (0xA7D0, 0xA7D0, 1, 0xA7D1);
   (0xA7D6, 0xA7D8, 2, 0xA7D7); (0xA7F5, 0xA7F5, 1, 0xA7F6); (0xFF21, 0xFF3A, 1, 0xFF41);
   (0x10400, 0x10427, 1, 0x10428); (0x104B0, 0x104D3, 1, 0x104D8); (0x10570, 0x1057A, 1, 0x10597);
   (0x1057C, 0x1058A, 1, 0x105A3); (0x1058C, 0x10592, 1, 0x105B3); (0x10594, 0x10595, 1, 0x105BB);
   (0x10C80, 0x10CB2, 1, 0x10CC0); (0x118A0, 0x118BF, 1, 0x118C0); (0x16E40, 0x16E5F, 1, 0x16E60);
   (0x1E900, 0x1E921, 1, 0x1E922)
  ]%N.

(** The code points with the property Case_Ignorable (version 14.0), as
    ranges [(first, last)]. *)
Definition Case_Ignorable : list (N * N) :=
  [
   (0x27, 0x27); (0x2E, 0x2E); (0x3A, 0x3A); (0x5E, 0x5E); (0x60, 0x60);
   (0xA8, 0xA8); (0xAD, 0xAD); (0xAF, 0xAF); (0xB4, 0xB4); (0xB7, 0xB8);
   (0x2B0, 0x36F); (0x374, 0x375); (0x37A, 0x37A); (0x384, 0x385); (0x387, 0x387);
   (0x483, 0x489); (0x559, 0x559); (0x55F, 0x55F); (0x591, 0x5BD); (0x5BF, 0x5BF);
   (0x5C1, 0x5C2); (0x5C4, 0x5C5); (0x5C7, 0x5C7); (0x5F4, 0x5F4); (0x600, 0x605);
   (0x610, 0x61A); (0x61C, 0x61C); (0x640, 0x640); (0x64B, 0x65F); (0x670, 0x670);
   (0x6D6, 0x6DD); (0x6DF, 0x6E8); (0x6EA, 0x6ED); (0x70F, 0x70F); (0x711, 0x711);
   (0x730, 0x74A); (0x7A6, 0x7B0); (0x7EB, 0x7F5); (0x7FA, 0x7FA); (0x7FD, 0x7FD);
   (0x816, 0x82D); (0x859, 0x85B); (0x888, 0x888); (0x890, 0x891); (0x898, 0x89F);
   (0x8C9, 0x902); (0x93A, 0x93A); (0x93C, 0x93C); (0x941, 0x948); (0x94D, 0x94D);
   (0x951, 0x957); (0x962, 0x963); (0x971, 0x971); (0x981, 0x981); (0x9BC, 0x9BC);
   (0x9C1, 0x9C4); (0x9CD, 0x9CD); (0x9E2, 0x9E3); (0x9FE, 0x9FE); (0xA01, 0xA02);
   (0xA3C, 0xA3C); (0xA41, 0xA42); (0xA47, 0xA48); (0xA4B, 0xA4D); (0xA51, 0xA51);
   (0xA70, 0xA71); (0xA75, 0xA75); (0xA81, 0xA82); (0xABC, 0xABC); (0xAC1, 0xAC5);
   (0xAC7, 0xAC8); (0xACD, 0xACD); (0xAE2, 0xAE3); (0xAFA, 0xAFF); (0xB01, 0xB01);
   (0xB3C, 0xB3C); (0xB3F, 0xB3F); (0xB41, 0xB44); (0xB4D, 0xB4D); (0xB55, 0xB56);
   (0xB62, 0xB63); (0xB82, 0xB82); (0xBC0, 0xBC0); (0xBCD, 0xBCD); (0xC00, 0xC00);
   (0xC04, 0xC04); (0xC3C, 0xC3C); (0xC3E, 0xC40); (0xC46, 0xC48); (0xC4A, 0xC4D);
   (0xC55, 0xC56); (0xC62, 0xC63); (0xC81, 0xC81); (0xCBC, 0xCBC); (0xCBF, 0xCBF);
   (0xCC6, 0xCC6); (0xCCC, 0xCCD); (0xCE2, 0xCE3); (0xD00, 0xD01); (0xD3B, 0xD3C);
   (0xD41, 0xD44); (0xD4D, 0xD4D); (0xD62, 0xD63); (0xD81, 0xD81); (0xDCA, 0xDCA);
   (0xDD2, 0xDD4); (0xDD6, 0xDD6); (0xE31, 0xE31); (0xE34, 0xE3A); (0xE46, 0xE4E);
   (0xEB1, 0xEB1); (0xEB4, 0xEBC); (0xEC6, 0xEC6); (0xEC8, 0xECD); (0xF18, 0xF19);
   (0xF35, 0xF35); (0xF37, 0xF37); (0xF39, 0xF39); (0xF71, 0xF7E); (0xF80, 0xF84);
   (0xF86, 0xF87); (0xF8D, 0xF97); (0xF99, 0xFBC); (0xFC6, 0xFC6); (0x102D, 0x1030);
   (0x1032, 0x1037); (0x1039, 0x103A); (0x103D, 0x103E); (0x1058, 0x1059); (0x105E, 0x1060);
   (0x1071, 0x1074); (0x1082, 0x1082); (0x1085, 0x1086); (0x108D, 0x108D); (0x109D, 0x109D);
   (0x10FC, 0x10FC); (0x135D, 0x135F); (0x1712, 0x1714); (0x1732, 0x1733); (0x1752, 0x1753);
   (0x1772, 0x1773); (0x17B4, 0x17B5); (0x17B7, 0x17BD); (0x17C6, 0x17C6); (0x17C9, 0x17D3);
   (0x17D7, 0x17D7); (0x17DD, 0x17DD); (0x180B, 0x180F); (0x1843, 0x1843); (0x1885, 0x1886);
   (0x18A9, 0x18A9); (0x1920, 0x1922); (0x1927, 0x1928); (0x1932, 0x1932); (0x1939, 0x193B);
   (0x1A17, 0x1A18); (0x1A1B, 0x1A1B); (0x1A56, 0x1A56); (0x1A58, 0x1A5E); (0x1A60, 0x1A60);
   (0x1A62, 0x1A62); (0x1A65, 0x1A6C); (0x1A73, 0x1A7C); (0x1A7F, 0x1A7F); (0x1AA7, 0x1AA7);
   (0x1AB0, 0x1ACE); (0x1B00, 0x1B03); (0x1B34, 0x1B34); (0x1B36, 0x1B3A); (0x1B3C, 0x1B3C);
   (0x1B42, 0x1B42); (0x1B6B, 0x1B73); (0x1B80, 0x1B81); (0x1BA2, 0x1BA5); (0x1BA8, 0x1BA9);
   (0x1BAB, 0x1BAD); (0x1BE6, 0x1BE6); (0x1BE8, 0x1BE9); (0x1BED, 0x1BED); (0x1BEF, 0x1BF1);
   (0x1C2C, 0x1C33); (0x1C36, 0x1C37); (0x1C78, 0x1C7D); (0x1CD0, 0x1CD2); (0x1CD4, 0x1CE0);
   (0x1CE2, 0x1CE8); (0x1CED, 0x1CED); (0x1CF4, 0x1CF4); (0x1CF8, 0x1CF9); (0x1D2C, 0x1D6A);
   (0x1D78, 0x1D78); (0x1D9B, 0x1DFF); (0x1FBD, 0x1FBD); (0x1FBF, 0x1FC1); (0x1FCD, 0x1FCF);
   (0x1FDD, 0x1FDF); (0x1FED, 0x1FEF); (0x1FFD, 0x1FFE); (0x200B, 0x200F); (0x2018, 0x2019);
   (0x2024, 0x2024); (0x2027, 0x2027); (0x202A, 0x202E); (0x2060, 0x2064); (0x2066, 0x206F);
   (0x2071, 0x2071); (0x207F, 0x207F); (0x2090, 0x209C); (0x20D0, 0x20F0); (0x2C7C, 0x2C7D);
   (0x2CEF, 0x2CF1); (0x2D6F, 0x2D6F); (0x2D7F, 0x2D7F); (0x2DE0, 0x2DFF); (0x2E2F, 0x2E2F);
   (0x3005, 0x3005); (0x302A, 0x302D); (0x3031, 0x3035); (0x303B, 0x303B); (0x3099, 0x309E);
   (0x30FC, 0x30FE); (0xA015, 0xA015); (0xA4F8, 0xA4FD); (0xA60C, 0xA60C); (0xA66F, 0xA672);
   (0xA674, 0xA67D); (0xA67F, 0xA67F); (0xA69C, 0xA69F); (0xA6F0, 0xA6F1); (0xA700, 0xA721);
   (0xA770, 0xA770); (0xA788, 0xA78A); (0xA7F2, 0xA7F4); (0xA7F8, 0xA7F9); (0xA802, 0xA802);
   (0xA806, 0xA806); (0xA80B, 0xA80B); (0xA825, 0xA826); (0xA82C, 0xA82C); (0xA8C4, 0xA8C5);
   (0xA8E0, 0xA8F1); (0xA8FF, 0xA8FF); (0xA926, 0xA92D); (0xA947, 0xA951); (0xA980, 0xA982);
   (0xA9B3, 0xA9B3); (0xA9B6, 0xA9B9); (0xA9BC, 0xA9BD); (0xA9CF, 0xA9CF); (0xA9E5, 0xA9E6);
   (0xAA29, 0xAA2E); (0xAA31, 0xAA32); (0xAA35, 0xAA36); (0xAA43, 0xAA43); (0xAA4C, 0xAA4C);
   (0xAA70, 0xAA70); (0xAA7C, 0xAA7C); (0xAAB0, 0xAAB0); (0xAAB2, 0xAAB4); (0xAAB7, 0xAAB8);
   (0xAABE, 0xAABF); (0xAAC1, 0xAAC1); (0xAADD, 0xAADD); (0xAAEC, 0xAAED); (0xAAF3, 0xAAF4);
   (0xAAF6, 0xAAF6); (0xAB5B, 0xAB5F); (0xAB69, 0xAB6B); (0xABE5, 0xABE5); (0xABE8, 0xABE8);
   (0xABED, 0xABED); (0xFB1E, 0xFB1E); (0xFBB2, 0xFBC2); (0xFE00, 0xFE0F); (0xFE13, 0xFE13);
   (0xFE20, 0xFE2F); (0xFE52, 0xFE52); (0xFE55, 0xFE55); (0xFEFF, 0xFEFF); (0xFF07, 0xFF07);
   (0xFF0E, 0xFF0E); (0xFF1A, 0xFF1A); (0xFF3E, 0xFF3E); (0xFF40, 0xFF40); (0xFF70, 0xFF70);
   (0xFF9E, 0xFF9F); (0xFFE3, 0xFFE3); (0xFFF9, 0xFFFB); (0x101FD, 0x101FD); (0x102E0, 0x102E0);
   (0x10376, 0x1037A); (0x10780, 0x10785); (0x10787, 0x107B0); (0x107B2, 0x107BA); (0x10A01, 0x10A03);
   (0x10A05, 0x10A06); (0x10A0C, 0x10A0F); (0x10A38, 0x10A3A); (0x10A3F, 0x10A3F); (0x10AE5, 0x10AE6);
   (0x10D24, 0x10D27); (0x10EAB, 0x10EAC); (0x10F46, 0x10F50); (0x10F82, 0x10F85); (0x11001, 0x11001);
   (0x11038, 0x11046); (0x11070, 0x11070); (0x11073, 0x11074); (0x1107F, 0x11081); (0x110B3, 0x110B6);
   (0x110B9, 0x110BA); (0x110BD, 0x110BD); (0x110C2, 0x110C2); (0x110CD, 0x110CD); (0x11100, 0x11102);
   (0x11127, 0x1112B); (0x1112D, 0x11134); (0x11173, 0x11173); (0x11180, 0x11181); (0x111B6, 0x111BE);
   (0x111C9, 0x111CC); (0x111CF, 0x111CF); (0x1122F, 0x11231); (0x11234, 0x11234); (0x11236, 0x11237);
   (0x1123E, 0x1123E); (0x112DF, 0x112DF); (0x112E3, 0x112EA); (0x11300, 0x11301); (0x1133B, 0x1133C);
   (0x11340, 0x11340); (0x11366, 0x1136C); (0x11370, 0x11374); (0x11438, 0x1143F); (0x11442, 0x11444);
   (0x11446, 0x11446); (0x1145E, 0x1145E); (0x114B3, 0x114B8); (0x114BA, 0x114BA); (0x114BF, 0x114C0);
   (0x114C2, 0x114C3); (0x115B2, 0x115B5); (0x115BC, 0x115BD); (0x115BF, 0x115C0); (0x115DC, 0x115DD);
   (0x11633, 0x1163A); (0x1163D, 0x1163D); (0x1163F, 0x11640); (0x116AB, 0x116AB); (0x116AD, 0x116AD);
   (0x116B0, 0x116B5); (0x116B7, 0x116B7); (0x1171D, 0x1171F); (0x11722, 0x11725); (0x11727, 0x1172B);
   (0x1182F, 0x11837); (0x11839, 0x1183A); (0x1193B, 0x1193C); (0x1193E, 0x1193E); (0x11943, 0x11943);
   (0x119D4, 0x119D7); (0x119DA, 0x119DB); (0x119E0, 0x119E0); (0x11A01, 0x11A0A); (0x11A33, 0x11A38);
   (0x11A3B, 0x11A3E); (0x11A47, 0x11A47); (0x11A51, 0x11A56); (0x11A59, 0x11A5B); (0x11A8A, 0x11A96);
   (0x11A98, 0x11A99); (0x11C30, 0x11C36); (0x11C38, 0x11C3D); (0x11C3F, 0x11C3F); (0x11C92, 0x11CA7);
   (0x11CAA, 0x11CB0); (0x11CB2, 0x11CB3); (0x11CB5, 0x11CB6); (0x11D31, 0x11D36); (0x11D3A, 0x11D3A);
   (0x11D3C, 0x11D3D); (0x11D3F, 0x11D45); (0x11D47, 0x11D47); (0x11D90, 0x11D91); (0x11D95, 0x11D95);
   (0x11D97, 0x11D97); (0x11EF3, 0x11EF4); (0x13430, 0x13438); (0x16AF0, 0x16AF4); (0x16B30, 0x16B36);
   (0x16B40, 0x16B43); (0x16F4F, 0x16F4F); (0x16F8F, 0x16F9F); (0x16FE0, 0x16FE1); (0x16FE3, 0x16FE4);
   (0x1AFF0, 0x1AFF3); (0x1AFF5, 0x1AFFB); (0x1AFFD, 0x1AFFE); (0x1BC9D, 0x1BC9E); (0x1BCA0, 0x1BCA3);
   (0x1CF00, 0x1CF2D); (0x1CF30, 0x1CF46); (0x1D167, 0x1D169); (0x1D173, 0x1D182); (0x1D185, 0x1D18B);
   (0x1D1AA, 0x1D1AD); (0x1D242, 0x1D244); (0x1DA00, 0x1DA36); (0x1DA3B, 0x1DA6C); (0x1DA75, 0x1DA75);
   (0x1DA84, 0x1DA84); (0x1DA9B, 0x1DA9F); (0x1DAA1, 0x1DAAF); (0x1E000, 0x1E006); (0x1E008, 0x1E018);
   (0x1E01B, 0x1E021); (0x1E023, 0x1E024); (0x1E026, 0x1E02A); (0x1E130, 0x1E13D); (0x1E2AE, 0x1E2AE);
   (0x1E2EC, 0x1E2EF); (0x1E8D0, 0x1E8D6); (0x1E944, 0x1E94B); (0x1F3FB, 0x1F3FF); (0xE0001, 0xE0001);
   (0xE0020, 0xE007F); (0xE0100, 0xE01EF)
  ]%N.

(** The code points with the property Cased that are not Case_Ignorable
    (version 14.0). *)
Definition Cased : list (N * N) :=
  [
   (0x41, 0x5A); (0x61, 0x7A); (0xAA, 0xAA); (0xB5, 0xB5); (0xBA, 0xBA);
   (0xC0, 0xD6); (0xD8, 0xF6); (0xF8, 0x1BA); (0x1BC, 0x1BF); (0x1C4, 0x293);
   (0x295, 0x2AF); (0x370, 0x373); (0x376, 0x377); (0x37B, 0x37D); (0x37F, 0x37F);
   (0x386, 0x386); (0x388, 0x38A); (0x38C, 0x38C); (0x38E, 0x3A1); (0x3A3, 0x3F5);
   (0x3F7, 0x481); (0x48A, 0x52F); (0x531, 0x556); (0x560, 0x588); (0x10A0, 0x10C5);
   (0x10C7, 0x10C7); (0x10CD, 0x10CD); (0x10D0, 0x10FA); (0x10FD, 0x10FF); (0x13A0, 0x13F5);
   (0x13F8, 0x13FD); (0x1C80, 0x1C88); (0x1C90, 0x1CBA); (0x1CBD, 0x1CBF); (0x1D00, 0x1D2B);
   (0x1D6B, 0x1D77); (0x1D79, 0x1D9A); (0x1E00, 0x1F15); (0x1F18, 0x1F1D); (0x1F20, 0x1F45);
   (0x1F48, 0x1F4D); (0x1F50, 0x1F57); (0x1F59, 0x1F59); (0x1F5B, 0x1F5B); (0x1F5D, 0x1F5D);
   (0x1F5F, 0x1F7D); (0x1F80, 0x1FB4); (0x1FB6, 0x1FBC); (0x1FBE, 0x1FBE); (0x1FC2, 0x1FC4);
   (0x1FC6, 0x1FCC); (0x1FD0, 0x1FD3); (0x1FD6, 0x1FDB); (0x1FE0, 0x1FEC); (0x1FF2, 0x1FF4);
   (0x1FF6, 0x1FFC); (0x2102, 0x2102); (0x2107, 0x2107); (0x210A, 0x2113); (0x2115, 0x2115);
   (0x2119, 0x211D); (0x2124, 0x2124); (0x2126, 0x2126); (0x2128, 0x2128); (0x212A, 0x212D);
   (0x212F, 0x2134); (0x2139, 0x2139); (0x213C, 0x213F); (0x2145, 0x2149); (0x214E, 0x214E);
   (0x2160, 0x217F); (0x2183, 0x2184); (0x24B6, 0x24E9); (0x2C00, 0x2C7B); (0x2C7E, 0x2CE4);
   (0x2CEB, 0x2CEE); (0x2CF2, 0x2CF3); (0x2D00, 0x2D25); (0x2D27, 0x2D27); (0x2D2D, 0x2D2D);
   (0xA640, 0xA66D); (0xA680, 0xA69B); (0xA722, 0xA76F); (0xA771, 0xA787); (0xA78B, 0xA78E);
   (0xA790, 0xA7CA); (0xA7D0, 0xA7D1); (0xA7D3, 0xA7D3); (0xA7D5, 0xA7D9); (0xA7F5, 0xA7F6);
   (0xA7FA, 0xA7FA); (0xAB30, 0xAB5A); (0xAB60, 0xAB68); (0xAB70, 0xABBF); (0xFB00, 0xFB06);
   (0xFB13, 0xFB17); (0xFF21, 0xFF3A); (0xFF41, 0xFF5A); (0x10400, 0x1044F); (0x104B0, 0x104D3);
   (0x104D8, 0x104FB); (0x10570, 0x1057A); (0x1057C, 0x1058A); (0x1058C, 0x10592); (0x10594, 0x10595);
   (0x10597, 0x105A1); (0x105A3, 0x105B1); (0x105B3, 0x105B9); (0x105BB, 0x105BC); (0x10C80, 0x10CB2);
   (0x10CC0, 0x10CF2); (0x118A0, 0x118DF); (0x16E40, 0x16E7F); (0x1D400, 0x1D454); (0x1D456, 0x1D49C);
   (0x1D49E, 0x1D49F); (0x1D4A2, 0x1D4A2); (0x1D4A5, 0x1D4A6); (0x1D4A9, 0x1D4AC); (0x1D4AE, 0x1D4B9);
   (0x1D4BB, 0x1D4BB); (0x1D4BD, 0x1D4C3); (0x1D4C5, 0x1D505); (0x1D507, 0x1D50A); (0x1D50D, 0x1D514);
   (0x1D516, 0x1D51C); (0x1D51E, 0x1D539); (0x1D53B, 0x1D53E); (0x1D540, 0x1D544); (0x1D546, 0x1D546);
   (0x1D54A, 0x1D550); (0x1D552, 0x1D6A5); (0x1D6A8, 0x1D6C0); (0x1D6C2, 0x1D6DA); (0x1D6DC, 0x1D6FA);
   (0x1D6FC, 0x1D714); (0x1D716, 0x1D734); (0x1D736, 0x1D74E); (0x1D750, 0x1D76E); (0x1D770, 0x1D788);
   (0x1D78A, 0x1D7A8); (0x1D7AA, 0x1D7C2); (0x1D7C4, 0x1D7CB); (0x1DF00, 0x1DF09); (0x1DF0B, 0x1DF1E);
   (0x1E900, 0x1E943); (0x1F130, 0x1F149); (0x1F150, 0x1F169); (0x1F170, 0x1F189)
  ]%N.

Definition in_ranges (table : list (N * N)) (c : N) : bool :=
  existsb (fun r => (fst r <=? c)%N && (c <=? snd r)%N) table.

Fixpoint mapping (table : list (N * N * N * N)) (c : N) : option N :=
  match table with
  | [] => None
  | (first, last, step, target) :: rest =>
      if (first <=? c)%N && (c <=? last)%N && ((c - first) mod step =? 0)%N
      then Some (target + (c - first))%N
      else mapping rest c
  end.

Definition case_ignorable (ch : Character) : bool :=
  match ch with
  | scalar c => in_ranges Case_Ignorable c
  | stray _ => false
  end.

Definition cased (ch : Character) : bool :=
  match ch with
  | scalar c => in_ranges Cased c
  | stray _ => false
  end.

(** The condition Final_Sigma of the Unicode Standard, as the engines test
    it: a capital sigma is final when a cased letter precedes it and none
    follows it, case-ignorable characters apart. A character that is cased and
    case-ignorable counts as case-ignorable. [before_cased rest]: the text
    [rest] goes on with a cased letter, after case-ignorable characters if
    any. *)
Fixpoint before_cased (rest : list Character) : bool :=
  match rest with
  | [] => false
  | ch :: rest' => if case_ignorable ch then before_cased rest' else cased ch
  end.

(** The lowercase of one character: [after_cased] tells that a cased letter
    precedes it, case-ignorable characters apart. The capital sigma (U+03A3)
    becomes the final sigma (U+03C2) at the end of a word, the small sigma
    (U+03C3) elsewhere; the capital I with a dot (U+0130) becomes [i] and a
    combining dot; every other character goes by [Lowercase_Mapping]. *)
Definition lower_char (after_cased : bool) (ch : Character) (rest : list Character)
    : string :=
  match ch with
  | stray b => String b EmptyString
  | scalar c =>
      if (c =? 0x130)%N then (utf8 0x69 ++ utf8 0x307)%string
      else if (c =? 0x3A3)%N then
        if after_cased && negb (before_cased rest) then utf8 0x3C2 else utf8 0x3C3
      else
        match mapping Lowercase_Mapping c with
        | Some l => utf8 l
        | None => utf8 c
        end
  end.

Fixpoint lower_chars (after_cased : bool) (l : list Character) : string :=
  match l with
  | [] => EmptyString
  | ch :: rest =>
      (lower_char after_cased ch rest ++
       lower_chars (if case_ignorable ch then after_cased else cased ch) rest)%string
  end.

(** [String.prototype.toLowerCase]: the lowercase of the Unicode Character
    Database, without regard to a locale. *)
Definition toLowerCase (s : string) : string := lower_chars false (characters s).

(** White space and line terminators, as [String.prototype.trim] removes
    them: U+0009..U+000D, the space, the no-break space, the spaces of
    U+1680, U+2000..U+200A, U+2028, U+2029, U+202F, U+205F and U+3000, and
    the byte order mark U+FEFF. *)
Definition WhiteSpace : list (N * N) :=
  [(0x9, 0xD); (0x20, 0x20); (0xA0, 0xA0); (0x1680, 0x1680); (0x2000, 0x200A);
   (0x2028, 0x2029); (0x202F, 0x202F); (0x205F, 0x205F); (0x3000, 0x3000);
   (0xFEFF, 0xFEFF)]%N.

Definition white_space (ch : Character) : bool :=
  match ch with
  | scalar c => in_ranges WhiteSpace c
  | stray _ => false
  end.

Fixpoint trimStart (l : list Character) : list Character :=
  match l with
  | [] => []
  | ch :: rest => if white_space ch then trimStart rest else l
  end.

Fixpoint trimEnd (l : list Character) : list Character :=
  match l with
  | [] => []
  | ch :: rest =>
      match trimEnd rest with
      | [] => if white_space ch then [] else [ch]
      | kept => ch :: kept
      end
  end.

(** [String.prototype.trim] *)
Definition trim (s : string) : string := string_of (trimEnd (trimStart (characters s))).

(** [s.includes(kw)]: [kw] occurs in [s] at some position. *)
Fixpoint includes (s kw : string) : bool :=
  String.prefix kw s ||
  match s with
  | EmptyString => false
  | String _ s' => includes s' kw
  end.

(** JavaScript truthiness of a string: every string but the empty one. *)
Definition truthy (s : string) : bool :=
  match s with
  | EmptyString => false
  | String _ _ => true
  end.

(** Truthiness of [string | undefined]. *)
Definition truthy_opt (o : option string) : bool :=
  match o with
  | Some s => truthy s
  | None => false
  end.

(** The double quote character of the log templates. *)
Definition dq : string := String (ascii_of_nat 34) EmptyString.

(* ===================================================================== *)
(** ** mockRagService.ts *)
(* ===================================================================== *)

Inductive Category := Policy | Order | Info | Tech.

(** [DatabaseEntry]; [addedAt] (a [Date.now()] stamp read only by the admin
    listing) is left out. *)
Record DatabaseEntry := {
  id : string;
  category : Category;
  keywords : list string;
  content : string
}.

Definition INITIAL_DATA : list DatabaseEntry := [
  {| id := "pol-1"; category := Policy;
     keywords := ["return"; "refund"; "exchange"; "back"];
     content := "POLICY_REFUND_V4: Items can be returned within 30 days of receipt. Items must be unworn with tags. Electronics have a 15% restocking fee unless defective. Processing time: 3-5 business days." |};
  {| id := "pol-2"; category := Policy;
     keywords := ["shipping"; "delivery"; "arrive"; "long"; "wait"];
     content := "POLICY_SHIPPING: Standard shipping is 5-7 business days. Express is 2 days. We currently have delays in the North Atlantic region due to weather." |};
  {| id := "pol-3"; category := Policy;
     keywords := ["privacy"; "data"; "gdpr"; "personal info"];
     content := "POLICY_PRIVACY: We collect minimal data required for order fulfillment. We do not sell data to third parties. We are fully GDPR and CCPA compliant." |};
  {| id := "pol-4"; category := Policy;
     keywords := ["warranty"; "guarantee"; "broken"; "repair"];
     content := "POLICY_WARRANTY: All electronics come with a 1-year limited warranty covering manufacturer defects. Accidental damage (drops/spills) is not covered." |};
  {| id := "ord-1"; category := Order;
     keywords := ["12345"];
     content := "CRM_ORDER_LOOKUP: Order #12345 for John Doe. Status: SHIPPED. Carrier: Fedex. Tracking: FX8842994. Est Delivery: Tomorrow." |};
  {| id := "ord-2"; category := Order;
     keywords := ["99999"];
     content := "CRM_ORDER_LOOKUP: Order #99999 for Jane Smith. Status: PROCESSING. Warehouse: Atlanta. Est Delivery: 3-4 days." |};
  {| id := "ord-3"; category := Order;
     keywords := ["order status"; "where is my order"; "track order"; "my order"; "check order"];
     content := "SCRIPT_ORDER_CHECK: I can check that for you. May I have your 5-digit Order Number? (Valid mock numbers for demo: 12345, 99999)" |};
  {| id := "info-1"; category := Info;
     keywords := ["about"; "nexus"; "who are you"; "what is this company"; "mission"];
     content := "INFO_COMPANY: Nexus Enterprise is a leading provider of cloud-native hardware solutions founded in 2020. Our mission is to democratize server-grade connectivity for small businesses." |};
  {| id := "info-2"; category := Info;
     keywords := ["hq"; "headquarters"; "location"; "address"; "located"; "office"];
     content := "INFO_LOCATION: Nexus Enterprise HQ is located at 123 Tech Plaza, San Francisco, CA 94105." |};
  {| id := "info-3"; category := Info;
     keywords := ["hours"; "open"; "close"; "time"];
     content := "INFO_HOURS: We are open Monday to Friday, 9 AM to 9 PM EST. Weekends 10 AM to 6 PM." |};
  {| id := "tech-1"; category := Tech;
     keywords := ["503"; "error"; "unavailable"];
     content := "KB_TECH_503: Service Unavailable. Common cause: Load Balancer saturation. Fix: Check 'Status Page' for outages. If no outage, escalate to Level 2 Support." |};
  {| id := "tech-2"; category := Tech;
     keywords := ["router"; "light"; "blinking"; "wifi"];
     content := "KB_HARDWARE_ROUTER: If the 'Link' light is blinking orange, it means no downstream signal. Instruct customer to unplug power for 30 seconds (Power Cycle)." |}
].

Definition INDEX_POLICIES : string :=
  "INDEX_POLICIES: Available policies: Return Policy, Privacy Policy, Shipping Policy, Warranty Policy. Please specify which one you need.".

Definition NOT_FOUND : string :=
  "RAG_SEARCH_RESULT: No specific document found. Please ask the user for more details (e.g., specific error code, order number) or offer to escalate the ticket.".

(** [entry.keywords.some(keyword => lowerQuery.includes(keyword))] *)
Definition entry_matches (lowerQuery : string) (entry : DatabaseEntry) : bool :=
  existsb (fun keyword => includes lowerQuery keyword) (keywords entry).

(** [searchKnowledgeBase], from the point where its 600 ms timer has fired:
    [runtimeDatabase] is the module-level database as it is at that moment. *)
Definition searchKnowledgeBase (runtimeDatabase : list DatabaseEntry) (query : string) : string :=
  let lowerQuery := toLowerCase query in
  let matches := List.filter (entry_matches lowerQuery) runtimeDatabase in
  match matches with
  | m0 :: _ => content m0
  | [] =>
      if includes lowerQuery "policy" then INDEX_POLICIES else NOT_FOUND
  end.

(* ===================================================================== *)
(** ** App.tsx: the transcript aggregator *)
(* ===================================================================== *)

Inductive Sender := user | agent.

Definition Sender_eqb (a b : Sender) : bool :=
  match a, b with
  | user, user | agent, agent => true
  | _, _ => false
  end.

Record TranscriptEntry := { sender : Sender; text : string }.

(** The state update that the [onTranscript] callback of [handleStart] hands to
    [setTranscripts]: [prev] is the transcript before, the result the one after.
    [isFinal] is received and not read. *)
Definition onTranscript (txt : string) (isFinal : bool) (sndr : Sender)
    (prev : list TranscriptEntry) : list TranscriptEntry :=
  match last prev with
  | Some l =>
      if Sender_eqb (sender l) sndr
      then <[ (length prev - 1)%nat := {| sender := sender l; text := text l ++ txt |} ]> prev
      else prev ++ [ {| sender := sndr; text := txt |} ]
  | None => prev ++ [ {| sender := sndr; text := txt |} ]
  end.

(** All the text of a transcript, entries in order. *)
Definition transcript_text (tr : list TranscriptEntry) : string :=
  fold_right (fun e acc => (text e ++ acc)%string) EmptyString tr.

(* ===================================================================== *)
(** ** utils/audioUtils: the PCM frame encoder *)
(* ===================================================================== *)

(** [Math.round]: the nearest integer, halves towards plus infinity. *)
Definition Math_round (x : Q) : Z := Qfloor (x + (1 # 2)).

(** Clamp into the signed 16-bit range. *)
Definition clamp_int16 (z : Z) : Z := Z.max (-32768) (Z.min 32767 z).

(** Modelled from the spec: the body of [float32ToPCM16Blob] ([utils/audioUtils]
    is imported by the service and is not among the sources). Per sample:
    scale by 32767, round, clamp to the signed 16-bit range. A float32 sample is
    a dyadic rational and its product with 32767 is exact in binary64, so the
    samples are rationals here. *)
Definition encode_sample (s : Q) : Z := clamp_int16 (Math_round (s * 32767)).

Definition float32ToPCM16 (block : list Q) : list Z := map encode_sample block.

(* ===================================================================== *)
(** ** Numbers of the JavaScript run time *)
(* ===================================================================== *)

(** A finite [number] is a binary64 number: [m * 2^e] with an integer [m] of
    at most 53 bits and [-1074 <= e]. It is held as the rational that it
    denotes. The sum of two numbers is the binary64 number nearest to the exact
    sum, a tie going to the one with the even [m]. Sums stay below [2^1024]
    here (they are seconds of audio), where the engine would give [Infinity]. *)

(** [2^k] for an integer [k]. *)
Definition pow2 (k : Z) : Q := Qpower 2 k.

(** The magnitude of a rational. *)
Definition Qmag (x : Q) : Q := if Qle_bool 0 x then x else (- x)%Q.

(** [floor (log2 x)] for [0 < x]. *)
Definition Qlog2 (x : Q) : Z :=
  let k := (Z.log2 (Qnum x) - Z.log2 (Zpos (Qden x)))%Z in
  if Qle_bool (pow2 k) x then k else (k - 1)%Z.

(** The nearest integer, a tie going to the even one. *)
Definition round_even (x : Q) : Z :=
  let f := Qfloor x in
  match Qcompare (x - inject_Z f) (1 # 2) with
  | Lt => f
  | Gt => (f + 1)%Z
  | Eq => if Z.even f then f else (f + 1)%Z
  end.

(** The exponent of the unit in the last place of the binary64 numbers around
    [x]: 53 bits of precision, least exponent -1074 (the subnormal numbers). *)
Definition ulp_exp (x : Q) : Z := Z.max (-1074) (Qlog2 (Qmag x) - 52).

(** Rounding to binary64: to the nearest, ties to even. *)
Definition round64 (x : Q) : Q :=
  if Qeq_bool x 0 then 0%Q
  else (inject_Z (round_even (x / pow2 (ulp_exp x))) * pow2 (ulp_exp x))%Q.

(** [x + y] on numbers. *)
Definition fadd (x y : Q) : Q := round64 (x + y).

(** The rationals that rounding leaves as they are: those below [2^1024] in
    magnitude are the binary64 numbers. *)
Definition binary64 (x : Q) : Prop := (round64 x == x)%Q.

(* ===================================================================== *)
(** ** geminiLiveService.ts: data *)
(* ===================================================================== *)

(** [ConnectionState] of types.ts. *)
Inductive ConnectionState := DISCONNECTED | CONNECTING | CONNECTED | ERROR.

(** The log categories ['user' | 'agent' | 'system' | 'rag']. *)
Inductive LogType := log_user | log_agent | log_system | log_rag.

(** A function call of a [toolCall] message. The tool declaration requires the
    string argument [query]. *)
Record FunctionCall := { fc_id : string; fc_name : string; fc_query : string }.

(** What [handleMessage] reads of a [LiveServerMessage]:
    - [inlineData]: [serverContent?.modelTurn?.parts?.[0]?.inlineData?.data];
    - [interrupted]: [serverContent?.interrupted], [false] when absent;
    - [inputTranscription], [outputTranscription]: the object when present, as
      its [text] field ([string | undefined]);
    - [toolCall]: the [functionCalls] of [message.toolCall] when present. *)
Record LiveServerMessage := {
  inlineData : option string;
  interrupted : bool;
  inputTranscription : option (option string);
  outputTranscription : option (option string);
  toolCall : option (list FunctionCall)
}.

(** Objects of the run time are named by numbers: the sessions that
    [ai.live.connect] delivers, promises, activations of the asynchronous
    methods, buffer sources. *)
Definition Session := nat.
Definition PromiseId := nat.
Definition TaskId := nat.
Definition SourceId := nat.

(** The calls out of the service: the callbacks of [ServiceCallbacks],
    [start(when)] and [stop()] on a buffer source (with the duration of the
    source's buffer), the entry into [searchKnowledgeBase] and the return from
    it, and the calls on a session. The [TaskId] of [kb_call], [kb_return] and
    [sendToolResponse] names the activation of [handleMessage] that makes the
    call, and [fc] is the function call it is made for; what is sent is
    [fc.id], [fc.name] and the result. *)
Inductive Effect :=
| onStateChange (state : ConnectionState)
| onLog (type : LogType) (message : string)
| call_onTranscript (txt : string) (isFinal : bool) (sndr : Sender)
| source_start (source : SourceId) (duration : Q) (when : Q)
| source_stop (source : SourceId)
| kb_call (t : TaskId) (fc : FunctionCall)
| kb_return (t : TaskId) (fc : FunctionCall) (result : string)
| sendToolResponse (session : Session) (t : TaskId) (fc : FunctionCall) (result : string)
| session_close (session : Session).

(** The two callbacks that the service hangs on [sessionPromise]:
    [session => session.close()] and
    [session => session.sendToolResponse({functionResponses: {id: fc.id, name: fc.name, response: {result}}})]. *)
Inductive Callback :=
| cb_close
| cb_sendToolResponse (t : TaskId) (fc : FunctionCall) (result : string).

Definition run_callback (session : Session) (cb : Callback) : Effect :=
  match cb with
  | cb_close => session_close session
  | cb_sendToolResponse t fc result => sendToolResponse session t fc result
  end.

(** A promise is pending, with the callbacks that [then] has registered in
    order, or resolved with a session. *)
Inductive Promise :=
| Pending (callbacks : list Callback)
| Resolved (session : Session).

(** An activation of [connect] or of [handleMessage], as it stands between two
    tasks of the event loop: finished, or suspended at one of the [await]s. *)
Inductive Task :=
| Running
| Finished
| AwaitUserMedia
| AwaitLiveConnect
| AwaitDecode (message : LiveServerMessage)
| AwaitLookup (fc : FunctionCall) (rest : list FunctionCall).

(** The fields of [GeminiLiveService] that playback and the tool calls use
    (the capture side, [startAudioInput], is not part of the model), then the
    run time: the promises and activations, the number of buffer sources
    created so far, the module-level [runtimeDatabase], and for the task that is
    running the calls it has made ([out]) and the microtasks it has queued
    ([microtasks], each a callback with the session it will receive). *)
Record State := {
  sessionPromise : option PromiseId;
  sessionResolver : option PromiseId;
  outputAudioContext : bool;
  outputNode : bool;
  nextStartTime : Q;
  sources : list SourceId;
  promises : list Promise;
  tasks : list Task;
  created : nat;
  runtimeDatabase : list DatabaseEntry;
  out : list Effect;
  microtasks : list Effect
}.

(** Field updates. *)
Definition set_sessionPromise (v : option PromiseId) (s : State) : State :=
  {| sessionPromise := v; sessionResolver := sessionResolver s;
     outputAudioContext := outputAudioContext s; outputNode := outputNode s;
     nextStartTime := nextStartTime s; sources := sources s;
     promises := promises s; tasks := tasks s; created := created s;
     runtimeDatabase := runtimeDatabase s; out := out s;
     microtasks := microtasks s |}.

Definition set_sessionResolver (v : option PromiseId) (s : State) : State :=
  {| sessionPromise := sessionPromise s; sessionResolver := v;
     outputAudioContext := outputAudioContext s; outputNode := outputNode s;
     nextStartTime := nextStartTime s; sources := sources s;
     promises := promises s; tasks := tasks s; created := created s;
     runtimeDatabase := runtimeDatabase s; out := out s;
     microtasks := microtasks s |}.

Definition set_outputAudioContext (v : bool) (s : State) : State :=
  {| sessionPromise := sessionPromise s; sessionResolver := sessionResolver s;
     outputAudioContext := v; outputNode := outputNode s;
     nextStartTime := nextStartTime s; sources := sources s;
     promises := promises s; tasks := tasks s; created := created s;
     runtimeDatabase := runtimeDatabase s; out := out s;
     microtasks := microtasks s |}.

Definition set_outputNode (v : bool) (s : State) : State :=
  {| sessionPromise := sessionPromise s; sessionResolver := sessionResolver s;
     outputAudioContext := outputAudioContext s; outputNode := v;
     nextStartTime := nextStartTime s; sources := sources s;
     promises := promises s; tasks := tasks s; created := created s;
     runtimeDatabase := runtimeDatabase s; out := out s;
     microtasks := microtasks s |}.

Definition set_nextStartTime (v : Q) (s : State) : State :=
  {| sessionPromise := sessionPromise s; sessionResolver := sessionResolver s;
     outputAudioContext := outputAudioContext s; outputNode := outputNode s;
     nextStartTime := v; sources := sources s; promises := promises s;
     tasks := tasks s; created := created s; runtimeDatabase := runtimeDatabase s;
     out := out s; microtasks := microtasks s |}.

Definition set_sources (v : list SourceId) (s : State) : State :=
  {| sessionPromise := sessionPromise s; sessionResolver := sessionResolver s;
     outputAudioContext := outputAudioContext s; outputNode := outputNode s;
     nextStartTime := nextStartTime s; sources := v; promises := promises s;
     tasks := tasks s; created := created s; runtimeDatabase := runtimeDatabase s;
     out := out s; microtasks := microtasks s |}.

Definition set_promises (v : list Promise) (s : State) : State :=
  {| sessionPromise := sessionPromise s; sessionResolver := sessionResolver s;
     outputAudioContext := outputAudioContext s; outputNode := outputNode s;
     nextStartTime := nextStartTime s; sources := sources s; promises := v;
     tasks := tasks s; created := created s; runtimeDatabase := runtimeDatabase s;
     out := out s; microtasks := microtasks s |}.

Definition set_tasks (v : list Task) (s : State) : State :=
  {| sessionPromise := sessionPromise s; sessionResolver := sessionResolver s;
     outputAudioContext := outputAudioContext s; outputNode := outputNode s;
     nextStartTime := nextStartTime s; sources := sources s;
     promises := promises s; tasks := v; created := created s;
     runtimeDatabase := runtimeDatabase s; out := out s;
     microtasks := microtasks s |}.

Definition set_created (v : nat) (s : State) : State :=
  {| sessionPromise := sessionPromise s; sessionResolver := sessionResolver s;
     outputAudioContext := outputAudioContext s; outputNode := outputNode s;
     nextStartTime := nextStartTime s; sources := sources s;
     promises := promises s; tasks := tasks s; created := v;
     runtimeDatabase := runtimeDatabase s; out := out s;
     microtasks := microtasks s |}.

Definition set_runtimeDatabase (v : list DatabaseEntry) (s : State) : State :=
  {| sessionPromise := sessionPromise s; sessionResolver := sessionResolver s;
     outputAudioContext := outputAudioContext s; outputNode := outputNode s;
     nextStartTime := nextStartTime s; sources := sources s;
     promises := promises s; tasks := tasks s; created := created s;
     runtimeDatabase := v; out := out s; microtasks := microtasks s |}.

Definition set_out (v : list Effect) (s : State) : State :=
  {| sessionPromise := sessionPromise s; sessionResolver := sessionResolver s;
     outputAudioContext := outputAudioContext s; outputNode := outputNode s;
     nextStartTime := nextStartTime s; sources := sources s;
     promises := promises s; tasks := tasks s; created := created s;
     runtimeDatabase := runtimeDatabase s; out := v; microtasks := microtasks s |}.

Definition set_microtasks (v : list Effect) (s : State) : State :=
  {| sessionPromise := sessionPromise s; sessionResolver := sessionResolver s;
     outputAudioContext := outputAudioContext s; outputNode := outputNode s;
     nextStartTime := nextStartTime s; sources := sources s;
     promises := promises s; tasks := tasks s; created := created s;
     runtimeDatabase := runtimeDatabase s; out := out s; microtasks := v |}.

(* ===================================================================== *)
(** ** geminiLiveService.ts: the methods *)
(* ===================================================================== *)

(** A call out of the service, made now. *)
Definition emit (e : Effect) (s : State) : State := set_out (out s ++ [e]) s.

(** [tasks[t] = st]. *)
Definition set_task (t : TaskId) (st : Task) (s : State) : State :=
  set_tasks (<[ t := st ]> (tasks s)) s.

(** [p.then(cb)]: on a resolved promise the callback is queued as a microtask,
    on a pending one it is kept with the promise. *)
Definition then_ (p : PromiseId) (cb : Callback) (s : State) : State :=
  match promises s !! p with
  | Some (Resolved session) =>
      set_microtasks (microtasks s ++ [run_callback session cb]) s
  | Some (Pending cbs) =>
      set_promises (<[ p := Pending (cbs ++ [cb]) ]> (promises s)) s
  | None => s
  end.

(** The resolver of promise [p], called with a session: a pending promise
    becomes resolved and its callbacks are queued in the order of their
    registration; on a resolved promise the call does nothing. *)
Definition resolve (p : PromiseId) (session : Session) (s : State) : State :=
  match promises s !! p with
  | Some (Pending cbs) =>
      set_microtasks (microtasks s ++ map (run_callback session) cbs)
        (set_promises (<[ p := Resolved session ]> (promises s)) s)
  | _ => s
  end.

Definition TOOL_NAME : string := "search_knowledge_base".

(** Lines 195-215, the [for] loop over [functionCalls], entered with the calls
    still to visit. At a call of the known tool the activation logs, enters
    [searchKnowledgeBase] and is suspended at the [await] of line 201. *)
Fixpoint tool_loop (t : TaskId) (fcs : list FunctionCall) (s : State) : State :=
  match fcs with
  | [] => set_task t Finished s
  | fc :: rest =>
      if String.eqb (fc_name fc) TOOL_NAME then
        let s := emit (onLog log_rag ("Querying Knowledge Base: " ++ dq ++ fc_query fc ++ dq)) s in
        let s := emit (kb_call t fc) s in
        set_task t (AwaitLookup fc rest) s
      else tool_loop t rest s
  end.

(** Lines 169-175. *)
Definition handle_interruption (m : LiveServerMessage) (s : State) : State :=
  if interrupted m then
    let s := emit (onLog log_system "User interrupted model.") s in
    let s := set_out (out s ++ map source_stop (sources s)) s in
    let s := set_sources [] s in
    set_nextStartTime 0 s
  else s.

(** Lines 177-189. *)
Definition handle_transcripts (m : LiveServerMessage) (s : State) : State :=
  let s :=
    match inputTranscription m with
    | Some (Some txt) => if truthy txt then emit (call_onTranscript txt false user) s else s
    | _ => s
    end in
  match outputTranscription m with
  | Some (Some txt) => if truthy txt then emit (call_onTranscript txt false agent) s else s
  | _ => s
  end.

(** Lines 191-216. *)
Definition handle_toolCall (t : TaskId) (m : LiveServerMessage) (s : State) : State :=
  match toolCall m with
  | Some functionCalls =>
      let s := emit (onLog log_system "Model requesting tool use...") s in
      tool_loop t functionCalls s
  | None => set_task t Finished s
  end.

(** Lines 169-216: [handleMessage] after its audio block. *)
Definition after_audio (t : TaskId) (m : LiveServerMessage) (s : State) : State :=
  handle_toolCall t m (handle_transcripts m (handle_interruption m s)).

(** [handleMessage(message)], up to its first [await]. [currentTime] is
    [outputAudioContext.currentTime] as line 148 reads it. With audio to play
    the activation is suspended at [await decodeAudioData] (line 150). *)
Definition handleMessage (m : LiveServerMessage) (currentTime : Q) (s : State) : State :=
  let t := length (tasks s) in
  let s := set_tasks (tasks s ++ [Running]) s in
  if truthy_opt (inlineData m) && outputAudioContext s && outputNode s then
    let s := set_nextStartTime (Qmax (nextStartTime s) currentTime) s in
    set_task t (AwaitDecode m) s
  else after_audio t m s.

(** A promise that an activation awaits is fulfilled with a value or rejected
    with an error message. *)
Inductive Outcome (A : Type) :=
| fulfilled (a : A)
| rejected (message : string).
Arguments fulfilled {A} a.
Arguments rejected {A} message.

(** [handleMessage] resumed at line 150 with the decoded buffer, of which the
    model keeps the [duration]: lines 157-166, then the rest of the method.
    [createBufferSource] on a context that [disconnect] has set to [null], or a
    rejected decode, ends the activation with an exception. *)
Definition resume_decode (t : TaskId) (r : Outcome Q) (s : State) : State :=
  match tasks s !! t with
  | Some (AwaitDecode m) =>
      match r with
      | fulfilled duration =>
          if outputAudioContext s then
            let source := created s in
            let s := set_created (S source) s in
            let s := emit (source_start source duration (nextStartTime s)) s in
            let s := set_sources (sources s ++ [source]) s in
            let s := set_nextStartTime (fadd (nextStartTime s) duration) s in
            after_audio t m s
          else set_task t Finished s
      | rejected _ => set_task t Finished s
      end
  | _ => s
  end.

(** [handleMessage] resumed at line 201 when the timer of
    [searchKnowledgeBase] has fired: the search runs on the database as it is
    now, lines 202-213, then the loop goes on. *)
Definition resume_lookup (t : TaskId) (s : State) : State :=
  match tasks s !! t with
  | Some (AwaitLookup fc rest) =>
      let result := searchKnowledgeBase (runtimeDatabase s) (fc_query fc) in
      let s := emit (kb_return t fc result) s in
      let s := emit (onLog log_rag ("Found: " ++ substring 0 50 result ++ "...")) s in
      let s :=
        match sessionPromise s with
        | Some p => then_ p (cb_sendToolResponse t fc result) s
        | None => s
        end in
      tool_loop t rest s
  | _ => s
  end.

(** The ['ended'] listener of a buffer source (line 160): [sources.delete(source)]. *)
Definition source_onended (source : SourceId) (s : State) : State :=
  set_sources (List.filter (fun x => negb (Nat.eqb x source)) (sources s)) s.

(** [disconnect()], the fields of the model. *)
Definition disconnect (s : State) : State :=
  let s :=
    match sessionPromise s with
    | Some p => set_sessionPromise None (then_ p cb_close s)
    | None => s
    end in
  let s := set_outputAudioContext false s in
  emit (onStateChange DISCONNECTED) s.

(** The [catch] block of [connect()]. *)
Definition connect_catch (t : TaskId) (message : string) (s : State) : State :=
  let s := emit (onStateChange ERROR) s in
  let s := emit (onLog log_system ("Connection Failed: " ++ message)) s in
  set_task t Finished s.

(** [connect()] up to [await getUserMedia] (line 44). *)
Definition connect (s : State) : State :=
  let s := set_tasks (tasks s ++ [AwaitUserMedia]) s in
  let s := emit (onStateChange CONNECTING) s in
  emit (onLog log_system "Initializing Audio Contexts...") s.

(** [connect()] resumed at line 44: lines 46-61, up to [await ai.live.connect]. *)
Definition resume_getUserMedia (t : TaskId) (r : Outcome unit) (s : State) : State :=
  match tasks s !! t with
  | Some AwaitUserMedia =>
      match r with
      | fulfilled _ =>
          let s := set_outputAudioContext true s in
          let s := set_outputNode true s in
          let s := emit (onLog log_system "Connecting to Gemini Live API...") s in
          let p := length (promises s) in
          let s := set_promises (promises s ++ [Pending []]) s in
          let s := set_sessionPromise (Some p) s in
          let s := set_sessionResolver (Some p) s in
          set_task t AwaitLiveConnect s
      | rejected message => connect_catch t message s
      end
  | _ => s
  end.

(** [connect()] resumed at line 63 with the live session: line 92. *)
Definition resume_live_connect (t : TaskId) (r : Outcome Session) (s : State) : State :=
  match tasks s !! t with
  | Some AwaitLiveConnect =>
      match r with
      | fulfilled liveSession =>
          let s :=
            match sessionResolver s with
            | Some p => resolve p liveSession s
            | None => s
            end in
          set_task t Finished s
      | rejected message => connect_catch t message s
      end
  | _ => s
  end.

(** The session callbacks [onopen], [onclose], [onerror] of lines 73-87. *)
Definition onopen (s : State) : State :=
  let s := emit (onStateChange CONNECTED) s in
  emit (onLog log_system "Session Connected. Ready.") s.

Definition onclose (s : State) : State :=
  let s := emit (onLog log_system "Session Closed") s in
  emit (onStateChange DISCONNECTED) s.

Definition onerror (message : string) (s : State) : State :=
  let s := emit (onLog log_system ("Error: " ++ message)) s in
  emit (onStateChange ERROR) s.

(* ===================================================================== *)
(** ** The event loop *)
(* ===================================================================== *)

(** What starts a task of the event loop: a call of a public method, a
    callback of the live session, the settling of an awaited promise, the
    ['ended'] event of a buffer source, or the admin panel replacing
    [runtimeDatabase]. *)
Inductive Event :=
| connect_called
| getUserMedia_settled (t : TaskId) (r : Outcome unit)
| live_connect_settled (t : TaskId) (r : Outcome Session)
| session_onopen
| session_onclose
| session_onerror (message : string)
| session_onmessage (m : LiveServerMessage) (currentTime : Q)
| decodeAudioData_settled (t : TaskId) (r : Outcome Q)
| lookup_timer_fired (t : TaskId)
| source_ended (source : SourceId)
| disconnect_called
| database_rewritten (db : list DatabaseEntry).

Definition handle (e : Event) (s : State) : State :=
  match e with
  | connect_called => connect s
  | getUserMedia_settled t r => resume_getUserMedia t r s
  | live_connect_settled t r => resume_live_connect t r s
  | session_onopen => onopen s
  | session_onclose => onclose s
  | session_onerror message => onerror message s
  | session_onmessage m currentTime => handleMessage m currentTime s
  | decodeAudioData_settled t r => resume_decode t r s
  | lookup_timer_fired t => resume_lookup t s
  | source_ended source => source_onended source s
  | disconnect_called => disconnect s
  | database_rewritten db => set_runtimeDatabase db s
  end.

(** One task: it starts with nothing called and nothing queued, runs the
    handler to its end or to an [await], then the microtasks queued meanwhile
    run in order. The result is the state left and the calls made. *)
Definition step (e : Event) (s : State) : State * list Effect :=
  let s' := handle e (set_microtasks [] (set_out [] s)) in
  (set_microtasks [] (set_out [] s'), out s' ++ microtasks s').

Fixpoint run (es : list Event) (s : State) : State * list Effect :=
  match es with
  | [] => (s, [])
  | e :: es' =>
      let (s1, o1) := step e s in
      let (s2, o2) := run es' s1 in
      (s2, o1 ++ o2)
  end.

(** A service as its constructor leaves it, on a given database. *)
Definition new_service (db : list DatabaseEntry) : State :=
  {| sessionPromise := None; sessionResolver := None;
     outputAudioContext := false; outputNode := false;
     nextStartTime := 0; sources := [];
     promises := []; tasks := []; created := 0%nat;
     runtimeDatabase := db; out := []; microtasks := [] |}.

(* ===================================================================== *)
(** ** Predicates of the statements *)
(* ===================================================================== *)

(** The letters of ASCII, each capital with its small letter below it. *)
Definition CAPITAL_LETTERS : string := "ABCDEFGHIJKLMNOPQRSTUVWXYZ".
Definition SMALL_LETTERS : string := "abcdefghijklmnopqrstuvwxyz".

(** The letter of [smalls] that stands where [c] stands in [capitals]; [c]
    itself when it is not there. *)
Fixpoint partner (capitals smalls : string) (c : ascii) : ascii :=
  match capitals, smalls with
  | String u capitals', String l smalls' =>
      if Ascii.eqb c u then l else partner capitals' smalls' c
  | _, _ => c
  end.

(** A text with its capital letters of ASCII made small. *)
Fixpoint lower_letters (s : string) : string :=
  match s with
  | EmptyString => EmptyString
  | String c s' => String (partner CAPITAL_LETTERS SMALL_LETTERS c) (lower_letters s')
  end.

(** A text of ASCII: every byte is below 128. *)
Fixpoint ascii_text (s : string) : bool :=
  match s with
  | EmptyString => true
  | String c s' => (N_of_ascii c <? 128)%N && ascii_text s'
  end.

(** [kw] occurs in [s]. *)
Definition is_substring (kw s : string) : Prop :=
  exists a b : string, s = (a ++ kw ++ b)%string.

(** An entry answers a lowercased query when one of its keywords occurs in it. *)
Definition has_keyword_in (lowerQuery : string) (entry : DatabaseEntry) : Prop :=
  exists keyword, In keyword (keywords entry) /\ is_substring keyword lowerQuery.

(** What a search of [db] is to return for a query whose lowercased form is
    [lowerQuery]: the content of the first entry, in the order of the
    database, one of whose keywords occurs in it; without such an entry the
    index of policies when ["policy"] occurs in it, and the not-found sentence
    otherwise. *)
Inductive search_result (db : list DatabaseEntry) (lowerQuery : string) : string -> Prop :=
| first_match (before : list DatabaseEntry) (e : DatabaseEntry) (after : list DatabaseEntry) :
    db = before ++ e :: after ->
    (forall x, In x before -> ~ has_keyword_in lowerQuery x) ->
    has_keyword_in lowerQuery e ->
    search_result db lowerQuery (content e)
| policy_index :
    (forall x, In x db -> ~ has_keyword_in lowerQuery x) ->
    is_substring "policy" lowerQuery ->
    search_result db lowerQuery INDEX_POLICIES
| not_found :
    (forall x, In x db -> ~ has_keyword_in lowerQuery x) ->
    ~ is_substring "policy" lowerQuery ->
    search_result db lowerQuery NOT_FOUND.


(** The first call of the known tool among [fcs], with the calls after it. *)
Fixpoint next_call (fcs : list FunctionCall) : option (FunctionCall * list FunctionCall) :=
  match fcs with
  | [] => None
  | fc :: rest =>
      if String.eqb (fc_name fc) TOOL_NAME then Some (fc, rest) else next_call rest
  end.

(** The state a task starts from: nothing called, nothing queued. *)
Definition fresh_task (s : State) : State := set_microtasks [] (set_out [] s).

(** The calls a run may make, given which function calls may be looked up
    and answered ([okfc]) and on which sessions answers may be sent ([oks]):
    a transcript call carries a non-empty delta and [isFinal = false]; a lookup
    is for an allowed function call; an answer is for an allowed function call
    and goes to an allowed session. *)
Definition allowed (okfc : FunctionCall -> Prop) (oks : Session -> Prop) (e : Effect) : Prop :=
  match e with
  | call_onTranscript txt isFinal _ => txt <> EmptyString /\ isFinal = false
  | kb_call _ fc => okfc fc
  | kb_return _ fc _ => okfc fc
  | sendToolResponse session _ fc _ => okfc fc /\ oks session
  | _ => True
  end.

Definition callback_ok (okfc : FunctionCall -> Prop) (cb : Callback) : Prop :=
  match cb with
  | cb_close => True
  | cb_sendToolResponse _ fc _ => okfc fc
  end.

(** The states from which only allowed calls follow: every lookup awaited is
    for an allowed function call, so is every answer kept with a pending
    promise, and [sessionPromise], when resolved, holds an allowed session.
    [okmsg] is a property of the messages whose audio is being decoded. *)
Definition state_ok (okmsg : LiveServerMessage -> Prop) (okfc : FunctionCall -> Prop)
    (oks : Session -> Prop) (s : State) : Prop :=
  (forall t fc rest, tasks s !! t = Some (AwaitLookup fc rest) -> okfc fc) /\
  (forall t m, tasks s !! t = Some (AwaitDecode m) -> okmsg m) /\
  (forall p cbs, promises s !! p = Some (Pending cbs) -> Forall (callback_ok okfc) cbs) /\
  (forall p session, sessionPromise s = Some p ->
                     promises s !! p = Some (Resolved session) -> oks session).

(** The calls of the running task, made and queued, are allowed. *)
Definition calls_ok (okfc : FunctionCall -> Prop) (oks : Session -> Prop) (s : State) : Prop :=
  Forall (allowed okfc oks) (out s) /\ Forall (allowed okfc oks) (microtasks s).

(** The tasks that bring only allowed messages and allowed sessions. *)
Definition event_ok (okmsg : LiveServerMessage -> Prop) (oks : Session -> Prop)
    (e : Event) : Prop :=
  match e with
  | live_connect_settled _ (fulfilled session) => oks session
  | session_onmessage m _ => okmsg m
  | _ => True
  end.

(** The live sessions that [ai.live.connect] delivers in the task [e], if any,
    satisfy [oks]. *)
Definition delivers (oks : Session -> Prop) (e : Event) : Prop :=
  match e with
  | live_connect_settled _ (fulfilled session) => oks session
  | _ => True
  end.

(** A call of [onTranscript] as the service may issue it. *)
Definition transcript_call_ok (e : Effect) : Prop :=
  match e with
  | call_onTranscript txt isFinal _ => txt <> EmptyString /\ isFinal = false
  | _ => True
  end.

(** The call [e] is a lookup for the function call [fc], or an answer to it. *)
Definition concerns (fc : FunctionCall) (e : Effect) : Prop :=
  match e with
  | kb_call _ fc' => fc' = fc
  | kb_return _ fc' _ => fc' = fc
  | sendToolResponse _ _ fc' _ => fc' = fc
  | _ => False
  end.

(** The call [e] is a [sendToolResponse]; it is one on [session]. *)
Definition is_send (e : Effect) : Prop :=
  match e with
  | sendToolResponse _ _ _ _ => True
  | _ => False
  end.

Definition sends_on (session : Session) (e : Effect) : Prop :=
  match e with
  | sendToolResponse session' _ _ _ => session' = session
  | _ => False
  end.

Definition known_tool (fc : FunctionCall) : Prop := fc_name fc = TOOL_NAME.

(** The states of the broker: what is awaited and what is kept with pending
    promises is for calls of the known tool. Every state that a run reaches
    from a new service is one. *)
Definition broker_ok (s : State) : Prop :=
  state_ok (fun _ => True) known_tool (fun _ => True) s.

(** Scenario data: two calls of the known tool around a call of another
    one, a message that carries them, and a session in which this message
    has arrived and its first lookup is awaited. *)
Definition call_1 : FunctionCall :=
  {| fc_id := "1"; fc_name := "search_knowledge_base"; fc_query := "return policy" |}.
Definition call_2 : FunctionCall :=
  {| fc_id := "2"; fc_name := "get_weather"; fc_query := "return policy" |}.
Definition call_3 : FunctionCall :=
  {| fc_id := "3"; fc_name := "search_knowledge_base"; fc_query := "order 12345" |}.

Definition tool_message (fcs : list FunctionCall) : LiveServerMessage :=
  {| inlineData := None; interrupted := false;
     inputTranscription := None; outputTranscription := None;
     toolCall := Some fcs |}.

Definition connected_service : State :=
  fst (run [connect_called; getUserMedia_settled 0 (fulfilled tt);
            live_connect_settled 0 (fulfilled 7%nat); session_onopen]
           (new_service INITIAL_DATA)).

Definition awaiting_lookup : State :=
  fst (run [session_onmessage (tool_message [call_1; call_2; call_3]) 0] connected_service).

(** Playback: the calls on buffer sources among [effs], the buffers started
    (as start time and duration, in order) and the sources stopped. *)
Definition is_audio (e : Effect) : bool :=
  match e with
  | source_start _ _ _ | source_stop _ => true
  | _ => false
  end.

Definition audio (effs : list Effect) : list Effect := List.filter is_audio effs.

Definition starts (effs : list Effect) : list (Q * Q) :=
  flat_map (fun e => match e with source_start _ d w => [(w, d)] | _ => [] end) effs.

Definition stops (effs : list Effect) : list SourceId :=
  flat_map (fun e => match e with source_stop x => [x] | _ => [] end) effs.

(** What playback reads and writes of a state. *)
Definition playback (s : State) : Q * list SourceId * nat * list Effect * list Effect :=
  (nextStartTime s, sources s, created s, audio (out s), audio (microtasks s)).

(** The timeline cursor and the calls on buffer sources. *)
Definition timeline (s : State) : Q * list Effect * list Effect :=
  (nextStartTime s, audio (out s), audio (microtasks s)).

(** One message handled through its audio block: the task of [onmessage],
    then the settling of the decode that it awaits, if it awaits one. *)
Definition process (m : LiveServerMessage) (currentTime : Q) (r : Outcome Q) (s : State)
    : State * list Effect :=
  run [session_onmessage m currentTime; decodeAudioData_settled (length (tasks s)) r] s.

(** The audio block of [handleMessage] is entered: line 146. *)
Definition has_audio (m : LiveServerMessage) (s : State) : bool :=
  truthy_opt (inlineData m) && outputAudioContext s && outputNode s.

(** Tasks that neither bring a message nor settle a decode. *)
Definition no_message (e : Event) : Prop :=
  match e with
  | session_onmessage _ _ | decodeAudioData_settled _ _ => False
  | _ => True
  end.

(** Tasks without interruption: the message brought, if any, does not carry
    the [interrupted] flag. Decoded buffers have a duration that is not
    negative. *)
Definition no_interrupt (e : Event) : Prop :=
  match e with
  | session_onmessage m _ => interrupted m = false
  | decodeAudioData_settled _ (fulfilled duration) => (0 <= duration)%Q
  | _ => True
  end.

(** The clock that the task of a message reads is a binary64 number. *)
Definition binary64_clock (e : Event) : Prop :=
  match e with
  | session_onmessage _ currentTime => binary64 currentTime
  | _ => True
  end.



(** No message whose audio is being decoded carries the [interrupted] flag. *)
Definition no_interrupt_pending (s : State) : Prop :=
  forall t m, tasks s !! t = Some (AwaitDecode m) -> interrupted m = false.

(** Buffers, in the order of their scheduling, of which none starts before an
    earlier one ends. *)
Definition back_to_back (l : list (Q * Q)) : Prop :=
  forall (i j : nat) (b1 b2 : Q * Q),
    (i < j)%nat -> l !! i = Some b1 -> l !! j = Some b2 ->
    (fst b1 + snd b1 <= fst b2)%Q.

(** Buffers, in the order of their scheduling, of which none starts before an
    earlier one ends by the code's own sum: start plus duration, rounded. *)
Definition back_to_back64 (l : list (Q * Q)) : Prop :=
  forall (i j : nat) (b1 b2 : Q * Q),
    (i < j)%nat -> l !! i = Some b1 -> l !! j = Some b2 ->
    (fadd (fst b1) (snd b1) <= fst b2)%Q.

(** Buffers of which none starts before an earlier one ends by more than the
    error of one rounding, a half unit in the last place of the end time. *)
Definition overlap_rounding (l : list (Q * Q)) : Prop :=
  forall (i j : nat) (b1 b2 : Q * Q),
    (i < j)%nat -> l !! i = Some b1 -> l !! j = Some b2 ->
    (fst b1 + snd b1 - fst b2 <= Qmag (fst b1 + snd b1) * pow2 (-53) + pow2 (-1075))%Q.

(** The state in which [handleMessage] goes on after lines 157-166. *)
Definition scheduled (duration : Q) (s : State) : State :=
  set_nextStartTime (fadd (nextStartTime s) duration)
    (set_sources (sources s ++ [created s])
       (emit (source_start (created s) duration (nextStartTime s))
          (set_created (S (created s)) (fresh_task s)))).


(** A sequence of enqueues: each item is a message with its audio, the clock
    time at which it arrives and the duration of its decoded buffer; each is
    handled through its audio block before the next arrives. *)
Fixpoint enqueues (items : list (LiveServerMessage * Q * Q)) (s : State)
    : State * list Effect :=
  match items with
  | [] => (s, [])
  | (m, now, duration) :: rest =>
      let (s1, o1) := process m now (fulfilled duration) s in
      let (s2, o2) := enqueues rest s1 in
      (s2, o1 ++ o2)
  end.

(** The schedule: each buffer starts at the later of the cursor and the
    clock, and the cursor then advances to the sum, in binary64, of this start
    and the buffer's duration. *)
Fixpoint schedule (cursor : Q) (items : list (LiveServerMessage * Q * Q)) : list (Q * Q) :=
  match items with
  | [] => []
  | (_, now, duration) :: rest =>
      (Qmax cursor now, duration) :: schedule (fadd (Qmax cursor now) duration) rest
  end.

Fixpoint cursor_after (cursor : Q) (items : list (LiveServerMessage * Q * Q)) : Q :=
  match items with
  | [] => cursor
  | (_, now, duration) :: rest => cursor_after (fadd (Qmax cursor now) duration) rest
  end.

(** An item that is enqueued without interruption: its clock time is a
    binary64 number, the duration of its buffer is not negative. *)
Definition plain_audio (item : LiveServerMessage * Q * Q) : Prop :=
  truthy_opt (inlineData (fst (fst item))) = true /\
  interrupted (fst (fst item)) = false /\
  binary64 (snd (fst item)) /\
  (0 <= snd item)%Q.

Definition audio_message (data : string) : LiveServerMessage :=
  {| inlineData := Some data; interrupted := false;
     inputTranscription := None; outputTranscription := None; toolCall := None |}.

Definition interrupt_message : LiveServerMessage :=
  {| inlineData := None; interrupted := true;
     inputTranscription := None; outputTranscription := None; toolCall := None |}.

(** The duration of a buffer of 40 ms: the number [0.04]. *)
Definition chunk_40ms : Q := Eval vm_compute in round64 (4 # 100).

(** Scenario data: two such buffers, the first arrives while the clock is at
    [0.25], the second while the first plays, at [0.265625]. *)
Definition two_chunks : list (LiveServerMessage * Q * Q) :=
  [(audio_message "AAAA", (1 # 4)%Q, chunk_40ms);
   (audio_message "BBBB", (17 # 64)%Q, chunk_40ms)].














From Stdlib Require Import Sorted Permutation.
From Stdlib Require DecimalString DecimalNat.
From Stdlib Require Qabs.
(* ===================================================================== *)
(** ** mockRagService.ts: the admin methods *)
(* ===================================================================== *)

(** An entry as [runtimeDatabase] holds it: the [DatabaseEntry] above with its
    [addedAt] stamp. *)
Record StampedEntry := { entry_of : DatabaseEntry; addedAt : Z }.

(** The database as [searchKnowledgeBase] reads it. *)
Definition entries_of (db : list StampedEntry) : list DatabaseEntry := map entry_of db.

(** [addDatabaseEntry(category, keywords, content)]: the database after the
    [push]. [new_id] is what [Math.random().toString(36).substr(2, 9)] gives
    and [now] is [Date.now()]. *)
Definition newEntry (new_id : string) (now : Z) (cat : Category) (kws : list string)
    (c : string) : StampedEntry :=
  {| entry_of := {| id := new_id; category := cat;
                    keywords := map (fun k => trim (toLowerCase k)) kws;
                    content := c |};
     addedAt := now |}.

Definition addDatabaseEntry (new_id : string) (now : Z) (cat : Category)
    (kws : list string) (c : string) (runtimeDatabase : list StampedEntry)
    : list StampedEntry :=
  runtimeDatabase ++ [newEntry new_id now cat kws c].

(** [deleteDatabaseEntry(id)]: [runtimeDatabase.filter(e => e.id !== id)]. *)
Definition deleteDatabaseEntry (i : string) (runtimeDatabase : list StampedEntry)
    : list StampedEntry :=
  List.filter (fun e => negb (String.eqb (id (entry_of e)) i)) runtimeDatabase.

(** [Array.prototype.sort(cmp)], which is stable: an element goes behind the
    elements before it that do not compare greater. With a comparator that is
    an order the result does not depend on the algorithm. *)
Fixpoint sort_insert {A : Type} (cmp : A -> A -> Z) (x : A) (sorted : list A) : list A :=
  match sorted with
  | [] => [x]
  | y :: rest =>
      if (0 <? cmp y x)%Z then x :: y :: rest else y :: sort_insert cmp x rest
  end.

Definition Array_sort {A : Type} (cmp : A -> A -> Z) (l : list A) : list A :=
  fold_left (fun sorted x => sort_insert cmp x sorted) l [].

(** [getDatabaseEntries()]: [[...runtimeDatabase].sort((a, b) => b.addedAt - a.addedAt)]. *)
Definition getDatabaseEntries (runtimeDatabase : list StampedEntry) : list StampedEntry :=
  Array_sort (fun a b => (addedAt b - addedAt a)%Z) runtimeDatabase.

(* ===================================================================== *)
(** ** AdminPanel.tsx: [handleSubmit] *)
(* ===================================================================== *)

(** [s.split(',')]. *)
Fixpoint split_comma (s : string) : list string :=
  match s with
  | EmptyString => [EmptyString]
  | String c s' =>
      if Ascii.eqb c ","%char then EmptyString :: split_comma s'
      else match split_comma s' with
           | piece :: pieces => String c piece :: pieces
           | [] => [String c EmptyString]
           end
  end.

(** [handleSubmit], as it changes the database: nothing when the keywords or
    the content are blank, else one [addDatabaseEntry]. *)
Definition handleSubmit (new_id : string) (now : Z) (cat : Category)
    (keywords_field content_field : string) (runtimeDatabase : list StampedEntry)
    : list StampedEntry :=
  if negb (truthy (trim keywords_field)) || negb (truthy (trim content_field))
  then runtimeDatabase
  else addDatabaseEntry new_id now cat (map trim (split_comma keywords_field))
         content_field runtimeDatabase.

(** The blanks of ASCII: tab, line feed, vertical tab, form feed, carriage
    return and space. *)
Definition BLANKS : list ascii := ["009"; "010"; "011"; "012"; "013"; " "]%char.

Definition blank (c : ascii) : bool := existsb (Ascii.eqb c) BLANKS.

Fixpoint blanks (s : string) : bool :=
  match s with
  | EmptyString => true
  | String c s' => blank c && blanks s'
  end.

(** The last character of [String c s]. *)
Fixpoint last_char (c : ascii) (s : string) : ascii :=
  match s with
  | EmptyString => c
  | String c' s' => last_char c' s'
  end.

(** A keyword as it is meant: a text of ASCII that begins and ends with a
    character that is no blank. *)
Definition plain_keyword (s : string) : bool :=
  match s with
  | EmptyString => false
  | String c s' => ascii_text s && negb (blank c) && negb (blank (last_char c s'))
  end.

(** A character is an upper-case letter [A]..[Z]. *)
Definition is_upper (c : ascii) : bool :=
  let n := nat_of_ascii c in (65 <=? n)%nat && (n <=? 90)%nat.

Fixpoint has_upper (s : string) : bool :=
  match s with
  | EmptyString => false
  | String c s' => is_upper c || has_upper s'
  end.

(** What a search gives when no entry answers: lines 203-207. *)
Definition search_fallback (lowerQuery : string) : string :=
  if includes lowerQuery "policy" then INDEX_POLICIES else NOT_FOUND.

(** Newest first: the stamps never increase along the list. *)
Definition newest_first (l : list StampedEntry) : Prop :=
  StronglySorted (fun a b => (addedAt b <= addedAt a)%Z) l.

(** The entries of a list that carry the stamp [z], in their order. *)
Definition stamped (z : Z) (l : list StampedEntry) : list StampedEntry :=
  List.filter (fun e => Z.eqb (addedAt e) z) l.

(* ===================================================================== *)
(** ** textAgentService.ts: [processTextQuery] *)
(* ===================================================================== *)

(** What [consumeStream] reads of a [GenerateContentResponse]: [chunk.text]
    and [chunk.functionCalls], each possibly [undefined]. *)
Record Chunk := {
  chunk_text : option string;
  chunk_functionCalls : option (list FunctionCall)
}.

(** An [AsyncGenerator] of chunks as [for await] sees it: the chunks it
    yields, then it is done or it throws. *)
Record Stream := { chunks : list Chunk; thrown : option string }.

(** The messages given to [chat.sendMessageStream]: the user's query, and a
    [functionResponse] with [name] and [response.result]. *)
Inductive ChatMessage :=
| user_message (query : string)
| functionResponse (name : string) (result : string).

(** The calls out of [processTextQuery], in the order in which it makes them. *)
Inductive AgentCall :=
| agent_onLog (type : LogType) (msg : string)
| agent_onToken (token : string)
| chat_sendMessageStream (message : ChatMessage)
| agent_searchKnowledgeBase (query : string)
| models_generateContent (answerText : string).

(** The messages sent to the chat, and the number of searches made. *)
Definition sent (calls : list AgentCall) : list ChatMessage :=
  flat_map (fun c => match c with chat_sendMessageStream m => [m] | _ => [] end) calls.

Definition searches (calls : list AgentCall) : list string :=
  flat_map (fun c => match c with agent_searchKnowledgeBase q => [q] | _ => [] end) calls.

(** The world around [processTextQuery]: the environment variable, the chat
    (what [sendMessageStream] gives, from all the messages sent so far, the
    new one last), the module-level [runtimeDatabase] as the n-th search of the
    run finds it, and the speech model (the promise of [generateContent], with
    [candidates?.[0]?.content?.parts?.[0]?.inlineData?.data] when it is
    fulfilled). *)
Record World := {
  API_KEY : option string;
  sendMessageStream : list ChatMessage -> Outcome Stream;
  database_at : nat -> list DatabaseEntry;
  generateContent : string -> Outcome (option string)
}.

(** An asynchronous computation: from the calls made so far to a value or an
    exception, and the calls made then. *)
Definition Agent (A : Type) : Type := list AgentCall -> Outcome A * list AgentCall.

Definition ret {A} (a : A) : Agent A := fun calls => (fulfilled a, calls).

Definition throw {A} (message : string) : Agent A := fun calls => (rejected message, calls).

Definition bind {A B} (m : Agent A) (f : A -> Agent B) : Agent B :=
  fun calls =>
    match m calls with
    | (fulfilled a, calls') => f a calls'
    | (rejected message, calls') => (rejected message, calls')
    end.

Notation "'let*' x ':=' m 'in' f" := (bind m (fun x => f))
  (at level 10, x pattern, m at level 100, f at level 200).

Definition call (c : AgentCall) : Agent unit := fun calls => (fulfilled tt, calls ++ [c]).

(** [await chat.sendMessageStream({ message })]. *)
Definition chat_send (w : World) (message : ChatMessage) : Agent Stream :=
  fun calls =>
    let calls := calls ++ [chat_sendMessageStream message] in
    (sendMessageStream w (sent calls), calls).

(** [await searchKnowledgeBase(q)]: it never rejects. *)
Definition search (w : World) (q : string) : Agent string :=
  fun calls =>
    (fulfilled (searchKnowledgeBase (database_at w (length (searches calls))) q),
     calls ++ [agent_searchKnowledgeBase q]).

(** [await ai.models.generateContent(...)] on [answerText]. *)
Definition speak (w : World) (answerText : string) : Agent (option string) :=
  fun calls => (generateContent w answerText, calls ++ [models_generateContent answerText]).

(** Lines 33-41, the body of the [for await]. *)
Definition consume_chunk (chunk : Chunk) (acc : string * list FunctionCall)
    : Agent (string * list FunctionCall) :=
  let '(textAcc, funcCalls) := acc in
  let* textAcc :=
    match chunk_text chunk with
    | Some t =>
        if truthy t then let* _ := call (agent_onToken t) in ret (textAcc ++ t)%string
        else ret textAcc
    | None => ret textAcc
    end in
  match chunk_functionCalls chunk with
  | Some fc => if (0 <? length fc)%nat then ret (textAcc, funcCalls ++ fc)
               else ret (textAcc, funcCalls)
  | None => ret (textAcc, funcCalls)
  end.

Fixpoint for_await (cs : list Chunk) (acc : string * list FunctionCall)
    : Agent (string * list FunctionCall) :=
  match cs with
  | [] => ret acc
  | chunk :: rest => let* acc := consume_chunk chunk acc in for_await rest acc
  end.

(** [consumeStream] (lines 28-44). *)
Definition consumeStream (streamResult : Stream) : Agent (string * list FunctionCall) :=
  let* acc := for_await (chunks streamResult) (EmptyString, []) in
  match thrown streamResult with
  | Some message => throw message
  | None => ret acc
  end.

(** Lines 51-76: the loop over the function calls of the first stream. *)
Fixpoint tool_turns (w : World) (funcCalls : list FunctionCall) (textAcc : string)
    : Agent string :=
  match funcCalls with
  | [] => ret textAcc
  | fc :: rest =>
      if String.eqb (fc_name fc) TOOL_NAME then
        let q := fc_query fc in
        let* _ := call (agent_onLog log_rag ("Querying Knowledge Base: " ++ dq ++ q ++ dq)) in
        let* result := search w q in
        let* _ := call (agent_onLog log_rag "Retrieved info. Sending to model...") in
        let* stream2 := chat_send w (functionResponse (fc_name fc) result) in
        let* outcome := consumeStream stream2 in
        tool_turns w rest (textAcc ++ fst outcome)%string
      else tool_turns w rest textAcc
  end.

Definition NO_TEXT : string :=
  "I processed your request but couldn't generate a text response.".

(** [processTextQuery(query, onLog, onToken)]: the promise it returns settles
    with [{ text, audioBase64 }] or with an error. *)
Definition processTextQuery (w : World) (query : string) : Agent (string * string) :=
  if negb (truthy_opt (API_KEY w)) then throw "API_KEY not found in environment"
  else
    let* _ := call (agent_onLog log_system "Processing query with Gemini 2.5 Flash...") in
    let* _ := call (agent_onLog log_system "Sending query to model...") in
    let* stream1 := chat_send w (user_message query) in
    let* first := consumeStream stream1 in
    let* textAcc := tool_turns w (snd first) (fst first) in
    let answerText := if truthy textAcc then textAcc else NO_TEXT in
    let* _ := call (agent_onLog log_system "Synthesizing speech from response...") in
    let* audioBase64 := speak w answerText in
    match audioBase64 with
    | Some data => if truthy data then ret (answerText, data)
                   else throw "Failed to generate speech audio"
    | None => throw "Failed to generate speech audio"
    end.

(** The text that a run has streamed: the tokens given to [onToken], joined. *)
Definition tokens (calls : list AgentCall) : list string :=
  flat_map (fun c => match c with agent_onToken t => [t] | _ => [] end) calls.

Definition join (pieces : list string) : string :=
  fold_right String.append EmptyString pieces.

Definition streamed (calls : list AgentCall) : string := join (tokens calls).

(** The non-empty texts that chunks carry, and their function calls. *)
Definition texts_of (cs : list Chunk) : list string :=
  flat_map (fun chunk => match chunk_text chunk with
                         | Some t => if truthy t then [t] else []
                         | None => []
                         end) cs.

Definition calls_of (cs : list Chunk) : list FunctionCall :=
  flat_map (fun chunk => match chunk_functionCalls chunk with
                         | Some fc => fc
                         | None => []
                         end) cs.

(** The function calls that a stream carries, and the queries of those that
    name the search tool. *)
Definition stream_calls (st : Stream) : list FunctionCall := calls_of (chunks st).

Definition tool_queries (fcs : list FunctionCall) : list string :=
  map fc_query (List.filter (fun fc => String.eqb (fc_name fc) TOOL_NAME) fcs).

(** The exchange that [processTextQuery] has with the chat and the knowledge
    base for the queries [qs], the first of them being search number [n]: each
    query is searched, on the database of that moment, and its result sent. *)
Fixpoint exchange (w : World) (n : nat) (qs : list string) : list AgentCall :=
  match qs with
  | [] => []
  | q :: rest =>
      agent_searchKnowledgeBase q
      :: chat_sendMessageStream
           (functionResponse TOOL_NAME (searchKnowledgeBase (database_at w n) q))
      :: exchange w (S n) rest
  end.

(** The calls to the chat and to the knowledge base among the calls of a run. *)
Definition outbound (calls : list AgentCall) : list AgentCall :=
  List.filter (fun c => match c with
                        | chat_sendMessageStream _ | agent_searchKnowledgeBase _ => true
                        | _ => false
                        end) calls.

(** Scenario data: a chat whose first stream asks for three function calls,
    the second of an unknown tool, and whose later streams bring text, the
    last chunk of each with a further function call; a speech model that
    returns audio. *)
Definition example_stream : Stream :=
  {| chunks := [ {| chunk_text := None; chunk_functionCalls := Some [call_1; call_2] |};
                 {| chunk_text := Some EmptyString; chunk_functionCalls := Some [call_3] |} ];
     thrown := None |}.

Definition example_world : World :=
  {| API_KEY := Some "key";
     sendMessageStream := fun history =>
       match history with
       | [user_message _] => fulfilled example_stream
       | _ =>
           fulfilled {| chunks := [ {| chunk_text := Some "Thirty";
                                       chunk_functionCalls := None |};
                                    {| chunk_text := Some " days. ";
                                       chunk_functionCalls := Some [call_1] |} ];
                        thrown := None |}
       end;
     database_at := fun _ => INITIAL_DATA;
     generateContent := fun _ => fulfilled (Some "UklGRg") |}.

Definition example_calls : list AgentCall :=
  Eval vm_compute in snd (processTextQuery example_world "Can I return it?" []).

(* ===================================================================== *)
(** ** App.tsx: the transcript of a text turn *)
(* ===================================================================== *)

(** The state update of the [onToken] callback that [handleTextSubmit] gives
    to [processTextQuery] (lines 226-236): the token goes behind the text of
    the last entry when that is the agent's. *)
Definition onToken (token : string) (prev : list TranscriptEntry) : list TranscriptEntry :=
  match last prev with
  | Some l =>
      if Sender_eqb (sender l) agent
      then <[ (length prev - 1)%nat := {| sender := sender l; text := text l ++ token |} ]> prev
      else prev
  | None => prev
  end.

(** The last update of [handleTextSubmit] (lines 288-294): the text of the
    last entry, when that is the agent's, becomes the text returned. *)
Definition set_answer (answer : string) (prev : list TranscriptEntry) : list TranscriptEntry :=
  match last prev with
  | Some l =>
      if Sender_eqb (sender l) agent
      then <[ (length prev - 1)%nat := {| sender := sender l; text := answer |} ]> prev
      else prev
  | None => prev
  end.

(** The transcript while the answer of a text turn streams in. The updates
    run in the order in which they are queued: the user's entry (line 215),
    the tokens [early] that arrive before the 10 ms timer, the agent's empty
    entry that the timer adds (line 218), the tokens [late]. *)
Definition streaming_transcript (userQuery : string) (early late : list string)
    (prev : list TranscriptEntry) : list TranscriptEntry :=
  let tr := prev ++ [ {| sender := user; text := userQuery |} ] in
  let tr := fold_left (fun tr token => onToken token tr) early tr in
  let tr := tr ++ [ {| sender := agent; text := EmptyString |} ] in
  fold_left (fun tr token => onToken token tr) late tr.

(** The transcript when the turn is over (lines 240-294). [connectionState] is
    what [connectionStateRef.current] holds when [processTextQuery] has
    returned: unless it is [DISCONNECTED] the handler returns at once.
    [playback] is the outcome of lines 244-286, which create the audio context,
    await [decodeAudioData] and start the source: when they throw or the
    decode is rejected, the [catch] block runs. The returned text is set only
    behind a playback that has started. *)
Definition text_turn_transcript (userQuery : string) (early late : list string)
    (answer : string) (connectionState : ConnectionState) (playback : Outcome unit)
    (prev : list TranscriptEntry) : list TranscriptEntry :=
  let tr := streaming_transcript userQuery early late prev in
  match connectionState with
  | DISCONNECTED =>
      match playback with
      | fulfilled _ => set_answer answer tr
      | rejected _ => tr
      end
  | _ => tr
  end.

(** The transcript after a series of [onTranscript] calls. *)
Definition transcript_after (deltas : list (string * bool * Sender))
    (prev : list TranscriptEntry) : list TranscriptEntry :=
  fold_left (fun tr d => onTranscript (fst (fst d)) (snd (fst d)) (snd d) tr) deltas prev.

(** No two neighbours of a transcript have the same sender. *)
Fixpoint alternating (tr : list TranscriptEntry) : Prop :=
  match tr with
  | a :: rest =>
      match rest with
      | b :: _ => sender a <> sender b
      | [] => True
      end /\ alternating rest
  | [] => True
  end.

(** What [sndr] has said in a transcript, and in a series of deltas. *)
Definition said (sndr : Sender) (tr : list TranscriptEntry) : string :=
  transcript_text (List.filter (fun e => Sender_eqb (sender e) sndr) tr).

Definition delta_text (sndr : Sender) (deltas : list (string * bool * Sender)) : string :=
  join (map (fun d => fst (fst d)) (List.filter (fun d => Sender_eqb (snd d) sndr) deltas)).

(* ===================================================================== *)
(** ** App.tsx: [formatTime] *)
(* ===================================================================== *)

(** [n.toString()] of a natural number (below 10^21, where JavaScript turns
    to the exponent notation). *)
Definition Number_toString (n : nat) : string :=
  DecimalString.NilEmpty.string_of_uint (Nat.to_uint n).

(** [s.padStart(2, '0')]. *)
Definition padStart2 (s : string) : string :=
  match String.length s with
  | 0%nat => "00"
  | 1%nat => String "0" s
  | _ => s
  end.

(** [formatTime(seconds)] on a number of seconds counted in whole seconds. *)
Definition formatTime (seconds : nat) : string :=
  let mins := (seconds / 60)%nat in
  let secs := (seconds mod 60)%nat in
  (padStart2 (Number_toString mins) ++ ":" ++ padStart2 (Number_toString secs))%string.

(** The character of a decimal digit. *)
Definition digit (d : nat) : ascii := ascii_of_nat (48 + d).

(** The display [mm:ss] of two numbers below 100. *)
Definition mm_ss (mins secs : nat) : string :=
  String (digit (mins / 10)) (String (digit (mins mod 10)) (String ":"
    (String (digit (secs / 10)) (String (digit (secs mod 10)) EmptyString)))).

(** Reading a display back: the number that a string of digits writes, and
    the parts of a string before and after its first colon. *)
Definition read_number (s : string) : option nat :=
  option_map Nat.of_uint (DecimalString.NilEmpty.uint_of_string s).

Fixpoint before_colon (s : string) : string :=
  match s with
  | EmptyString => EmptyString
  | String c s' => if Ascii.eqb c ":" then EmptyString else String c (before_colon s')
  end.

Fixpoint after_colon (s : string) : string :=
  match s with
  | EmptyString => EmptyString
  | String c s' => if Ascii.eqb c ":" then s' else after_colon s'
  end.

(* ===================================================================== *)
(** ** geminiLiveService.ts: hanging up *)
(* ===================================================================== *)

(** Tasks in which [connect()] does not get to create a new output context:
    all but a successful [getUserMedia]. *)
Definition no_new_context (e : Event) : Prop :=
  match e with
  | getUserMedia_settled _ (fulfilled _) => False
  | _ => True
  end.

(** Scenario data: a session that has two buffers of one second scheduled,
    then a hang-up and a new connection. *)
Definition two_buffers_scheduled : State :=
  fst (enqueues [(audio_message "AAAA", 0%Q, 1%Q); (audio_message "BBBB", 0%Q, 1%Q)]
         connected_service).

Definition hang_up_and_reconnect : list Event :=
  [disconnect_called; connect_called; getUserMedia_settled 3 (fulfilled tt);
   live_connect_settled 3 (fulfilled 8%nat); session_onopen].

(** A session in which a message with audio has arrived and its decode is
    awaited (activation 1), and what follows: the decode settles, a further
    message with audio arrives and its decode settles. *)
Definition decode_pending : State :=
  fst (run [session_onmessage (audio_message "AAAA") 0] connected_service).

Definition late_audio : list Event :=
  [decodeAudioData_settled 1 (fulfilled 1%Q); session_onmessage (audio_message "BBBB") 1;
   decodeAudioData_settled 2 (fulfilled 1%Q)].

(** The calls of [session.close()] among calls, the [close] callbacks that
    wait on pending promises, and the calls of [disconnect()] among tasks. *)
Definition is_close (e : Effect) : bool :=
  match e with
  | session_close _ => true
  | _ => false
  end.

Definition closes (effs : list Effect) : nat := length (List.filter is_close effs).

Definition is_cb_close (cb : Callback) : bool :=
  match cb with
  | cb_close => true
  | _ => false
  end.

Definition closes_of (p : Promise) : nat :=
  match p with
  | Pending cbs => length (List.filter is_cb_close cbs)
  | Resolved _ => 0%nat
  end.

Definition closes_due (s : State) : nat := list_sum (map closes_of (promises s)).

Definition is_disconnect (e : Event) : bool :=
  match e with
  | disconnect_called => true
  | _ => false
  end.

Definition disconnects (es : list Event) : nat := length (List.filter is_disconnect es).

(** The closes of a task under way: due, made and queued. *)
Definition close_budget (s : State) : nat :=
  (closes_due s + closes (out s) + closes (microtasks s))%nat.

(** Scenario data: [disconnect()] is called while [ai.live.connect] is
    awaited, then the session is delivered. *)
Definition hang_up_while_connecting : list Event :=
  [connect_called; getUserMedia_settled 0 (fulfilled tt); disconnect_called;
   live_connect_settled 0 (fulfilled 7%nat); session_onopen; disconnect_called].

(* ===================================================================== *)
(** ** The service under App.tsx *)
(* ===================================================================== *)

(** The transcript that the App shows after the calls [effs] of a service
    that [handleStart] has created: each call of the [onTranscript] callback is
    one state update. *)
Definition shown (effs : list Effect) (prev : list TranscriptEntry) : list TranscriptEntry :=
  fold_left (fun tr e =>
               match e with
               | call_onTranscript txt isFinal sndr => onTranscript txt isFinal sndr tr
               | _ => tr
               end) effs prev.

(** No entry of a transcript is empty. *)
Definition no_empty_entry (tr : list TranscriptEntry) : Prop :=
  Forall (fun e => text e <> EmptyString) tr.

(* ===================================================================== *)
(** ** geminiLiveService.ts: the bytes for the visualizer *)
(* ===================================================================== *)

(** The store of a number into a [Uint8Array]: truncated towards zero, then
    taken modulo 256. *)
Definition truncate (x : Q) : Z := if Qle_bool 0 x then Qfloor x else Qceiling x.

Definition ToUint8 (x : Q) : Z := (truncate x) mod 256.

(** Lines 112-115 of [onaudioprocess]: [dataArray[i] = Math.abs(inputData[i]) * 255].
    A sample is a float32 and its product with 255 is exact in binary64, so
    the samples are rationals here. *)
Definition visual_byte (sample : Q) : Z := ToUint8 (Qabs.Qabs sample * 255).

Definition visual_bytes (inputData : list Q) : list Z := map visual_byte inputData.

(** Every token that a run has given to [onToken] is a non-empty string. *)
Definition tokens_ok (calls : list AgentCall) : Prop :=
  Forall (fun token => token <> EmptyString) (tokens calls).

(* ===================================================================== *)
(** ** geminiLiveService.ts: the buffer sources *)
(* ===================================================================== *)

(** The sources that are live after the calls [effs], given those that were
    before: started, and not stopped since. *)
Fixpoint live_after (live : list SourceId) (effs : list Effect) : list SourceId :=
  match effs with
  | [] => live
  | source_start x _ _ :: rest => live_after (x :: live) rest
  | source_stop x :: rest => live_after (List.filter (fun y => negb (Nat.eqb y x)) live) rest
  | _ :: rest => live_after live rest
  end.

(** Every [stop()] among the calls [effs] is on a source that is live when the
    call is made: one that has been started and not been stopped yet. *)
Fixpoint stop_discipline (live : list SourceId) (effs : list Effect) : Prop :=
  match effs with
  | [] => True
  | source_start x _ _ :: rest => stop_discipline (x :: live) rest
  | source_stop x :: rest =>
      In x live /\ stop_discipline (List.filter (fun y => negb (Nat.eqb y x)) live) rest
  | _ :: rest => stop_discipline live rest
  end.

(** The set [sources] of a service in order: no source twice, and each
    created before. *)
Definition sources_ok (s : State) : Prop :=
  List.NoDup (sources s) /\ forall x, In x (sources s) -> (x < created s)%nat.

(** Scenario data: two buffers are scheduled, the first ends, a message with
    audio and the [interrupted] flag arrives, then a further one. *)
Definition barge_in : list Event :=
  [source_ended 0;
   session_onmessage {| inlineData := Some "CCCC"; interrupted := true;
                        inputTranscription := None; outputTranscription := None;
                        toolCall := None |} 1;
   decodeAudioData_settled 3 (fulfilled 1%Q);
   session_onmessage interrupt_message 2].
(* ===================================================================== *)
(** * Properties *)
(* ===================================================================== *)

(** ** Strings *)

Lemma prefix_true_iff (kw s : string) :
  String.prefix kw s = true <-> exists b : string, s = (kw ++ b)%string.
Proof.
  revert s. induction kw as [|c kw IH]; intros s.
  - split; [intros _; exists s; reflexivity | intros _; destruct s; reflexivity].
  - destruct s as [|d s]; simpl.
    + split; [discriminate | intros [b Hb]; discriminate].
    + destruct (ascii_dec c d) as [->|Hne].
      * rewrite IH. split; intros [b Hb]; exists b; congruence.
      * split; [discriminate | intros [b Hb]; congruence].
Qed.

Lemma includes_nil (kw : string) :
  includes EmptyString kw = String.prefix kw EmptyString || false.
Proof. reflexivity. Qed.

Lemma includes_cons (c : ascii) (s kw : string) :
  includes (String c s) kw = String.prefix kw (String c s) || includes s kw.
Proof. reflexivity. Qed.

Lemma includes_true_iff (s kw : string) :
  includes s kw = true <-> is_substring kw s.
Proof.
  unfold is_substring. induction s as [|c s IH].
  - rewrite includes_nil, orb_false_r, prefix_true_iff. split.
    + intros [b Hb]. exists EmptyString, b. exact Hb.
    + intros [a [b Hab]]. destruct a; simpl in Hab; [|discriminate].
      exists b. exact Hab.
  - rewrite includes_cons, orb_true_iff, prefix_true_iff, IH. split.
    + intros [[b Hb]|[a [b Hab]]].
      * exists EmptyString, b. exact Hb.
      * exists (String c a), b. simpl. congruence.
    + intros [a [b Hab]]. destruct a as [|d a]; simpl in Hab.
      * left. exists b. exact Hab.
      * right. exists a, b. congruence.
Qed.

Lemma includes_false_iff (s kw : string) :
  includes s kw = false <-> ~ is_substring kw s.
Proof.
  rewrite <- includes_true_iff. destruct (includes s kw); split; congruence.
Qed.

(** ** The knowledge base *)

Lemma entry_matches_true_iff (lq : string) (e : DatabaseEntry) :
  entry_matches lq e = true <-> has_keyword_in lq e.
Proof.
  unfold entry_matches, has_keyword_in. rewrite existsb_exists.
  split; intros [kw [Hin Hk]]; exists kw; split; auto;
    apply includes_true_iff; exact Hk.
Qed.

Lemma entry_matches_false_iff (lq : string) (e : DatabaseEntry) :
  entry_matches lq e = false <-> ~ has_keyword_in lq e.
Proof.
  rewrite <- entry_matches_true_iff. destruct (entry_matches lq e); split; congruence.
Qed.

Lemma filter_no_match (lq : string) (l : list DatabaseEntry) :
  (forall x, In x l -> ~ has_keyword_in lq x) ->
  List.filter (entry_matches lq) l = [].
Proof.
  induction l as [|a l IH]; intros H; simpl; [reflexivity|].
  assert (Ha : entry_matches lq a = false)
    by (apply entry_matches_false_iff, H; left; reflexivity).
  rewrite Ha. apply IH. intros x Hx. apply H. right. exact Hx.
Qed.

Lemma filter_first_match (lq : string) (l : list DatabaseEntry) :
  match List.filter (entry_matches lq) l with
  | [] => forall x, In x l -> ~ has_keyword_in lq x
  | m0 :: _ =>
      exists before after, l = before ++ m0 :: after /\
        (forall x, In x before -> ~ has_keyword_in lq x) /\ has_keyword_in lq m0
  end.
Proof.
  induction l as [|a l IH]; simpl.
  - intros x [].
  - destruct (entry_matches lq a) eqn:Ha.
    + exists [], l. split; [reflexivity|]. split; [intros x []|].
      apply entry_matches_true_iff. exact Ha.
    + apply entry_matches_false_iff in Ha.
      destruct (List.filter (entry_matches lq) l) as [|m0 ms].
      * intros x [<-|Hx]; auto.
      * destruct IH as [before [after [-> [Hb Hm]]]].
        exists (a :: before), after. split; [reflexivity|]. split; [|exact Hm].
        intros x [<-|Hx]; auto.
Qed.

(** ** The transcript aggregator *)

Lemma Sender_eqb_eq (a b : Sender) : Sender_eqb a b = true <-> a = b.
Proof. destruct a, b; simpl; split; congruence. Qed.

Lemma Sender_eqb_neq (a b : Sender) : Sender_eqb a b = false <-> a <> b.
Proof. destruct a, b; simpl; split; congruence. Qed.

Lemma insert_last_snoc {A} (init : list A) (l y : A) :
  <[ (length (init ++ [l]) - 1)%nat := y ]> (init ++ [l]) = init ++ [y].
Proof.
  rewrite length_app. simpl.
  replace (length init + 1 - 1)%nat with (length init + 0)%nat by lia.
  rewrite insert_app_r. reflexivity.
Qed.

Lemma onTranscript_same (txt : string) (isFinal : bool) (init : list TranscriptEntry)
    (l : TranscriptEntry) :
  onTranscript txt isFinal (sender l) (init ++ [l]) =
  init ++ [ {| sender := sender l; text := text l ++ txt |} ].
Proof.
  unfold onTranscript. rewrite last_snoc.
  assert (H : Sender_eqb (sender l) (sender l) = true) by (apply Sender_eqb_eq; reflexivity).
  rewrite H. apply insert_last_snoc.
Qed.

Lemma onTranscript_other (txt : string) (isFinal : bool) (sndr : Sender)
    (init : list TranscriptEntry) (l : TranscriptEntry) :
  sender l <> sndr ->
  onTranscript txt isFinal sndr (init ++ [l]) =
  (init ++ [l]) ++ [ {| sender := sndr; text := txt |} ].
Proof.
  intros Hne. unfold onTranscript. rewrite last_snoc.
  apply Sender_eqb_neq in Hne. rewrite Hne. reflexivity.
Qed.

(** C6. For every append to the transcript: when the most recent entry has
    the incoming sender, that entry's text becomes its text followed by the
    delta, with nothing between, and the entries before it stay; otherwise
    (another sender, or no entry yet) a new entry with the sender and the delta
    is added at the end. [isFinal] plays no part. From the empty transcript,
    (user, "a") then (user, "b") gives the one entry (user, "ab"), and (user,
    "a") then (agent, "b") gives two entries. *)
Theorem C6_onTranscript_merge :
  (forall txt isFinal init l,
      onTranscript txt isFinal (sender l) (init ++ [l]) =
      init ++ [ {| sender := sender l; text := text l ++ txt |} ]) /\
  (forall txt isFinal sndr init l,
      sender l <> sndr ->
      onTranscript txt isFinal sndr (init ++ [l]) =
      (init ++ [l]) ++ [ {| sender := sndr; text := txt |} ]) /\
  (forall txt isFinal sndr,
      onTranscript txt isFinal sndr [] = [ {| sender := sndr; text := txt |} ]) /\
  (forall f1 f2,
      onTranscript "b" f2 user (onTranscript "a" f1 user []) =
      [ {| sender := user; text := "ab" |} ]) /\
  (forall f1 f2,
      onTranscript "b" f2 agent (onTranscript "a" f1 user []) =
      [ {| sender := user; text := "a" |}; {| sender := agent; text := "b" |} ]).
Proof.
  split; [exact onTranscript_same|].
  split; [exact onTranscript_other|].
  repeat split; reflexivity.
Qed.

Lemma string_app_empty_r (s : string) : (s ++ EmptyString)%string = s.
Proof. induction s as [|c s IH]; simpl; [reflexivity | rewrite IH; reflexivity]. Qed.

Lemma string_app_assoc (a b c : string) :
  ((a ++ b) ++ c)%string = (a ++ (b ++ c))%string.
Proof. induction a as [|x a IH]; simpl; [reflexivity | rewrite IH; reflexivity]. Qed.

Lemma transcript_text_app (a b : list TranscriptEntry) :
  transcript_text (a ++ b) = (transcript_text a ++ transcript_text b)%string.
Proof.
  unfold transcript_text. induction a as [|e a IH]; simpl; [reflexivity|].
  rewrite IH. rewrite string_app_assoc. reflexivity.
Qed.

Lemma last_cases {A} (l : list A) :
  l = [] \/ exists init x, l = init ++ [x].
Proof.
  destruct l as [|a l] using rev_ind; [left; reflexivity | right; eauto].
Qed.

(** C7, as the spec has it, fails: on the empty transcript the append of the
    empty delta for the user with [isFinal = true] adds an entry. *)
Lemma C7_counterexample :
  onTranscript EmptyString true user [] <> [].
Proof. discriminate. Qed.

(** C7, amended. For any [isFinal]: appending the empty delta leaves the
    transcript as it is (same entries, same texts) when the most recent entry
    has the incoming sender; otherwise (another sender, or no entry yet) it adds
    one entry with the empty text after the entries there were, which stay as
    they are. In both cases the text of the whole transcript is unchanged. *)
Theorem C7_onTranscript_empty_delta (isFinal : bool) (sndr : Sender)
    (prev : list TranscriptEntry) :
  (forall l, last prev = Some l -> sender l = sndr ->
     onTranscript EmptyString isFinal sndr prev = prev) /\
  ((last prev = None \/ exists l, last prev = Some l /\ sender l <> sndr) ->
     onTranscript EmptyString isFinal sndr prev =
     prev ++ [ {| sender := sndr; text := EmptyString |} ]) /\
  transcript_text (onTranscript EmptyString isFinal sndr prev) = transcript_text prev.
Proof.
  destruct (last_cases prev) as [->|[init [x ->]]].
  - split; [intros l Hl; discriminate|]. split; [reflexivity|reflexivity].
  - rewrite last_snoc. split; [|split].
    + intros l [= <-] <-. rewrite onTranscript_same, string_app_empty_r.
      destruct x; reflexivity.
    + intros [H|[l [[= <-] Hne]]]; [discriminate|].
      apply onTranscript_other. exact Hne.
    + destruct (Sender_eqb (sender x) sndr) eqn:E.
      * apply Sender_eqb_eq in E. subst sndr.
        rewrite onTranscript_same, string_app_empty_r. destruct x; reflexivity.
      * apply Sender_eqb_neq in E. rewrite onTranscript_other by exact E.
        rewrite transcript_text_app. simpl. apply string_app_empty_r.
Qed.

(** ** The PCM frame encoder *)

Lemma Math_round_scaled_range (s : Q) :
  (-1 <= s)%Q -> (s <= 1)%Q ->
  (-32767 <= Math_round (s * 32767) <= 32767)%Z.
Proof.
  intros Hlo Hhi. unfold Math_round. split.
  - change (-32767)%Z with (Qfloor (-32767 + (1 # 2))).
    apply Qfloor_resp_le. apply Qplus_le_l.
    apply Qle_trans with (-1 * 32767)%Q; [discriminate|].
    apply Qmult_le_compat_r; [exact Hlo | discriminate].
  - change 32767%Z with (Qfloor (32767 + (1 # 2))).
    apply Qfloor_resp_le. apply Qplus_le_l.
    apply Qle_trans with (1 * 32767)%Q; [|discriminate].
    apply Qmult_le_compat_r; [exact Hhi | discriminate].
Qed.

Lemma clamp_int16_id (z : Z) :
  (-32768 <= z <= 32767)%Z -> clamp_int16 z = z.
Proof. unfold clamp_int16. lia. Qed.

Lemma clamp_int16_range (z : Z) : (-32768 <= clamp_int16 z <= 32767)%Z.
Proof. unfold clamp_int16. lia. Qed.

(** C8. For every block of samples in [-1, 1], the encoder gives one output
    sample per input sample, in order; each is the input scaled by 32767,
    rounded and clamped to the signed 16-bit range, which for such inputs is
    the rounded value itself, within -32767..32767. A block of 4096 samples
    all 0.5 encodes to 4096 samples of value round(0.5 * 32767) = 16384. *)
Theorem C8_float32ToPCM16_samples (block : list Q) :
  Forall (fun s => (-1 <= s)%Q /\ (s <= 1)%Q) block ->
  length (float32ToPCM16 block) = length block /\
  Forall2 (fun s z =>
             z = clamp_int16 (Math_round (s * 32767)) /\
             z = Math_round (s * 32767) /\
             (-32768 <= z <= 32767)%Z)
          block (float32ToPCM16 block) /\
  float32ToPCM16 (repeat (1 # 2)%Q 4096) = repeat (Math_round ((1 # 2) * 32767)) 4096 /\
  Math_round ((1 # 2) * 32767) = 16384%Z.
Proof.
  intros Hin. unfold float32ToPCM16. split; [apply length_map|].
  split; [|split; [vm_compute; reflexivity | reflexivity]].
  induction Hin as [|s block [Hlo Hhi] _ IH]; simpl; constructor; [|exact IH].
  pose proof (Math_round_scaled_range s Hlo Hhi) as Hr.
  unfold encode_sample. split; [reflexivity|].
  split; [apply clamp_int16_id; lia | apply clamp_int16_range].
Qed.

Lemma C8_float32ToPCM16_samples_witness :
  Forall (fun s => (-1 <= s)%Q /\ (s <= 1)%Q) [(1 # 2)%Q; (-1)%Q; 1%Q] /\
  Forall2 (fun s z =>
             z = clamp_int16 (Math_round (s * 32767)) /\
             z = Math_round (s * 32767) /\
             (-32768 <= z <= 32767)%Z)
          [(1 # 2)%Q; (-1)%Q; 1%Q] (float32ToPCM16 [(1 # 2)%Q; (-1)%Q; 1%Q]).
Proof.
  assert (H : Forall (fun s => (-1 <= s)%Q /\ (s <= 1)%Q) [(1 # 2)%Q; (-1)%Q; 1%Q]).
  { repeat constructor; discriminate. }
  split; [exact H|].
  exact (proj1 (proj2 (C8_float32ToPCM16_samples _ H))).
Defined.

(** ** The event loop *)

Lemma tool_loop_next_call (t : TaskId) (fcs : list FunctionCall) (s : State) :
  tool_loop t fcs s =
  match next_call fcs with
  | Some (fc, rest) =>
      set_task t (AwaitLookup fc rest)
        (emit (kb_call t fc)
           (emit (onLog log_rag ("Querying Knowledge Base: " ++ dq ++ fc_query fc ++ dq)) s))
  | None => set_task t Finished s
  end.
Proof.
  induction fcs as [|fc rest IH]; simpl; [reflexivity|].
  destruct (String.eqb (fc_name fc) TOOL_NAME); [reflexivity | exact IH].
Qed.

Lemma next_call_name (fcs : list FunctionCall) (fc : FunctionCall) (rest : list FunctionCall) :
  next_call fcs = Some (fc, rest) -> fc_name fc = TOOL_NAME.
Proof.
  induction fcs as [|a l IH]; simpl; [discriminate|].
  destruct (String.eqb (fc_name a) TOOL_NAME) eqn:E; [|exact IH].
  intros [= <- <-]. apply String.eqb_eq. exact E.
Qed.

Lemma step_eq (e : Event) (s : State) :
  step e s =
  (fresh_task (handle e (fresh_task s)),
   out (handle e (fresh_task s)) ++ microtasks (handle e (fresh_task s))).
Proof. reflexivity. Qed.

Lemma run_cons (e : Event) (es : list Event) (s : State) :
  run (e :: es) s =
  (fst (run es (fst (step e s))), snd (step e s) ++ snd (run es (fst (step e s)))).
Proof.
  change (run (e :: es) s)
    with (let (s1, o1) := step e s in let (s2, o2) := run es s1 in (s2, o1 ++ o2)).
  destruct (step e s) as [s1 o1]. cbn [fst snd].
  destruct (run es s1) as [s2 o2]. reflexivity.
Qed.

Lemma run_app (es1 es2 : list Event) (s : State) :
  run (es1 ++ es2) s =
  (fst (run es2 (fst (run es1 s))), snd (run es1 s) ++ snd (run es2 (fst (run es1 s)))).
Proof.
  revert s. induction es1 as [|e es1 IH]; intros s.
  - cbn [app run fst snd]. destruct (run es2 s); reflexivity.
  - rewrite <- app_comm_cons, !run_cons, IH. cbn [fst snd].
    rewrite app_assoc. reflexivity.
Qed.

(** A relation between the calls made so far and the state that every task of
    a kind [E] keeps, is kept by every run of such tasks. *)
Lemma run_invariant (E : Event -> Prop) (K : list Effect -> State -> Prop) :
  (forall e s tr, E e -> K tr s -> K (tr ++ snd (step e s)) (fst (step e s))) ->
  forall es s tr, Forall E es -> K tr s -> K (tr ++ snd (run es s)) (fst (run es s)).
Proof.
  intros Hstep es. induction es as [|e es IH]; intros s tr HE HK.
  - cbn [run fst snd]. rewrite app_nil_r. exact HK.
  - inversion HE as [|? ? He Hes]; subst. rewrite run_cons. cbn [fst snd].
    rewrite app_assoc. apply IH; [exact Hes|]. apply Hstep; assumption.
Qed.
(* ===================================================================== *)
(** ** binary64 rounding *)
(* ===================================================================== *)


Lemma pow2_pos (k : Z) : (0 < pow2 k)%Q.
Proof. apply Qpower.Qpower_0_lt. reflexivity. Qed.

Lemma pow2_add (a b : Z) : (pow2 (a + b) == pow2 a * pow2 b)%Q.
Proof. apply Qpower.Qpower_plus. discriminate. Qed.

Lemma pow2_le (a b : Z) : (a <= b)%Z -> (pow2 a <= pow2 b)%Q.
Proof. intros H. apply Qpower.Qpower_le_compat_l; [exact H | discriminate]. Qed.

Lemma pow2_lt (a b : Z) : (a < b)%Z -> (pow2 a < pow2 b)%Q.
Proof. intros H. apply Qpower.Qpower_lt_compat_l; [exact H | reflexivity]. Qed.

Lemma pow2_Z (k : Z) : (0 <= k)%Z -> (pow2 k == inject_Z (2 ^ k))%Q.
Proof. intros H. symmetry. apply (Qpower.Zpower_Qpower 2 k H). Qed.

Lemma pow2_sub (a b : Z) : (pow2 (a - b) == pow2 a / pow2 b)%Q.
Proof. apply Qpower.Qpower_minus. discriminate. Qed.

(** ** Rounding to an integer *)

Lemma round_even_spec (x : Q) :
  (inject_Z (round_even x) - (1 # 2) <= x <= inject_Z (round_even x) + (1 # 2))%Q /\
  ((x - inject_Z (round_even x) == 1 # 2)%Q \/ (inject_Z (round_even x) - x == 1 # 2)%Q ->
   Z.even (round_even x) = true).
Proof.
  unfold round_even. pose proof (Qfloor_le x) as H1. pose proof (Qlt_floor x) as H2.
  rewrite inject_Z_plus in H2. change (inject_Z 1) with 1%Q in H2.
  destruct (Qcompare (x - inject_Z (Qfloor x)) (1 # 2)) eqn:E.
  - apply Qeq_alt in E. destruct (Z.even (Qfloor x)) eqn:Ev.
    + split; [lra|]. intros _. exact Ev.
    + rewrite inject_Z_plus. change (inject_Z 1) with 1%Q. split; [lra|]. intros _.
      rewrite Z.even_add, Ev. reflexivity.
  - apply Qlt_alt in E. split; [lra|]. intros [H|H]; lra.
  - apply Qgt_alt in E. rewrite inject_Z_plus. change (inject_Z 1) with 1%Q.
    split; [lra|]. intros [H|H]; lra.
Qed.

Lemma inject_Z_lt_1 (a b : Z) : (inject_Z a < inject_Z b + 1)%Q -> (a <= b)%Z.
Proof.
  intros H. change 1%Q with (inject_Z 1) in H. rewrite <- inject_Z_plus in H.
  rewrite <- Zlt_Qlt in H. lia.
Qed.

Lemma round_even_mono (x y : Q) : (x <= y)%Q -> (round_even x <= round_even y)%Z.
Proof.
  intros Hxy. destruct (round_even_spec x) as [[A1 A2] A3].
  destruct (round_even_spec y) as [[B1 B2] B3].
  destruct (Z_le_gt_dec (round_even x) (round_even y)) as [H|H]; [exact H|exfalso].
  assert (Hge : (inject_Z (round_even y) + 1 <= inject_Z (round_even x))%Q).
  { change 1%Q with (inject_Z 1). rewrite <- inject_Z_plus, <- Zle_Qle. lia. }
  assert (Hle : (round_even x <= round_even y + 1)%Z).
  { apply inject_Z_lt_1. rewrite inject_Z_plus. change (inject_Z 1) with 1%Q. lra. }
  assert (E : round_even x = (round_even y + 1)%Z) by lia.
  assert (Ex : Z.even (round_even x) = true).
  { apply A3. right. rewrite E, inject_Z_plus. change (inject_Z 1) with 1%Q.
    rewrite E, inject_Z_plus in A1. change (inject_Z 1) with 1%Q in A1. lra. }
  assert (Ey : Z.even (round_even y) = true).
  { apply B3. left. rewrite E, inject_Z_plus in A1. change (inject_Z 1) with 1%Q in A1. lra. }
  rewrite E, Z.even_add, Ey in Ex. discriminate Ex.
Qed.

Lemma round_even_comp (x y : Q) : (x == y)%Q -> round_even x = round_even y.
Proof.
  intros H. apply Z.le_antisymm; apply round_even_mono; rewrite H; apply Qle_refl.
Qed.

Lemma round_even_Z (n : Z) : round_even (inject_Z n) = n.
Proof.
  unfold round_even. rewrite Qfloor_Z.
  assert (E : Qcompare (inject_Z n - inject_Z n) (1 # 2) = Lt).
  { apply Qlt_alt. unfold Qminus. rewrite Qplus_opp_r. reflexivity. }
  rewrite E. reflexivity.
Qed.

Lemma round_even_unique (x : Q) (m : Z) :
  (inject_Z m - (1 # 2) <= x <= inject_Z m + (1 # 2))%Q ->
  ((x - inject_Z m == 1 # 2)%Q \/ (inject_Z m - x == 1 # 2)%Q -> Z.even m = true) ->
  round_even x = m.
Proof.
  intros [M1 M2] M3. destruct (round_even_spec x) as [[A1 A2] A3].
  assert (H1 : (round_even x <= m + 1)%Z).
  { apply inject_Z_lt_1. rewrite inject_Z_plus. change (inject_Z 1) with 1%Q. lra. }
  assert (H2 : (m <= round_even x + 1)%Z).
  { apply inject_Z_lt_1. rewrite inject_Z_plus. change (inject_Z 1) with 1%Q. lra. }
  destruct (Z.eq_dec (round_even x) m) as [E|Hne]; [exact E|exfalso].
  assert (Hc : round_even x = (m + 1)%Z \/ m = (round_even x + 1)%Z) by lia.
  destruct Hc as [E|E].
  - assert (Ex : Z.even (round_even x) = true).
    { apply A3. right. rewrite E, inject_Z_plus in *. change (inject_Z 1) with 1%Q in *. lra. }
    assert (Em : Z.even m = true).
    { apply M3. left. rewrite E, inject_Z_plus in A1. change (inject_Z 1) with 1%Q in A1. lra. }
    rewrite E, Z.even_add, Em in Ex. discriminate Ex.
  - assert (Ex : Z.even (round_even x) = true).
    { apply A3. left. rewrite E, inject_Z_plus in M1. change (inject_Z 1) with 1%Q in M1. lra. }
    assert (Em : Z.even m = true).
    { apply M3. right. rewrite E, inject_Z_plus in *. change (inject_Z 1) with 1%Q in *. lra. }
    rewrite E, Z.even_add, Ex in Em. discriminate Em.
Qed.

Lemma round_even_opp (x : Q) : round_even (- x) = (- round_even x)%Z.
Proof.
  destruct (round_even_spec x) as [[A1 A2] A3].
  apply round_even_unique.
  - rewrite inject_Z_opp. lra.
  - rewrite inject_Z_opp, Z.even_opp. intros [H|H]; apply A3; [right|left]; lra.
Qed.

(** ** The binary logarithm *)

Lemma frac_lt_div (n : Z) (d : positive) (A B : Z) :
  (0 < B)%Z -> (n * B < A * Zpos d)%Z -> (n # d < inject_Z A / inject_Z B)%Q.
Proof.
  intros HB H. apply Qlt_shift_div_l.
  - change 0%Q with (inject_Z 0). rewrite <- Zlt_Qlt. exact HB.
  - unfold Qlt, Qmult, inject_Z. cbn [Qnum Qden]. rewrite Pos.mul_1_r, Z.mul_1_r. exact H.
Qed.

Lemma div_le_frac (n : Z) (d : positive) (A B : Z) :
  (0 < B)%Z -> (A * Zpos d <= n * B)%Z -> (inject_Z A / inject_Z B <= n # d)%Q.
Proof.
  intros HB H. apply Qle_shift_div_r.
  - change 0%Q with (inject_Z 0). rewrite <- Zlt_Qlt. exact HB.
  - unfold Qle, Qmult, inject_Z. cbn [Qnum Qden]. rewrite Pos.mul_1_r, Z.mul_1_r. exact H.
Qed.

Lemma Qlog2_bounds (n : Z) (d : positive) :
  (0 < n)%Z ->
  let k := (Z.log2 n - Z.log2 (Zpos d))%Z in
  (pow2 (k - 1) <= n # d)%Q /\ (n # d < pow2 (k + 1))%Q.
Proof.
  intros Hn k. subst k.
  pose proof (Z.log2_spec n Hn) as [A1 A2].
  pose proof (Z.log2_spec (Zpos d) (Pos2Z.is_pos d)) as [B1 B2].
  pose proof (Z.log2_nonneg n) as Ha. pose proof (Z.log2_nonneg (Zpos d)) as Hb.
  set (a := Z.log2 n) in *. set (b := Z.log2 (Zpos d)) in *.
  assert (Pa : (0 < 2 ^ a)%Z) by (apply Z.pow_pos_nonneg; lia).
  assert (Pb : (0 < 2 ^ b)%Z) by (apply Z.pow_pos_nonneg; lia).
  rewrite Z.pow_succ_r in A2, B2 by lia.
  split.
  - replace (a - b - 1)%Z with (a - (b + 1))%Z by lia.
    rewrite pow2_sub, (pow2_Z a), (pow2_Z (b + 1)) by lia.
    apply div_le_frac; [apply Z.pow_pos_nonneg; lia|].
    replace (b + 1)%Z with (Z.succ b) by lia. rewrite Z.pow_succ_r by lia. nia.
  - replace (a - b + 1)%Z with ((a + 1) - b)%Z by lia.
    rewrite pow2_sub, (pow2_Z (a + 1)), (pow2_Z b) by lia.
    apply frac_lt_div; [exact Pb|].
    replace (a + 1)%Z with (Z.succ a) by lia. rewrite Z.pow_succ_r by lia. nia.
Qed.

Lemma Qlog2_spec (x : Q) :
  (0 < x)%Q -> (pow2 (Qlog2 x) <= x)%Q /\ (x < pow2 (Qlog2 x + 1))%Q.
Proof.
  intros Hx. destruct x as [n d].
  assert (Hn : (0 < n)%Z).
  { unfold Qlt in Hx. cbn in Hx. lia. }
  destruct (Qlog2_bounds n d Hn) as [H1 H2]. cbn zeta in H1, H2.
  unfold Qlog2. cbn [Qnum Qden].
  destruct (Qle_bool (pow2 (Z.log2 n - Z.log2 (Z.pos d))) (n # d)) eqn:E.
  - apply Qle_bool_iff in E. split; [exact E | exact H2].
  - assert (E' : ~ (pow2 (Z.log2 n - Z.log2 (Z.pos d)) <= n # d)%Q).
    { intros H. apply Qle_bool_iff in H. rewrite H in E. discriminate E. }
    apply Qnot_le_lt in E'. split; [exact H1|].
    replace (Z.log2 n - Z.log2 (Z.pos d) - 1 + 1)%Z with (Z.log2 n - Z.log2 (Z.pos d))%Z by lia.
    exact E'.
Qed.

Lemma Qlog2_unique (x : Q) (L : Z) :
  (pow2 L <= x)%Q -> (x < pow2 (L + 1))%Q -> Qlog2 x = L.
Proof.
  intros H1 H2.
  assert (Hx : (0 < x)%Q) by (pose proof (pow2_pos L); lra).
  destruct (Qlog2_spec x Hx) as [A1 A2].
  destruct (Z.lt_trichotomy (Qlog2 x) L) as [H|[H|H]]; [exfalso|exact H|exfalso].
  - pose proof (pow2_le (Qlog2 x + 1) L ltac:(lia)). lra.
  - pose proof (pow2_le (L + 1) (Qlog2 x) ltac:(lia)). lra.
Qed.

Lemma Qlog2_mono (x y : Q) : (0 < x)%Q -> (x <= y)%Q -> (Qlog2 x <= Qlog2 y)%Z.
Proof.
  intros Hx Hxy. assert (Hy : (0 < y)%Q) by lra.
  destruct (Qlog2_spec x Hx) as [A1 A2]. destruct (Qlog2_spec y Hy) as [B1 B2].
  destruct (Z_le_gt_dec (Qlog2 x) (Qlog2 y)) as [H|H]; [exact H|exfalso].
  pose proof (pow2_le (Qlog2 y + 1) (Qlog2 x) ltac:(lia)). lra.
Qed.

Lemma Qlog2_comp (x y : Q) : (0 < x)%Q -> (x == y)%Q -> Qlog2 x = Qlog2 y.
Proof.
  intros Hx H. apply Z.le_antisymm; apply Qlog2_mono; lra.
Qed.

(** ** Rounding to binary64 *)

Lemma Qmag_pos (x : Q) : (0 <= x)%Q -> Qmag x = x.
Proof. intros H. unfold Qmag. apply Qle_bool_iff in H. rewrite H. reflexivity. Qed.

Lemma Qmag_neg (x : Q) : (x < 0)%Q -> Qmag x = (- x)%Q.
Proof.
  intros H. unfold Qmag. destruct (Qle_bool 0 x) eqn:E; [|reflexivity].
  apply Qle_bool_iff in E. lra.
Qed.

Lemma round64_0 (x : Q) : (x == 0)%Q -> round64 x = 0%Q.
Proof. intros H. unfold round64. apply Qeq_bool_iff in H. rewrite H. reflexivity. Qed.

Lemma round64_neq (x : Q) :
  ~ (x == 0)%Q ->
  round64 x = (inject_Z (round_even (x / pow2 (ulp_exp x))) * pow2 (ulp_exp x))%Q.
Proof.
  intros H. unfold round64. destruct (Qeq_bool x 0) eqn:E; [|reflexivity].
  apply Qeq_bool_iff in E. contradiction.
Qed.

Lemma ulp_exp_pos (x : Q) : (0 < x)%Q -> ulp_exp x = Z.max (-1074) (Qlog2 x - 52).
Proof. intros H. unfold ulp_exp. rewrite Qmag_pos by lra. reflexivity. Qed.

Lemma ulp_exp_opp (x : Q) : ~ (x == 0)%Q -> ulp_exp (- x) = ulp_exp x.
Proof.
  intros H. unfold ulp_exp. f_equal. f_equal.
  destruct (Qlt_le_dec x 0) as [Hx|Hx].
  - rewrite (Qmag_neg x Hx), Qmag_pos by lra. reflexivity.
  - assert (H0 : (0 < x)%Q) by (apply Qle_lt_or_eq in Hx as [Hx|Hx]; [exact Hx|];
                                 exfalso; apply H; symmetry; exact Hx).
    rewrite (Qmag_pos x Hx), Qmag_neg by lra. apply Qlog2_comp; [lra | ring].
Qed.

Lemma ulp_exp_comp (x y : Q) : ~ (x == 0)%Q -> (x == y)%Q -> ulp_exp x = ulp_exp y.
Proof.
  intros H0 H. unfold ulp_exp. f_equal. f_equal.
  destruct (Qlt_le_dec x 0) as [Hx|Hx].
  - rewrite (Qmag_neg x Hx), (Qmag_neg y) by lra. apply Qlog2_comp; lra.
  - assert (Hp : (0 < x)%Q) by (apply Qle_lt_or_eq in Hx as [Hx|Hx]; [exact Hx|];
                                 exfalso; apply H0; symmetry; exact Hx).
    rewrite (Qmag_pos x Hx), (Qmag_pos y) by lra. apply Qlog2_comp; lra.
Qed.

Lemma round64_comp (x y : Q) : (x == y)%Q -> (round64 x == round64 y)%Q.
Proof.
  intros H. destruct (Qeq_dec x 0) as [H0|H0].
  - rewrite (round64_0 x H0), (round64_0 y) by lra. reflexivity.
  - assert (H1 : ~ (y == 0)%Q) by (intros E; apply H0; lra).
    rewrite (round64_neq x H0), (round64_neq y H1), (ulp_exp_comp x y H0 H).
    rewrite (round_even_comp (x / pow2 (ulp_exp y)) (y / pow2 (ulp_exp y))); [reflexivity|].
    rewrite H. reflexivity.
Qed.

Lemma round64_opp (x : Q) : (round64 (- x) == - round64 x)%Q.
Proof.
  destruct (Qeq_dec x 0) as [H0|H0].
  - rewrite (round64_0 x H0), (round64_0 (- x)) by lra. reflexivity.
  - assert (H1 : ~ (- x == 0)%Q) by (intros E; apply H0; lra).
    rewrite (round64_neq x H0), (round64_neq (- x) H1), (ulp_exp_opp x H0).
    rewrite (round_even_comp (- x / pow2 (ulp_exp x)) (- (x / pow2 (ulp_exp x)))).
    + rewrite round_even_opp, inject_Z_opp. ring.
    + pose proof (pow2_pos (ulp_exp x)). field. lra.
Qed.

(** A positive [x] and its rounding, in units of the last place. *)
Lemma round64_pos (x : Q) :
  (0 < x)%Q ->
  let e := ulp_exp x in
  (-1074 <= e)%Z /\
  (round64 x == inject_Z (round_even (x / pow2 e)) * pow2 e)%Q /\
  (0 <= round_even (x / pow2 e) <= 2 ^ 53)%Z /\
  (x < pow2 (e + 53))%Q /\
  (round64 x <= pow2 (e + 53))%Q /\
  ((-1074 < e)%Z -> (pow2 (e + 52) <= x)%Q /\ (pow2 (e + 52) <= round64 x)%Q).
Proof.
  intros Hx e. pose proof (pow2_pos e) as Hp.
  assert (He : e = Z.max (-1074) (Qlog2 x - 52)) by (apply ulp_exp_pos; exact Hx).
  destruct (Qlog2_spec x Hx) as [L1 L2].
  assert (Hr : round64 x = (inject_Z (round_even (x / pow2 e)) * pow2 e)%Q).
  { apply round64_neq. lra. }
  assert (Hlt : (x < pow2 (e + 53))%Q).
  { pose proof (pow2_le (Qlog2 x + 1) (e + 53) ltac:(lia)). lra. }
  assert (Hq : (x / pow2 e < inject_Z (2 ^ 53))%Q).
  { apply Qlt_shift_div_r; [exact Hp|]. rewrite <- pow2_Z by lia.
    rewrite <- pow2_add. replace (53 + e)%Z with (e + 53)%Z by lia. exact Hlt. }
  assert (Hm : (0 <= round_even (x / pow2 e) <= 2 ^ 53)%Z).
  { split.
    - rewrite <- (round_even_Z 0). apply round_even_mono.
      apply Qle_shift_div_l; [exact Hp|]. change (inject_Z 0) with 0%Q. lra.
    - rewrite <- (round_even_Z (2 ^ 53)). apply round_even_mono. lra. }
  split; [lia|]. split; [rewrite Hr; reflexivity|]. split; [exact Hm|].
  split; [exact Hlt|]. split.
  - rewrite Hr, (pow2_add e 53), (pow2_Z 53) by lia.
    assert (H : (inject_Z (round_even (x / pow2 e)) <= inject_Z (2 ^ 53))%Q)
      by (rewrite <- Zle_Qle; lia).
    nra.
  - intros Hn. assert (E : e = (Qlog2 x - 52)%Z) by lia.
    assert (Hge : (pow2 (e + 52) <= x)%Q).
    { replace (e + 52)%Z with (Qlog2 x) by lia. exact L1. }
    split; [exact Hge|].
    assert (Hq2 : (inject_Z (2 ^ 52) <= x / pow2 e)%Q).
    { apply Qle_shift_div_l; [exact Hp|]. rewrite <- pow2_Z by lia.
      rewrite <- pow2_add. replace (52 + e)%Z with (e + 52)%Z by lia. exact Hge. }
    assert (Hm2 : (2 ^ 52 <= round_even (x / pow2 e))%Z).
    { rewrite <- (round_even_Z (2 ^ 52)) at 1. apply round_even_mono. exact Hq2. }
    rewrite Hr, (pow2_add e 52), (pow2_Z 52) by lia.
    assert (H : (inject_Z (2 ^ 52) <= inject_Z (round_even (x / pow2 e)))%Q)
      by (rewrite <- Zle_Qle; lia).
    nra.
Qed.

Lemma round64_nonneg (x : Q) : (0 <= x)%Q -> (0 <= round64 x)%Q.
Proof.
  intros H. apply Qle_lt_or_eq in H as [H|H].
  - destruct (round64_pos x H) as [_ [Hr [[Hm _] _]]]. rewrite Hr.
    pose proof (pow2_pos (ulp_exp x)).
    assert (Hi : (0 <= inject_Z (round_even (x / pow2 (ulp_exp x))))%Q)
      by (change 0%Q with (inject_Z 0); rewrite <- Zle_Qle; exact Hm).
    nra.
  - rewrite round64_0 by lra. apply Qle_refl.
Qed.

Lemma round64_mono_pos (x y : Q) :
  (0 < x)%Q -> (x <= y)%Q -> (round64 x <= round64 y)%Q.
Proof.
  intros Hx Hxy. assert (Hy : (0 < y)%Q) by lra.
  destruct (round64_pos x Hx) as [X1 [X2 [X3 [X4 [X5 X6]]]]].
  destruct (round64_pos y Hy) as [Y1 [Y2 [Y3 [Y4 [Y5 Y6]]]]].
  cbn zeta in *.
  assert (Hle : (ulp_exp x <= ulp_exp y)%Z).
  { rewrite (ulp_exp_pos x Hx), (ulp_exp_pos y Hy).
    pose proof (Qlog2_mono x y Hx Hxy). lia. }
  destruct (Z.eq_dec (ulp_exp x) (ulp_exp y)) as [E|Hne].
  - rewrite X2, Y2, E. pose proof (pow2_pos (ulp_exp y)) as Hp.
    assert (Hm : (round_even (x / pow2 (ulp_exp y)) <= round_even (y / pow2 (ulp_exp y)))%Z).
    { apply round_even_mono. apply Qmult_le_compat_r; [exact Hxy|].
      apply Qlt_le_weak, Qinv_lt_0_compat, Hp. }
    rewrite Zle_Qle in Hm. nra.
  - destruct (Y6 ltac:(lia)) as [_ Y7].
    pose proof (pow2_le (ulp_exp x + 53) (ulp_exp y + 52) ltac:(lia)). lra.
Qed.

Lemma round64_mono (x y : Q) : (x <= y)%Q -> (round64 x <= round64 y)%Q.
Proof.
  intros Hxy. destruct (Qlt_le_dec 0 x) as [Hx|Hx].
  - apply round64_mono_pos; assumption.
  - destruct (Qlt_le_dec y 0) as [Hy|Hy].
    + assert (H : (round64 (- y) <= round64 (- x))%Q) by (apply round64_mono_pos; lra).
      rewrite !round64_opp in H. lra.
    + assert (H1 : (0 <= round64 y)%Q) by (apply round64_nonneg; exact Hy).
      assert (H2 : (0 <= round64 (- x))%Q) by (apply round64_nonneg; lra).
      rewrite round64_opp in H2. lra.
Qed.

(** A number [m * 2^e] with less than 53 bits in [m] and [e] not below the
    least exponent is a binary64 number. *)
Lemma round64_exact (m e : Z) :
  (-1074 <= e)%Z -> (0 < m < 2 ^ 53)%Z ->
  (round64 (inject_Z m * pow2 e) == inject_Z m * pow2 e)%Q.
Proof.
  intros He Hm. pose proof (pow2_pos e) as Hp.
  assert (Hi : (0 < inject_Z m)%Q) by (change 0%Q with (inject_Z 0); rewrite <- Zlt_Qlt; lia).
  assert (Hz : (0 < inject_Z m * pow2 e)%Q) by nra.
  destruct (round64_pos _ Hz) as [Z1 [Z2 _]]. cbn zeta in *. rewrite Z2.
  set (z := (inject_Z m * pow2 e)%Q) in *. set (ez := ulp_exp z) in *.
  assert (Hlt : (z < pow2 (e + 53))%Q).
  { unfold z. rewrite (pow2_add e 53), (pow2_Z 53) by lia.
    assert (H : (inject_Z m < inject_Z (2 ^ 53))%Q) by (rewrite <- Zlt_Qlt; lia). nra. }
  assert (Hez : (ez <= e)%Z).
  { unfold ez. rewrite (ulp_exp_pos z Hz).
    destruct (Qlog2_spec z Hz) as [L1 _].
    destruct (Z_le_gt_dec (Qlog2 z) (e + 52)) as [H|H]; [lia|exfalso].
    pose proof (pow2_le (e + 53) (Qlog2 z) ltac:(lia)). lra. }
  assert (E : (z / pow2 ez == inject_Z (m * 2 ^ (e - ez)))%Q).
  { unfold z. rewrite inject_Z_mult, <- (pow2_Z (e - ez)) by lia. rewrite pow2_sub.
    pose proof (pow2_pos ez). field. lra. }
  rewrite (round_even_comp _ _ E), round_even_Z.
  rewrite inject_Z_mult, <- (pow2_Z (e - ez)) by lia. rewrite pow2_sub.
  unfold z. pose proof (pow2_pos ez). field. lra.
Qed.

Lemma round64_idem (x : Q) : (round64 (round64 x) == round64 x)%Q.
Proof.
  assert (Hpos : forall y, (0 < y)%Q -> (round64 (round64 y) == round64 y)%Q).
  { intros y Hy. destruct (round64_pos y Hy) as [Y1 [Y2 [Y3 _]]]. cbn zeta in *.
    set (m := round_even (y / pow2 (ulp_exp y))) in *. set (e := ulp_exp y) in *.
    rewrite (round64_comp _ _ Y2).
    destruct (Z.eq_dec m 0%Z) as [E0|Hn0].
    - rewrite Y2, E0. rewrite round64_0; [ring|]. change (inject_Z 0) with 0%Q. ring.
    - destruct (Z.eq_dec m (2 ^ 53)%Z) as [E|Hne].
      + assert (Ez : (inject_Z m * pow2 e == inject_Z (2 ^ 52) * pow2 (e + 1))%Q).
        { rewrite E, (pow2_add e 1). change (pow2 1) with 2%Q.
          change (inject_Z (2 ^ 53)) with (inject_Z (2 ^ 52) * 2)%Q. ring. }
        rewrite (round64_comp _ _ Ez), Y2, Ez.
        apply round64_exact; [lia|]. split; reflexivity.
      + rewrite Y2. apply round64_exact; lia. }
  destruct (Qlt_le_dec 0 x) as [Hx|Hx]; [apply Hpos; exact Hx|].
  apply Qle_lt_or_eq in Hx as [Hx|Hx].
  - assert (H : (round64 (round64 (- x)) == round64 (- x))%Q) by (apply Hpos; lra).
    rewrite (round64_comp _ _ (round64_opp x)), !round64_opp in H. lra.
  - rewrite (round64_0 x Hx). reflexivity.
Qed.

(** The error of a rounding is at most half a unit in the last place. *)
Lemma round64_error_pos (x : Q) :
  (0 < x)%Q ->
  (x - round64 x <= x * pow2 (-53) + pow2 (-1075))%Q /\
  (round64 x - x <= x * pow2 (-53) + pow2 (-1075))%Q.
Proof.
  intros Hx. destruct (round64_pos x Hx) as [H1 [H2 [_ [_ [_ H6]]]]]. cbn zeta in *.
  set (e := ulp_exp x) in *. pose proof (pow2_pos e) as Hp.
  destruct (round_even_spec (x / pow2 e)) as [[S1 S2] _].
  set (m := inject_Z (round_even (x / pow2 e))) in *.
  assert (Ex : (x == x / pow2 e * pow2 e)%Q) by (field; lra).
  assert (Hhalf : (pow2 e == 2 * pow2 (e - 1))%Q).
  { rewrite pow2_sub. change (pow2 1) with 2%Q. field. }
  assert (Hb : (pow2 (e - 1) <= x * pow2 (-53) + pow2 (-1075))%Q).
  { pose proof (pow2_pos (-53)) as P53. pose proof (pow2_pos (-1075)) as P1075.
    destruct (Z.eq_dec e (-1074)%Z) as [E|Hne].
    - rewrite E. change (-1074 - 1)%Z with (-1075)%Z. nra.
    - destruct (H6 ltac:(lia)) as [G _].
      assert (E2 : (pow2 (e - 1) == pow2 (e + 52) * pow2 (-53))%Q).
      { rewrite <- pow2_add. replace (e + 52 + -53)%Z with (e - 1)%Z by lia. reflexivity. }
      rewrite E2. nra. }
  set (q := (x / pow2 e)%Q) in *.
  assert (G1 : (0 <= (m + (1 # 2) - q) * pow2 e)%Q) by (apply Qmult_le_0_compat; lra).
  assert (G2 : (0 <= (q - (m - (1 # 2))) * pow2 e)%Q) by (apply Qmult_le_0_compat; lra).
  assert (D1 : (x - round64 x <= pow2 (e - 1))%Q) by (rewrite H2; nra).
  assert (D2 : (round64 x - x <= pow2 (e - 1))%Q) by (rewrite H2; nra).
  split; lra.
Qed.

Lemma round64_error (x : Q) :
  (x - round64 x <= Qmag x * pow2 (-53) + pow2 (-1075))%Q.
Proof.
  pose proof (pow2_pos (-53)) as P53. pose proof (pow2_pos (-1075)) as P1075.
  destruct (Qlt_le_dec 0 x) as [Hx|Hx].
  - rewrite Qmag_pos by lra. apply (round64_error_pos x Hx).
  - apply Qle_lt_or_eq in Hx as [Hx|Hx].
    + rewrite (Qmag_neg x Hx).
      assert (H0 : (0 < - x)%Q) by lra.
      destruct (round64_error_pos (- x) H0) as [_ H]. rewrite round64_opp in H. lra.
    + rewrite (round64_0 x Hx), Qmag_pos by lra. rewrite Hx. lra.
Qed.

(** ** The binary64 numbers *)

Lemma binary64_round64 (x : Q) : binary64 (round64 x).
Proof. apply round64_idem. Qed.

Lemma binary64_fadd (x y : Q) : binary64 (fadd x y).
Proof. apply round64_idem. Qed.

Lemma binary64_0 : binary64 0.
Proof. reflexivity. Qed.

Lemma binary64_comp (x y : Q) : (x == y)%Q -> binary64 x -> binary64 y.
Proof.
  unfold binary64. intros E H. rewrite <- (round64_comp x y E), H. exact E.
Qed.

Lemma binary64_Qmax (x y : Q) : binary64 x -> binary64 y -> binary64 (Qmax x y).
Proof.
  intros Hx Hy. destruct (Q.max_spec x y) as [[_ E]|[_ E]].
  - apply (binary64_comp y); [symmetry; exact E | exact Hy].
  - apply (binary64_comp x); [symmetry; exact E | exact Hx].
Qed.

(** Adding a duration that is not negative does not move a number back. *)
Lemma fadd_ge (x d : Q) : binary64 x -> (0 <= d)%Q -> (x <= fadd x d)%Q.
Proof.
  intros Hx Hd. unfold fadd. unfold binary64 in Hx. rewrite <- Hx at 1.
  apply round64_mono. lra.
Qed.

(** A sum falls short of the exact one by at most a half unit in the last
    place. *)
Lemma fadd_error (x d : Q) :
  (x + d - fadd x d <= Qmag (x + d) * pow2 (-53) + pow2 (-1075))%Q.
Proof. apply round64_error. Qed.
(* ===================================================================== *)
(** ** Characters and bytes *)
(* ===================================================================== *)

Lemma characters_unfold (s : string) :
  characters s =
  match first_char s with
  | None => []
  | Some (ch, rest) => ch :: characters rest
  end.
Proof.
  destruct s as [|b0 s1]; [reflexivity|]. cbn [characters first_char].
  repeat match goal with
         | |- context [match ?x with _ => _ end] => destruct x; cbv beta iota
         end; reflexivity.
Qed.

Lemma first_char_shorter (s rest : string) (ch : Character) :
  first_char s = Some (ch, rest) -> (String.length rest < String.length s)%nat.
Proof.
  destruct s as [|b0 [|b1 [|b2 [|b3 s4]]]]; cbn [first_char];
    repeat match goal with
           | |- context [if ?c then _ else _] => destruct c
           | |- context [match ?x with Some _ => _ | None => _ end] => destruct x
           end; intros [= <- <-] || intros [=]; cbn [String.length]; lia.
Qed.

(** Only a byte from 128 on is read as a character of its own. *)
Lemma first_char_stray (s rest : string) (b : ascii) :
  first_char s = Some (stray b, rest) -> (128 <= N_of_ascii b)%N.
Proof.
  destruct s as [|b0 [|b1 [|b2 [|b3 s4]]]]; cbn [first_char];
    try discriminate;
    destruct (N_of_ascii b0 <? 128)%N eqn:E;
    repeat match goal with
           | |- context [match ?x with Some _ => _ | None => _ end] => destruct x
           end;
    intros H; try discriminate H; inversion H; subst;
    apply N.ltb_ge in E; exact E.
Qed.

Lemma continuation_ascii (c : ascii) : (N_of_ascii c < 128)%N -> continuation c = None.
Proof.
  intros H. unfold continuation. cbv zeta.
  destruct (128 <=? N_of_ascii c)%N eqn:E; [|reflexivity].
  apply N.leb_le in E. lia.
Qed.

(** A character of ASCII ends the character before it: the first character of
    a string is the same when a text that begins with one is appended. *)
Lemma first_char_app (a rest t : string) (ch : Character) (c : ascii) :
  (N_of_ascii c < 128)%N ->
  first_char a = Some (ch, rest) ->
  first_char (a ++ String c t) = Some (ch, (rest ++ String c t)%string).
Proof.
  intros Hc. pose proof (continuation_ascii c Hc) as Hn.
  assert (T2 : forall b0, two_bytes b0 c = None)
    by (intros; unfold two_bytes; rewrite Hn; reflexivity).
  assert (T3a : forall b0 b2, three_bytes b0 c b2 = None)
    by (intros; unfold three_bytes; rewrite Hn; reflexivity).
  assert (T3b : forall b0 b1, three_bytes b0 b1 c = None)
    by (intros; unfold three_bytes; rewrite Hn; destruct (continuation b1); reflexivity).
  assert (T4a : forall b0 b2 b3, four_bytes b0 c b2 b3 = None)
    by (intros; unfold four_bytes; rewrite Hn; reflexivity).
  assert (T4b : forall b0 b1 b3, four_bytes b0 b1 c b3 = None)
    by (intros; unfold four_bytes; rewrite Hn; destruct (continuation b1); reflexivity).
  assert (T4c : forall b0 b1 b2, four_bytes b0 b1 b2 c = None)
    by (intros; unfold four_bytes; rewrite Hn; destruct (continuation b1);
        [destruct (continuation b2)|]; reflexivity).
  destruct a as [|b0 [|b1 [|b2 [|b3 a4]]]]; cbn [first_char String.append];
    try discriminate;
    destruct (N_of_ascii b0 <? 128)%N;
    try (intros [= <- <-]; reflexivity).
  - intros [= <- <-]. rewrite T2. destruct t as [|t0 [|t1 t2]];
      rewrite ?T3a, ?T4a; reflexivity.
  - destruct (two_bytes b0 b1); [intros [= <- <-]; reflexivity|].
    intros [= <- <-]. rewrite T3b. destruct t as [|t0 t1]; rewrite ?T4b; reflexivity.
  - destruct (two_bytes b0 b1); [intros [= <- <-]; reflexivity|].
    destruct (three_bytes b0 b1 b2); [intros [= <- <-]; reflexivity|].
    intros [= <- <-]. rewrite T4c. reflexivity.
  - destruct (two_bytes b0 b1); [intros [= <- <-]; reflexivity|].
    destruct (three_bytes b0 b1 b2); [intros [= <- <-]; reflexivity|].
    destruct (four_bytes b0 b1 b2 b3); intros [= <- <-]; reflexivity.
Qed.

Lemma string_length_induction (P : string -> Prop) :
  (forall s, (forall t, (String.length t < String.length s)%nat -> P t) -> P s) ->
  forall s, P s.
Proof.
  intros H s. remember (String.length s) as n eqn:E. revert s E.
  induction n as [n IH] using lt_wf_ind. intros s ->. apply H.
  intros t Ht. exact (IH _ Ht t eq_refl).
Qed.

Lemma characters_ascii_cons (c : ascii) (t : string) :
  (N_of_ascii c < 128)%N ->
  characters (String c t) = scalar (N_of_ascii c) :: characters t.
Proof.
  intros H. cbn [characters]. apply N.ltb_lt in H. rewrite H. reflexivity.
Qed.

(** The characters of a string before a character of ASCII are those of the
    string up to there. *)
Lemma characters_app_ascii (a t : string) (c : ascii) :
  (N_of_ascii c < 128)%N ->
  characters (a ++ String c t) = characters a ++ characters (String c t).
Proof.
  intros Hc. induction a as [a IH] using string_length_induction.
  rewrite (characters_unfold a).
  destruct (first_char a) as [[ch rest]|] eqn:E.
  - rewrite (characters_unfold (a ++ String c t)), (first_char_app a rest t ch c Hc E).
    cbn [app]. f_equal. apply IH. apply (first_char_shorter a rest ch E).
  - destruct a as [|b0 a1]; [reflexivity|]. exfalso. revert E.
    destruct a1 as [|b1 [|b2 [|b3 a4]]]; cbn [first_char];
      repeat match goal with
             | |- context [if ?c then _ else _] => destruct c
             | |- context [match ?x with Some _ => _ | None => _ end] => destruct x
             end; discriminate.
Qed.

(** Every byte that is read as a character of its own is from 128 on. *)
Lemma characters_well_read (s : string) : Forall well_read (characters s).
Proof.
  induction s as [s IH] using string_length_induction.
  rewrite characters_unfold. destruct (first_char s) as [[ch rest]|] eqn:E; [|constructor].
  constructor; [|apply IH; apply (first_char_shorter s rest ch E)].
  destruct ch as [c|b]; [exact I|]. apply (first_char_stray s rest b E).
Qed.

(** ** [toLowerCase] leaves no capital letter of ASCII *)

Lemma has_upper_app (a b : string) :
  has_upper (a ++ b)%string = has_upper a || has_upper b.
Proof.
  induction a as [|c a IH]; [reflexivity|].
  change (String c a ++ b)%string with (String c (a ++ b)%string).
  cbn [has_upper]. rewrite IH, orb_assoc. reflexivity.
Qed.

Lemma is_upper_high (b : ascii) : (128 <= N_of_ascii b)%N -> is_upper b = false.
Proof.
  destruct b as [[] [] [] [] [] [] [] []]; intros H; try reflexivity;
    exfalso; apply (proj1 (N.le_ngt _ _) H); reflexivity.
Qed.

Lemma is_upper_ascii_of_N (n : N) :
  (n < 256)%N -> is_upper (ascii_of_N n) = (0x41 <=? n)%N && (n <=? 0x5A)%N.
Proof.
  intros H. unfold is_upper. cbv zeta. unfold nat_of_ascii.
  rewrite (N_ascii_embedding n H).
  destruct (0x41 <=? n)%N eqn:E1; destruct (n <=? 0x5A)%N eqn:E2;
    destruct (65 <=? N.to_nat n)%nat eqn:E3; destruct (N.to_nat n <=? 90)%nat eqn:E4;
    try reflexivity; exfalso;
    rewrite ?N.leb_le, ?N.leb_gt, ?Nat.leb_le, ?Nat.leb_gt in *; lia.
Qed.

Lemma high_byte (k x m : N) :
  (m <> 0)%N -> (128 <= k)%N -> (k + m <= 256)%N ->
  is_upper (ascii_of_N (k + x mod m)) = false.
Proof.
  intros Hm Hk Hkm. pose proof (N.mod_upper_bound x m Hm) as Hlt.
  set (r := (x mod m)%N) in *. clearbody r.
  rewrite is_upper_ascii_of_N by lia.
  destruct (k + r <=? 0x5A)%N eqn:E; [|apply andb_false_r].
  apply N.leb_le in E. lia.
Qed.

Lemma utf8_no_upper (c : N) : (c < 0x41 \/ 0x5A < c)%N -> has_upper (utf8 c) = false.
Proof.
  intros H. unfold utf8.
  destruct (c <? 0x80)%N eqn:E1.
  - apply N.ltb_lt in E1. cbn [has_upper]. rewrite is_upper_ascii_of_N by lia.
    rewrite orb_false_r.
    destruct (0x41 <=? c)%N eqn:A; [|reflexivity].
    destruct (c <=? 0x5A)%N eqn:B; [|reflexivity].
    apply N.leb_le in A, B. lia.
  - destruct (c <? 0x800)%N; [|destruct (c <? 0x10000)%N]; cbn [has_upper];
      rewrite ?high_byte by (discriminate || lia); reflexivity.
Qed.

Lemma mapping_target (table : list (N * N * N * N)) (c l : N) :
  forallb (fun r => (0x5A <? snd r)%N) table = true ->
  mapping table c = Some l -> (0x5A < l)%N.
Proof.
  induction table as [|[[[first last] step] target] table IH]; [discriminate|].
  cbn [forallb mapping snd]. intros H. apply andb_true_iff in H as [H1 H2].
  destruct ((first <=? c)%N && (c <=? last)%N && ((c - first) mod step =? 0)%N).
  - intros [= <-]. apply N.ltb_lt in H1. lia.
  - apply IH. exact H2.
Qed.

Lemma Lowercase_Mapping_head :
  Lowercase_Mapping = (0x41, 0x5A, 1, 0x61)%N :: tl Lowercase_Mapping.
Proof. reflexivity. Qed.

Lemma mapping_capital (c : N) :
  (0x41 <= c)%N -> (c <= 0x5A)%N ->
  mapping Lowercase_Mapping c = Some (0x61 + (c - 0x41))%N.
Proof.
  intros H1 H2. rewrite Lowercase_Mapping_head. cbn [mapping].
  apply N.leb_le in H1, H2. rewrite H1, H2, N.mod_1_r. reflexivity.
Qed.

Lemma mapping_no_capital (c l : N) :
  mapping Lowercase_Mapping c = Some l -> (0x5A < l)%N.
Proof. apply mapping_target. vm_compute. reflexivity. Qed.

Lemma lower_char_no_upper (after_cased : bool) (ch : Character) (rest : list Character) :
  well_read ch -> has_upper (lower_char after_cased ch rest) = false.
Proof.
  destruct ch as [c|b]; cbn [well_read lower_char].
  - intros _. destruct (c =? 0x130)%N; [vm_compute; reflexivity|].
    destruct (c =? 0x3A3)%N.
    { destruct (after_cased && negb (before_cased rest)); vm_compute; reflexivity. }
    destruct (mapping Lowercase_Mapping c) as [l|] eqn:E.
    + apply utf8_no_upper. right. exact (mapping_no_capital c l E).
    + apply utf8_no_upper.
      destruct (N.lt_ge_cases c 0x41) as [H|H1]; [left; exact H|].
      destruct (N.lt_ge_cases 0x5A c) as [H|H2]; [right; exact H|].
      rewrite (mapping_capital c H1 H2) in E. discriminate.
  - intros H. cbn [has_upper]. rewrite (is_upper_high b H). reflexivity.
Qed.

Lemma lower_chars_no_upper_gen (l : list Character) (after_cased : bool) :
  Forall well_read l -> has_upper (lower_chars after_cased l) = false.
Proof.
  intros H. revert after_cased. induction H as [|ch rest Hch _ IH]; intros after_cased.
  - reflexivity.
  - cbn [lower_chars]. rewrite has_upper_app, (lower_char_no_upper _ _ _ Hch), IH.
    reflexivity.
Qed.

Lemma toLowerCase_no_upper (s : string) : has_upper (toLowerCase s) = false.
Proof. apply lower_chars_no_upper_gen, characters_well_read. Qed.

(** ** Texts of ASCII *)

(** On a character of ASCII [toLowerCase] is the table of the letters. *)
Lemma lower_char_ascii (after_cased : bool) (b : ascii) (rest : list Character) :
  (N_of_ascii b < 128)%N ->
  lower_char after_cased (scalar (N_of_ascii b)) rest =
  String (partner CAPITAL_LETTERS SMALL_LETTERS b) EmptyString.
Proof.
  destruct b as [[] [] [] [] [] [] [] []]; intros H;
    try (exfalso; apply (proj1 (N.lt_nge _ _) H); discriminate);
    vm_compute; reflexivity.
Qed.

Lemma ascii_text_cons (c : ascii) (s : string) :
  ascii_text (String c s) = true <-> (N_of_ascii c < 128)%N /\ ascii_text s = true.
Proof. cbn [ascii_text]. rewrite andb_true_iff, N.ltb_lt. reflexivity. Qed.

Lemma ascii_text_app (a b : string) :
  ascii_text (a ++ b) = ascii_text a && ascii_text b.
Proof.
  induction a as [|c a IH]; [reflexivity|].
  change (String c a ++ b)%string with (String c (a ++ b)%string).
  cbn [ascii_text]. rewrite IH, andb_assoc. reflexivity.
Qed.

(** Through a text of ASCII [toLowerCase] goes letter by letter, whatever comes
    before and after. *)
Lemma lower_chars_ascii (v t : string) (after_cased : bool) :
  ascii_text v = true ->
  exists after_cased',
    lower_chars after_cased (characters (v ++ t)) =
    (lower_letters v ++ lower_chars after_cased' (characters t))%string.
Proof.
  revert after_cased. induction v as [|c v IH]; intros after_cased H.
  - exists after_cased. reflexivity.
  - apply ascii_text_cons in H as [Hc Hv].
    change (String c v ++ t)%string with (String c (v ++ t)%string).
    rewrite (characters_ascii_cons c _ Hc). cbn [lower_chars lower_letters].
    rewrite (lower_char_ascii _ c _ Hc).
    destruct (IH (if case_ignorable (scalar (N_of_ascii c)) then after_cased
                  else cased (scalar (N_of_ascii c))) Hv) as [st' E].
    exists st'. rewrite E. reflexivity.
Qed.

Lemma toLowerCase_ascii (s : string) :
  ascii_text s = true -> toLowerCase s = lower_letters s.
Proof.
  intros H. destruct (lower_chars_ascii s EmptyString false H) as [st E].
  unfold toLowerCase. rewrite string_app_empty_r in E. rewrite E.
  cbn [characters lower_chars]. apply string_app_empty_r.
Qed.

Lemma lower_chars_app (l1 l2 : list Character) (after_cased : bool) :
  exists x after_cased',
    lower_chars after_cased (l1 ++ l2) = (x ++ lower_chars after_cased' l2)%string.
Proof.
  revert after_cased. induction l1 as [|ch l1 IH]; intros after_cased.
  - exists EmptyString, after_cased. reflexivity.
  - cbn [app lower_chars].
    destruct (IH (if case_ignorable ch then after_cased else cased ch)) as [x [st E]].
    exists (lower_char after_cased ch (l1 ++ l2) ++ x)%string, st.
    rewrite E, string_app_assoc. reflexivity.
Qed.

(** A text of ASCII within a string is lowercased letter by letter. *)
Lemma toLowerCase_within (a v b : string) :
  ascii_text v = true ->
  is_substring (lower_letters v) (toLowerCase (a ++ v ++ b)).
Proof.
  intros Hv. unfold toLowerCase. destruct v as [|c v].
  - exists EmptyString, (lower_chars false (characters (a ++ b))). reflexivity.
  - apply ascii_text_cons in Hv as Hcv. destruct Hcv as [Hc _].
    change (String c v ++ b)%string with (String c (v ++ b)%string).
    rewrite (characters_app_ascii a (v ++ b) c Hc).
    destruct (lower_chars_app (characters a) (characters (String c (v ++ b))) false)
      as [x [st E]].
    change (String c (v ++ b)%string) with (String c v ++ b)%string in E.
    destruct (lower_chars_ascii (String c v) b st Hv) as [st' E'].
    exists x, (lower_chars st' (characters b)).
    change (String c (v ++ b)%string) with (String c v ++ b)%string.
    rewrite E, E'. reflexivity.
Qed.

(** ** [trim] around a keyword of ASCII *)

Lemma white_space_ascii (b : ascii) :
  (N_of_ascii b < 128)%N -> white_space (scalar (N_of_ascii b)) = blank b.
Proof.
  destruct b as [[] [] [] [] [] [] [] []]; intros H;
    try (exfalso; apply (proj1 (N.lt_nge _ _) H); discriminate);
    vm_compute; reflexivity.
Qed.

Lemma blank_ascii (b : ascii) : blank b = true -> (N_of_ascii b < 128)%N.
Proof. destruct b as [[] [] [] [] [] [] [] []]; intros H; try discriminate H; reflexivity. Qed.

Lemma partner_blank (b : ascii) :
  blank (partner CAPITAL_LETTERS SMALL_LETTERS b) = blank b.
Proof. destruct b as [[] [] [] [] [] [] [] []]; vm_compute; reflexivity. Qed.

Lemma partner_of_blank (b : ascii) :
  blank b = true -> partner CAPITAL_LETTERS SMALL_LETTERS b = b.
Proof. destruct b as [[] [] [] [] [] [] [] []]; intros H; try discriminate H; reflexivity. Qed.

Lemma partner_ascii (b : ascii) :
  (N_of_ascii (partner CAPITAL_LETTERS SMALL_LETTERS b) <? 128)%N = (N_of_ascii b <? 128)%N.
Proof. destruct b as [[] [] [] [] [] [] [] []]; vm_compute; reflexivity. Qed.

Lemma utf8_ascii (b : ascii) :
  (N_of_ascii b < 128)%N -> utf8 (N_of_ascii b) = String b EmptyString.
Proof.
  intros H. unfold utf8. apply N.ltb_lt in H. rewrite H, ascii_N_embedding. reflexivity.
Qed.

Lemma string_of_characters_ascii (s : string) :
  ascii_text s = true -> string_of (characters s) = s.
Proof.
  induction s as [|c s IH]; intros H; [reflexivity|].
  apply ascii_text_cons in H as [Hc Hs].
  rewrite (characters_ascii_cons c s Hc). cbn [string_of utf8_of].
  rewrite (utf8_ascii c Hc), (IH Hs). reflexivity.
Qed.

Lemma blanks_cons (c : ascii) (s : string) :
  blanks (String c s) = true <-> blank c = true /\ blanks s = true.
Proof. cbn [blanks]. apply andb_true_iff. Qed.

Lemma blanks_ascii (pad : string) : blanks pad = true -> ascii_text pad = true.
Proof.
  induction pad as [|c pad IH]; intros H; [reflexivity|].
  apply blanks_cons in H as [Hc Hp]. apply ascii_text_cons.
  split; [apply blank_ascii; exact Hc | apply IH; exact Hp].
Qed.

Lemma trimStart_blanks (pad t : string) :
  blanks pad = true ->
  trimStart (characters (pad ++ t)) = trimStart (characters t).
Proof.
  induction pad as [|c pad IH]; intros H; [reflexivity|].
  apply blanks_cons in H as [Hc Hp]. pose proof (blank_ascii c Hc) as Ha.
  change (String c pad ++ t)%string with (String c (pad ++ t)%string).
  rewrite (characters_ascii_cons c _ Ha). cbn [trimStart].
  rewrite (white_space_ascii c Ha), Hc. apply IH. exact Hp.
Qed.

Lemma trimEnd_blanks (pad : string) :
  blanks pad = true -> trimEnd (characters pad) = [].
Proof.
  induction pad as [|c pad IH]; intros H; [reflexivity|].
  apply blanks_cons in H as [Hc Hp]. pose proof (blank_ascii c Hc) as Ha.
  rewrite (characters_ascii_cons c _ Ha). cbn [trimEnd].
  rewrite (IH Hp), (white_space_ascii c Ha), Hc. reflexivity.
Qed.

Lemma trimEnd_keyword (c : ascii) (w pad : string) :
  ascii_text (String c w) = true ->
  blank (last_char c w) = false ->
  blanks pad = true ->
  trimEnd (characters (String c w ++ pad)) = characters (String c w).
Proof.
  revert c. induction w as [|c' w IH]; intros c Ha Hl Hp.
  - apply ascii_text_cons in Ha as [Hc _].
    change (String c EmptyString ++ pad)%string with (String c pad).
    rewrite !(characters_ascii_cons c _ Hc). cbn [trimEnd characters].
    cbn [last_char] in Hl.
    rewrite (trimEnd_blanks pad Hp), (white_space_ascii c Hc), Hl. reflexivity.
  - apply ascii_text_cons in Ha as [Hc Hw]. cbn [last_char] in Hl.
    change (String c (String c' w) ++ pad)%string
      with (String c (String c' w ++ pad)%string).
    rewrite !(characters_ascii_cons c _ Hc). cbn [trimEnd].
    rewrite (IH c' Hw Hl Hp).
    apply ascii_text_cons in Hw as [Hc' _].
    rewrite (characters_ascii_cons c' w Hc'). reflexivity.
Qed.

(** [trim] takes the blanks off a keyword and leaves the keyword. *)
Lemma trim_padded (pad1 w pad2 : string) :
  blanks pad1 = true -> plain_keyword w = true -> blanks pad2 = true ->
  trim (pad1 ++ w ++ pad2) = w.
Proof.
  intros H1 Hw H2. destruct w as [|c w]; [discriminate|].
  cbn [plain_keyword] in Hw. apply andb_true_iff in Hw as [Hw Hl].
  apply andb_true_iff in Hw as [Ha Hf]. apply negb_true_iff in Hl, Hf.
  unfold trim. rewrite (trimStart_blanks pad1 _ H1).
  apply ascii_text_cons in Ha as Hc. destruct Hc as [Hc _].
  change (String c w ++ pad2)%string with (String c (w ++ pad2)%string).
  rewrite (characters_ascii_cons c _ Hc). cbn [trimStart].
  rewrite (white_space_ascii c Hc), Hf.
  rewrite <- (characters_ascii_cons c _ Hc).
  change (String c (w ++ pad2)%string) with (String c w ++ pad2)%string.
  rewrite (trimEnd_keyword c w pad2 Ha Hl H2).
  apply string_of_characters_ascii. exact Ha.
Qed.

Lemma lower_letters_app (a b : string) :
  lower_letters (a ++ b) = (lower_letters a ++ lower_letters b)%string.
Proof.
  induction a as [|c a IH]; [reflexivity|].
  change (String c a ++ b)%string with (String c (a ++ b)%string).
  cbn [lower_letters]. rewrite IH. reflexivity.
Qed.

Lemma lower_letters_blanks (pad : string) : blanks pad = true -> lower_letters pad = pad.
Proof.
  induction pad as [|c pad IH]; intros H; [reflexivity|].
  apply blanks_cons in H as [Hc Hp]. cbn [lower_letters].
  rewrite (partner_of_blank c Hc), (IH Hp). reflexivity.
Qed.

Lemma lower_letters_ascii (s : string) : ascii_text (lower_letters s) = ascii_text s.
Proof.
  induction s as [|c s IH]; [reflexivity|]. cbn [lower_letters ascii_text].
  rewrite partner_ascii, IH. reflexivity.
Qed.

Lemma last_char_lower (c : ascii) (s : string) :
  last_char (partner CAPITAL_LETTERS SMALL_LETTERS c) (lower_letters s) =
  partner CAPITAL_LETTERS SMALL_LETTERS (last_char c s).
Proof. revert c. induction s as [|c' s IH]; intros c; [reflexivity | apply IH]. Qed.

Lemma plain_keyword_lower (w : string) :
  plain_keyword w = true -> plain_keyword (lower_letters w) = true.
Proof.
  destruct w as [|c w]; [discriminate|]. cbn [plain_keyword lower_letters].
  change (String (partner CAPITAL_LETTERS SMALL_LETTERS c) (lower_letters w))
    with (lower_letters (String c w)).
  rewrite lower_letters_ascii, last_char_lower, !partner_blank. intros H; exact H.
Qed.

(** What [addDatabaseEntry] stores for a keyword of ASCII that was typed with
    blanks around it: the keyword with its letters made small. *)
Lemma stored_keyword (pad1 w pad2 : string) :
  blanks pad1 = true -> plain_keyword w = true -> blanks pad2 = true ->
  trim (toLowerCase (pad1 ++ w ++ pad2)) = lower_letters w.
Proof.
  intros H1 Hw H2.
  assert (Ha : ascii_text w = true).
  { destruct w as [|c w]; [discriminate|]. cbn [plain_keyword] in Hw.
    apply andb_true_iff in Hw as [Hw _]. apply andb_true_iff in Hw as [Hw _]. exact Hw. }
  rewrite toLowerCase_ascii
    by (rewrite !ascii_text_app, (blanks_ascii _ H1), (blanks_ascii _ H2), Ha; reflexivity).
  rewrite !lower_letters_app, (lower_letters_blanks _ H1), (lower_letters_blanks _ H2).
  apply trim_padded; [exact H1 | apply plain_keyword_lower; exact Hw | exact H2].
Qed.
(* ===================================================================== *)
(** ** The search *)
(* ===================================================================== *)

(** C9. For every database and every query string, [searchKnowledgeBase]
    returns a string [r] exactly when [r] is: the content of the first entry in
    database order that has a keyword occurring in the lowercased query; with
    no such entry the policy index when ["policy"] occurs in the lowercased
    query, and the not-found sentence otherwise. The function is total, so
    the search always resolves to one of these strings. The lowercased query
    is the query as [toLowerCase] gives it: a query of ASCII with each capital
    letter replaced by its small letter, and in every query each text of ASCII
    so replaced where it stands. *)
Theorem C9_searchKnowledgeBase_first_match (db : list DatabaseEntry) (query r : string) :
  (search_result db (toLowerCase query) r <-> r = searchKnowledgeBase db query) /\
  (ascii_text query = true -> toLowerCase query = lower_letters query) /\
  (forall a v b : string,
      query = (a ++ v ++ b)%string -> ascii_text v = true ->
      is_substring (lower_letters v) (toLowerCase query)).
Proof.
  split; [|split].
  - unfold searchKnowledgeBase. cbv zeta. generalize (toLowerCase query) as lq. intros lq.
    split.
    + intros H. destruct H as [before e after Hdb Hb He | Hno Hp | Hno Hp].
      * subst db. rewrite List.filter_app, (filter_no_match _ _ Hb). simpl.
        apply entry_matches_true_iff in He. rewrite He. reflexivity.
      * rewrite (filter_no_match _ _ Hno).
        apply includes_true_iff in Hp. rewrite Hp. reflexivity.
      * rewrite (filter_no_match _ _ Hno).
        apply includes_false_iff in Hp. rewrite Hp. reflexivity.
    + intros ->. pose proof (filter_first_match lq db) as H.
      destruct (List.filter (entry_matches lq) db) as [|m0 ms].
      * destruct (includes lq "policy") eqn:Hp.
        -- apply policy_index; [exact H | apply includes_true_iff; exact Hp].
        -- apply not_found; [exact H | apply includes_false_iff; exact Hp].
      * destruct H as [before [after [Hdb [Hb Hm]]]].
        eapply first_match; eauto.
  - apply toLowerCase_ascii.
  - intros a v b -> Hv. apply toLowerCase_within. exact Hv.
Qed.

(** The query ["Is the WiFi down?"]: its lowercased form, and the answer. *)
Lemma C9_searchKnowledgeBase_first_match_witness :
  ascii_text "Is the WiFi down?" = true /\
  toLowerCase "Is the WiFi down?" = "is the wifi down?" /\
  is_substring "wifi" (toLowerCase "Is the WiFi down?") /\
  search_result INITIAL_DATA (toLowerCase "Is the WiFi down?")
    (searchKnowledgeBase INITIAL_DATA "Is the WiFi down?").
Proof.
  assert (Ha : ascii_text "Is the WiFi down?" = true) by reflexivity.
  pose proof (C9_searchKnowledgeBase_first_match INITIAL_DATA "Is the WiFi down?"
                (searchKnowledgeBase INITIAL_DATA "Is the WiFi down?")) as [H1 [H2 H3]].
  split; [exact Ha|]. split; [exact (H2 Ha)|]. split.
  - exact (H3 "Is the " "WiFi" " down?" eq_refl eq_refl).
  - apply H1. reflexivity.
Defined.

(** The scenario of the spec on the initial data: the query ["return policy"]
    is answered by the refund policy, the first entry. *)
Example search_return_policy :
  searchKnowledgeBase INITIAL_DATA "return policy" =
  "POLICY_REFUND_V4: Items can be returned within 30 days of receipt. Items must be unworn with tags. Electronics have a 15% restocking fee unless defective. Processing time: 3-5 business days.".
Proof. reflexivity. Qed.

(** The first match wins over a later one with a longer content: ["my order
    12345"] matches [ord-1] by its number and [ord-3] by ["my order"]; [ord-1]
    comes first and is returned, [ord-3] has the longer content. *)
Example search_first_not_longest :
  searchKnowledgeBase INITIAL_DATA "Where is my order 12345" =
  "CRM_ORDER_LOOKUP: Order #12345 for John Doe. Status: SHIPPED. Carrier: Fedex. Tracking: FX8842994. Est Delivery: Tomorrow." /\
  map id (List.filter (entry_matches "where is my order 12345") INITIAL_DATA) = ["ord-1"; "ord-3"] /\
  map (fun e => String.length (content e))
      (List.filter (entry_matches "where is my order 12345") INITIAL_DATA) = [122%nat; 127%nat].
Proof. repeat split; reflexivity. Qed.


(** Beyond ASCII: the Kelvin sign (U+212A) is lowercased to [k], so the query
    [BAC] with a Kelvin sign is answered as ["back"] is; the capital E with an
    acute accent (U+00C9) becomes the small one (U+00E9); the capital sigma
    (U+03A3) becomes the final sigma (U+03C2) at the end of a word and the
    small sigma (U+03C3) within it. *)
Example search_kelvin_sign :
  toLowerCase ("BAC" ++ utf8 0x212A) = "back" /\
  searchKnowledgeBase INITIAL_DATA ("BAC" ++ utf8 0x212A) =
  searchKnowledgeBase INITIAL_DATA "back" /\
  searchKnowledgeBase INITIAL_DATA "back" <> NOT_FOUND.
Proof. split; [|split]; [vm_compute; reflexivity | vm_compute; reflexivity | discriminate]. Qed.

Example toLowerCase_beyond_ascii :
  toLowerCase (utf8 0xC9) = utf8 0xE9 /\
  toLowerCase (utf8 0x39F ++ utf8 0x394 ++ utf8 0x39F ++ utf8 0x3A3) =
    (utf8 0x3BF ++ utf8 0x3B4 ++ utf8 0x3BF ++ utf8 0x3C2)%string /\
  toLowerCase (utf8 0x3A3 ++ utf8 0x39F ++ utf8 0x3A3) =
    (utf8 0x3C3 ++ utf8 0x3BF ++ utf8 0x3C2)%string /\
  toLowerCase (utf8 0x130) = ("i" ++ utf8 0x307)%string.
Proof. repeat split; vm_compute; reflexivity. Qed.

(** [trim] takes off the white space of Unicode: here a no-break space
    (U+00A0) before and an ideographic space (U+3000) after the text. *)
Example trim_beyond_ascii :
  trim (utf8 0xA0 ++ " refund" ++ utf8 0x3000 ++ utf8 0xFEFF) = "refund".
Proof. vm_compute. reflexivity. Qed.

(** ** Which calls a run can make *)

Lemma truthy_nonempty (txt : string) : truthy txt = true -> txt <> EmptyString.
Proof. destruct txt; discriminate. Qed.

Section Allowed.
Variable okmsg : LiveServerMessage -> Prop.
Variable okfc : FunctionCall -> Prop.
Variable oks : Session -> Prop.
Hypothesis okfc_tool : forall fc, fc_name fc = TOOL_NAME -> okfc fc.

Let Inv (s : State) : Prop := state_ok okmsg okfc oks s /\ calls_ok okfc oks s.

Lemma Inv_emit (e : Effect) (s : State) :
  allowed okfc oks e -> Inv s -> Inv (emit e s).
Proof.
  intros He [Hs [Ho Hm]]. split; [exact Hs|]. split; [|exact Hm].
  cbn. apply Forall_app. split; [exact Ho | constructor; [exact He | constructor]].
Qed.

Lemma Inv_set_task (t : TaskId) (st : Task) (s : State) :
  (forall fc rest, st = AwaitLookup fc rest -> okfc fc) ->
  (forall m, st = AwaitDecode m -> okmsg m) ->
  Inv s -> Inv (set_task t st s).
Proof.
  intros Hst Hst' [[Ht [Hd [Hp Hsp]]] Hc]. split; [|exact Hc].
  split; [|split; [|split; [exact Hp | exact Hsp]]]; cbn.
  - intros t' fc rest Hl.
    apply list_lookup_insert_Some in Hl as [[_ [Heq _]]|[_ Hl]]; eauto.
  - intros t' m Hl.
    apply list_lookup_insert_Some in Hl as [[_ [Heq _]]|[_ Hl]]; eauto.
Qed.

Lemma Inv_push_task (st : Task) (s : State) :
  (forall fc rest, st = AwaitLookup fc rest -> okfc fc) ->
  (forall m, st = AwaitDecode m -> okmsg m) ->
  Inv s -> Inv (set_tasks (tasks s ++ [st]) s).
Proof.
  intros Hst Hst' [[Ht [Hd [Hp Hsp]]] Hc]. split; [|exact Hc].
  split; [|split; [|split; [exact Hp | exact Hsp]]]; cbn.
  - intros t' fc rest Hl.
    apply lookup_app_Some in Hl as [Hl|[_ Hl]]; [eauto|].
    apply list_lookup_singleton_Some in Hl as [_ Heq]. eauto.
  - intros t' m Hl.
    apply lookup_app_Some in Hl as [Hl|[_ Hl]]; [eauto|].
    apply list_lookup_singleton_Some in Hl as [_ Heq]. eauto.
Qed.

Lemma Inv_then (p : PromiseId) (cb : Callback) (s : State) :
  callback_ok okfc cb ->
  (forall session, promises s !! p = Some (Resolved session) -> oks session) ->
  Inv s -> Inv (then_ p cb s).
Proof.
  intros Hcb Hses [[Ht [Hd [Hp Hsp]]] [Ho Hm]]. unfold then_.
  destruct (promises s !! p) as [[cbs|session]|] eqn:E.
  - split; [|split; assumption].
    split; [exact Ht|]. split; [exact Hd|]. split; cbn.
    + intros q cbs' Hl.
      apply list_lookup_insert_Some in Hl as [[_ [Heq _]]|[_ Hl]]; [|eauto].
      injection Heq as <-. apply Forall_app. split; [eauto|].
      constructor; [exact Hcb | constructor].
    + intros q session Hq Hl.
      apply list_lookup_insert_Some in Hl as [[_ [Heq _]]|[_ Hl]]; [discriminate|eauto].
  - split; [repeat split; assumption|]. split; [exact Ho|]. cbn.
    apply Forall_app. split; [exact Hm|]. constructor; [|constructor].
    destruct cb; cbn; [exact I|]. split; [exact Hcb | eauto].
  - split; [repeat split; assumption | split; assumption].
Qed.

Lemma Inv_resolve (p : PromiseId) (session : Session) (s : State) :
  oks session -> Inv s -> Inv (resolve p session s).
Proof.
  intros Hses [[Ht [Hd [Hp Hsp]]] [Ho Hm]]. unfold resolve.
  destruct (promises s !! p) as [[cbs|session']|] eqn:E;
    try (split; [repeat split; assumption | split; assumption]).
  split; [split; [exact Ht | split; [exact Hd | split]]|split; [exact Ho|]]; cbn.
  - intros q cbs' Hl.
    apply list_lookup_insert_Some in Hl as [[_ [Heq _]]|[_ Hl]]; [discriminate|eauto].
  - intros q session' Hq Hl.
    apply list_lookup_insert_Some in Hl as [[_ [Heq _]]|[_ Hl]]; [|eauto].
    injection Heq as <-. exact Hses.
  - apply Forall_app. split; [exact Hm|]. apply Forall_map.
    eapply Forall_impl; [exact (Hp _ _ E)|].
    intros cb Hcb. destruct cb; cbn; [exact I | split; assumption].
Qed.

Lemma Inv_fields (s s' : State) :
  tasks s' = tasks s -> promises s' = promises s ->
  sessionPromise s' = sessionPromise s ->
  out s' = out s -> microtasks s' = microtasks s ->
  Inv s -> Inv s'.
Proof.
  intros E1 E2 E3 E4 E5 [[Ht [Hd [Hp Hsp]]] [Ho Hm]].
  unfold Inv, state_ok, calls_ok. rewrite E1, E2, E3, E4, E5.
  repeat split; assumption.
Qed.

Lemma Inv_tool_loop (t : TaskId) (fcs : list FunctionCall) (s : State) :
  Inv s -> Inv (tool_loop t fcs s).
Proof.
  intros H. rewrite tool_loop_next_call.
  destruct (next_call fcs) as [[fc rest]|] eqn:E.
  - pose proof (okfc_tool _ (next_call_name _ _ _ E)) as Hfc.
    apply Inv_set_task; [intros ? ? [= <- <-]; exact Hfc|discriminate|].
    apply Inv_emit; [exact Hfc|]. apply Inv_emit; [exact I | exact H].
  - apply Inv_set_task; [discriminate | discriminate | exact H].
Qed.

Lemma Inv_handle_interruption (m : LiveServerMessage) (s : State) :
  Inv s -> Inv (handle_interruption m s).
Proof.
  intros H. unfold handle_interruption. destruct (interrupted m); [|exact H].
  apply (Inv_emit (onLog log_system "User interrupted model.") s I) in H.
  destruct H as [Hs [Ho Hm]]. split; [exact Hs|]. split; [|exact Hm].
  cbn. apply Forall_app. split; [exact Ho|]. apply Forall_map.
  apply Forall_forall. intros x _. exact I.
Qed.

Lemma Inv_handle_transcripts (m : LiveServerMessage) (s : State) :
  Inv s -> Inv (handle_transcripts m s).
Proof.
  intros H. unfold handle_transcripts.
  assert (H1 : Inv match inputTranscription m with
                   | Some (Some txt) =>
                       if truthy txt then emit (call_onTranscript txt false user) s else s
                   | _ => s
                   end).
  { destruct (inputTranscription m) as [[txt|]|]; try exact H.
    destruct (truthy txt) eqn:E; [|exact H].
    apply Inv_emit; [|exact H]. split; [apply truthy_nonempty; exact E | reflexivity]. }
  destruct (outputTranscription m) as [[txt|]|]; try exact H1.
  destruct (truthy txt) eqn:E; [|exact H1].
  apply Inv_emit; [|exact H1]. split; [apply truthy_nonempty; exact E | reflexivity].
Qed.

Lemma Inv_after_audio (t : TaskId) (m : LiveServerMessage) (s : State) :
  Inv s -> Inv (after_audio t m s).
Proof.
  intros H. unfold after_audio, handle_toolCall.
  apply Inv_handle_interruption with (m := m) in H.
  apply Inv_handle_transcripts with (m := m) in H.
  destruct (toolCall m) as [fcs|].
  - apply Inv_tool_loop. apply Inv_emit; [exact I | exact H].
  - apply Inv_set_task; [discriminate | discriminate | exact H].
Qed.

Lemma Inv_connect_catch (t : TaskId) (message : string) (s : State) :
  Inv s -> Inv (connect_catch t message s).
Proof.
  intros H. unfold connect_catch.
  apply Inv_set_task; [discriminate | discriminate|]. apply Inv_emit; [exact I|].
  apply Inv_emit; [exact I | exact H].
Qed.

Lemma Inv_handle (e : Event) (s : State) :
  event_ok okmsg oks e -> Inv s -> Inv (handle e s).
Proof.
  intros He H. destruct e; cbn [handle].
  - (* connect *)
    unfold connect. do 2 (apply Inv_emit; [exact I|]).
    apply Inv_push_task; [discriminate | discriminate | exact H].
  - (* getUserMedia *)
    unfold resume_getUserMedia.
    destruct (tasks s !! t) as [[]|]; try exact H.
    destruct r as [[]|msg]; [|apply Inv_connect_catch; exact H].
    apply Inv_set_task; [discriminate | discriminate|].
    apply (Inv_emit (onLog log_system "Connecting to Gemini Live API...") _ I) in H.
    destruct H as [[Ht [Hd [Hp Hsp]]] Hc]. split; [|exact Hc].
    split; [exact Ht|]. split; [exact Hd|]. split; cbn.
    + intros q cbs Hl. apply lookup_app_Some in Hl as [Hl|[_ Hl]]; [eauto|].
      apply list_lookup_singleton_Some in Hl as [_ [= <-]]. constructor.
    + intros q session [= <-] Hl. rewrite lookup_app_r in Hl by lia.
      rewrite Nat.sub_diag in Hl. discriminate.
  - (* live.connect *)
    unfold resume_live_connect.
    destruct (tasks s !! t) as [[]|]; try exact H.
    destruct r as [liveSession|msg]; [|apply Inv_connect_catch; exact H].
    apply Inv_set_task; [discriminate | discriminate|].
    destruct (sessionResolver s) as [p|]; [|exact H].
    apply Inv_resolve; [exact He | exact H].
  - unfold onopen. do 2 (apply Inv_emit; [exact I|]). exact H.
  - unfold onclose. do 2 (apply Inv_emit; [exact I|]). exact H.
  - unfold onerror. do 2 (apply Inv_emit; [exact I|]). exact H.
  - (* handleMessage *)
    unfold handleMessage.
    apply (Inv_push_task Running) in H; [|discriminate|discriminate].
    match goal with |- context [if ?c then _ else _] => destruct c end.
    + apply Inv_set_task; [discriminate | intros ? [= <-]; exact He|].
      revert H. apply Inv_fields; reflexivity.
    + apply Inv_after_audio. exact H.
  - (* decodeAudioData *)
    unfold resume_decode.
    destruct (tasks s !! t) as [[]|]; try exact H.
    destruct r as [duration|msg];
      [|apply Inv_set_task; [discriminate | discriminate | exact H]].
    destruct (outputAudioContext s);
      [|apply Inv_set_task; [discriminate | discriminate | exact H]].
    apply Inv_after_audio.
    apply (Inv_emit (source_start (created s) duration (nextStartTime s)) _ I) in H.
    revert H. apply Inv_fields; reflexivity.
  - (* the lookup timer *)
    unfold resume_lookup.
    destruct (tasks s !! t) as [[| | | | |fc rest]|] eqn:E; try exact H.
    assert (Hfc : okfc fc) by (destruct H as [[Ht _] _]; eauto).
    apply Inv_tool_loop.
    set (result := searchKnowledgeBase (runtimeDatabase s) (fc_query fc)).
    apply (Inv_emit (kb_return t fc result) _ Hfc) in H.
    apply (Inv_emit (onLog log_rag ("Found: " ++ substring 0 50 result ++ "...")) _ I) in H.
    cbn [sessionPromise emit set_out].
    destruct (sessionPromise s) as [p|] eqn:Ep; [|exact H].
    apply Inv_then; [exact Hfc| |exact H].
    intros session Hl. destruct H as [[_ [_ [_ Hsp]]] _].
    apply (Hsp p); [exact Ep | exact Hl].
  - (* ended *)
    revert H. apply Inv_fields; reflexivity.
  - (* disconnect *)
    unfold disconnect. apply Inv_emit; [exact I|].
    assert (H1 : Inv match sessionPromise s with
                     | Some p => set_sessionPromise None (then_ p cb_close s)
                     | None => s
                     end).
    { destruct (sessionPromise s) as [p|] eqn:Ep; [|exact H].
      assert (H2 : Inv (then_ p cb_close s)).
      { apply Inv_then; [exact I| |exact H].
        intros session Hl. destruct H as [[_ [_ [_ Hsp]]] _].
        apply (Hsp p); [exact Ep | exact Hl]. }
      destruct H2 as [[Ht [Hd [Hp _]]] Hc]. split; [|exact Hc].
      split; [exact Ht|]. split; [exact Hd|]. split; [exact Hp|]. cbn. discriminate. }
    revert H1. apply Inv_fields; reflexivity.
  - (* the database *)
    revert H. apply Inv_fields; reflexivity.
Qed.

Lemma step_allowed (e : Event) (s : State) :
  event_ok okmsg oks e -> state_ok okmsg okfc oks s ->
  state_ok okmsg okfc oks (fst (step e s)) /\ Forall (allowed okfc oks) (snd (step e s)).
Proof.
  intros He Hs. rewrite step_eq. cbn [fst snd].
  assert (H : Inv (handle e (fresh_task s))).
  { apply Inv_handle; [exact He|]. split; [exact Hs | split; constructor]. }
  destruct H as [H [Ho Hm]]. split; [exact H | apply Forall_app; split; assumption].
Qed.

Lemma run_allowed (es : list Event) (s : State) :
  Forall (event_ok okmsg oks) es -> state_ok okmsg okfc oks s ->
  state_ok okmsg okfc oks (fst (run es s)) /\ Forall (allowed okfc oks) (snd (run es s)).
Proof.
  intros Hes Hs.
  apply (run_invariant (event_ok okmsg oks)
           (fun tr s => state_ok okmsg okfc oks s /\ Forall (allowed okfc oks) tr))
    with (es := es) (s := s) (tr := []);
    [|exact Hes|split; [exact Hs | constructor]].
  intros e s0 tr He [Hs0 Htr].
  destruct (step_allowed e s0 He Hs0) as [H1 H2].
  split; [exact H1 | apply Forall_app; split; assumption].
Qed.
End Allowed.

Lemma all_events_ok (es : list Event) : Forall (event_ok (fun _ => True) (fun _ => True)) es.
Proof. apply Forall_forall. intros e _. destruct e; try exact I. destruct r; exact I. Qed.

Lemma any_callbacks_ok (cbs : list Callback) : Forall (callback_ok (fun _ => True)) cbs.
Proof. apply Forall_forall. intros cb _. destruct cb; exact I. Qed.

Lemma any_state_ok (s : State) : state_ok (fun _ => True) (fun _ => True) (fun _ => True) s.
Proof.
  split; [intros; exact I|]. split; [intros; exact I|]. split; [|intros; exact I].
  intros p cbs _. apply any_callbacks_ok.
Qed.

(** ** The transcript callbacks of the service *)

(** C10. In every run of the service, from any state, every call of
    [onTranscript] passes a non-empty text delta and [isFinal = false]: an
    empty (or absent) transcription text of an inbound message leads to no
    call. *)
Theorem C10_onTranscript_calls (s : State) (es : list Event) :
  Forall transcript_call_ok (snd (run es s)).
Proof.
  destruct (run_allowed (fun _ => True) (fun _ => True) (fun _ => True) (fun _ _ => I) es s
              (all_events_ok es) (any_state_ok s)) as [_ H].
  eapply Forall_impl; [exact H|].
  intros e He. destruct e; try exact I. exact He.
Qed.

(** A message with the user's text ["hi"] and an empty agent text: one call,
    for the user. *)
Example transcripts_filtered :
  snd (run [session_onmessage
              {| inlineData := None; interrupted := false;
                 inputTranscription := Some (Some "hi");
                 outputTranscription := Some (Some EmptyString);
                 toolCall := None |} 0] connected_service)
  = [call_onTranscript "hi" false user].
Proof. reflexivity. Qed.

(** ** The tool-call broker *)

Lemma new_service_broker_ok (db : list DatabaseEntry) : broker_ok (new_service db).
Proof.
  split; [|split; [|split]]; cbn.
  - intros t fc rest H. rewrite lookup_nil in H. discriminate.
  - intros; exact I.
  - intros p cbs H. rewrite lookup_nil in H. discriminate.
  - intros; exact I.
Qed.

Lemma reachable_broker_ok (db : list DatabaseEntry) (es : list Event) :
  broker_ok (fst (run es (new_service db))).
Proof.
  apply (run_allowed (fun _ => True) known_tool (fun _ => True) (fun _ H => H) es);
    [apply all_events_ok | apply new_service_broker_ok].
Qed.

(** C5. In every run from a state of the broker, a function call whose name
    is not ['search_knowledge_base'] is never looked up and never answered: no
    call of [searchKnowledgeBase] and no [sendToolResponse] is made for it. *)
Theorem C5_unknown_tool_ignored (s : State) (es : list Event) (fc : FunctionCall) :
  broker_ok s ->
  fc_name fc <> TOOL_NAME ->
  Forall (fun e => ~ concerns fc e) (snd (run es s)).
Proof.
  intros Hs Hfc.
  destruct (run_allowed (fun _ => True) known_tool (fun _ => True) (fun _ H => H) es s
              (all_events_ok es) Hs) as [_ H].
  eapply Forall_impl; [exact H|].
  intros e He Hc. destruct e; cbn in Hc, He; try contradiction; subst fc0.
  - exact (Hfc He).
  - exact (Hfc He).
  - exact (Hfc (proj1 He)).
Qed.

(** On the message with [call_1], [call_2], [call_3]: [call_2] is for another
    tool, so nothing in the run concerns it, while the two others are looked
    up and answered. *)
Lemma C5_unknown_tool_ignored_witness :
  broker_ok connected_service /\
  fc_name call_2 <> TOOL_NAME /\
  Forall (fun e => ~ concerns call_2 e)
    (snd (run [session_onmessage (tool_message [call_1; call_2; call_3]) 0;
               lookup_timer_fired 1; lookup_timer_fired 1] connected_service)).
Proof.
  assert (H1 : broker_ok connected_service) by apply reachable_broker_ok.
  assert (H2 : fc_name call_2 <> TOOL_NAME) by discriminate.
  split; [exact H1|]. split; [exact H2|].
  exact (C5_unknown_tool_ignored connected_service _ call_2 H1 H2).
Defined.

Example unknown_tool_skipped :
  List.filter (fun e => match e with sendToolResponse _ _ _ _ => true | _ => false end)
    (snd (run [session_onmessage (tool_message [call_1; call_2; call_3]) 0;
               lookup_timer_fired 1; lookup_timer_fired 1] connected_service))
  = [sendToolResponse 7 1 call_1 (searchKnowledgeBase INITIAL_DATA "return policy");
     sendToolResponse 7 1 call_3 (searchKnowledgeBase INITIAL_DATA "order 12345")].
Proof. reflexivity. Qed.

(** The task of [disconnect()] on a live session: the state it leaves holds no
    session promise, and it sends nothing. *)
Lemma step_disconnect_live (s : State) (p : PromiseId) (h : Session) :
  sessionPromise s = Some p ->
  promises s !! p = Some (Resolved h) ->
  sessionPromise (fst (step disconnect_called s)) = None /\
  promises (fst (step disconnect_called s)) = promises s /\
  tasks (fst (step disconnect_called s)) = tasks s /\
  snd (step disconnect_called s) = [onStateChange DISCONNECTED; session_close h].
Proof.
  intros Hp Hl. rewrite step_eq. cbn [fst snd handle].
  unfold disconnect. cbn. rewrite Hp. unfold then_. cbn. rewrite Hl. cbn.
  repeat split; reflexivity.
Qed.

Lemma no_session_state_ok (oks : Session -> Prop) (s : State) :
  sessionPromise s = None -> state_ok (fun _ => True) (fun _ => True) oks s.
Proof.
  intros H. split; [intros; exact I|]. split; [intros; exact I|]. split.
  - intros p cbs _. apply any_callbacks_ok.
  - intros p session Hp. rewrite H in Hp. discriminate.
Qed.

Lemma events_ok_any_message (oks : Session -> Prop) (es : list Event) :
  Forall (delivers oks) es -> Forall (event_ok (fun _ => True) oks) es.
Proof.
  intros H. eapply Forall_impl; [exact H|].
  intros e He. destruct e; try exact I. exact He.
Qed.

(** C3. Let the session be live, its promise resolved with the transport
    handle [h], and let [disconnect()] tear it down, whatever lookups are
    pending. Then in every continuation (the pending lookups completing, further
    messages, connects that deliver other sessions) no [sendToolResponse] is
    called on [h]; and as long as no new live session is delivered nothing is
    sent at all: the result of a lookup that completes finds [sessionPromise]
    null and is dropped, with no other call made for it than the log line. *)
Theorem C3_dead_session_drop (s : State) (p : PromiseId) (h : Session) (es : list Event) :
  sessionPromise s = Some p ->
  promises s !! p = Some (Resolved h) ->
  Forall (delivers (fun session => session <> h)) es ->
  Forall (fun e => ~ sends_on h e) (snd (run (disconnect_called :: es) s)) /\
  (Forall (delivers (fun _ => False)) es ->
   Forall (fun e => ~ is_send e) (snd (run (disconnect_called :: es) s))).
Proof.
  intros Hp Hl Hes. rewrite run_cons.
  destruct (step_disconnect_live s p h Hp Hl) as [Hnone [_ [_ Hout]]].
  rewrite Hout. split.
  - destruct (run_allowed (fun _ => True) (fun _ => True) (fun session => session <> h)
                (fun _ _ => I) es _ (events_ok_any_message _ _ Hes)
                (no_session_state_ok _ _ Hnone)) as [_ H].
    cbn [snd app]. constructor; [intros []|]. constructor; [intros []|].
    eapply Forall_impl; [exact H|].
    intros e He Hs. destruct e; cbn in Hs; try contradiction.
    destruct He as [_ He]. exact (He Hs).
  - intros Hes'.
    destruct (run_allowed (fun _ => True) (fun _ => True) (fun _ => False)
                (fun _ _ => I) es _ (events_ok_any_message _ _ Hes')
                (no_session_state_ok _ _ Hnone)) as [_ H].
    cbn [snd app]. constructor; [intros []|]. constructor; [intros []|].
    eapply Forall_impl; [exact H|].
    intros e He Hs. destruct e; cbn in Hs; try contradiction.
    destruct He as [_ He]. exact He.
Qed.

(** The lookup for [call_1] is pending when the session is torn down; its timer
    then fires. *)
Lemma C3_dead_session_drop_witness :
  sessionPromise awaiting_lookup = Some 0%nat /\
  promises awaiting_lookup !! 0%nat = Some (Resolved 7%nat) /\
  tasks awaiting_lookup !! 1%nat = Some (AwaitLookup call_1 [call_2; call_3]) /\
  Forall (fun e => ~ sends_on 7%nat e)
    (snd (run [disconnect_called; lookup_timer_fired 1; lookup_timer_fired 1] awaiting_lookup)) /\
  Forall (fun e => ~ is_send e)
    (snd (run [disconnect_called; lookup_timer_fired 1; lookup_timer_fired 1] awaiting_lookup)).
Proof.
  assert (H1 : sessionPromise awaiting_lookup = Some 0%nat) by reflexivity.
  assert (H2 : promises awaiting_lookup !! 0%nat = Some (Resolved 7%nat)) by reflexivity.
  assert (H3 : Forall (delivers (fun session => session <> 7%nat))
                 [lookup_timer_fired 1; lookup_timer_fired 1])
    by (repeat constructor).
  assert (H4 : Forall (delivers (fun _ => False))
                 [lookup_timer_fired 1; lookup_timer_fired 1])
    by (repeat constructor).
  split; [exact H1|]. split; [exact H2|]. split; [reflexivity|].
  split.
  - exact (proj1 (C3_dead_session_drop awaiting_lookup 0%nat 7%nat _ H1 H2 H3)).
  - exact (proj2 (C3_dead_session_drop awaiting_lookup 0%nat 7%nat _ H1 H2 H3) H4).
Defined.

(** What the torn-down run does: both lookups complete and are logged, no
    answer is sent. *)
Example dead_session_run :
  snd (run [disconnect_called; lookup_timer_fired 1; lookup_timer_fired 1] awaiting_lookup)
  = [onStateChange DISCONNECTED; session_close 7;
     kb_return 1 call_1 (searchKnowledgeBase INITIAL_DATA "return policy");
     onLog log_rag "Found: POLICY_REFUND_V4: Items can be returned within 30 ...";
     onLog log_rag ("Querying Knowledge Base: " ++ dq ++ "order 12345" ++ dq);
     kb_call 1 call_3;
     kb_return 1 call_3 (searchKnowledgeBase INITIAL_DATA "order 12345");
     onLog log_rag "Found: CRM_ORDER_LOOKUP: Order #12345 for John Doe. Statu..."].
Proof. reflexivity. Qed.

(** ** The playback scheduler *)

#[local] Arguments String.append : simpl never.
#[local] Arguments substring : simpl never.
#[local] Arguments searchKnowledgeBase : simpl never.

Lemma audio_app (a b : list Effect) : audio (a ++ b) = audio a ++ audio b.
Proof. apply List.filter_app. Qed.

Lemma audio_callbacks (session : Session) (cbs : list Callback) :
  audio (map (run_callback session) cbs) = [].
Proof.
  induction cbs as [|cb cbs IH]; [reflexivity|]. destruct cb; exact IH.
Qed.

Lemma starts_app (a b : list Effect) : starts (a ++ b) = starts a ++ starts b.
Proof. apply flat_map_app. Qed.

Lemma stops_app (a b : list Effect) : stops (a ++ b) = stops a ++ stops b.
Proof. apply flat_map_app. Qed.

Lemma starts_audio (effs : list Effect) : starts (audio effs) = starts effs.
Proof.
  induction effs as [|e effs IH]; [reflexivity|].
  destruct e; cbn; try exact IH. f_equal. exact IH.
Qed.

Lemma stops_audio (effs : list Effect) : stops (audio effs) = stops effs.
Proof.
  induction effs as [|e effs IH]; [reflexivity|].
  destruct e; cbn; try exact IH. f_equal. exact IH.
Qed.


Lemma starts_source_stop (l : list SourceId) : starts (map source_stop l) = [].
Proof. induction l as [|x l IH]; [reflexivity|]. exact IH. Qed.

Lemma starts_cons_start (x : SourceId) (d w : Q) (l : list Effect) :
  starts (source_start x d w :: l) = (w, d) :: starts l.
Proof. reflexivity. Qed.


Lemma playback_emit (e : Effect) (s : State) :
  is_audio e = false -> playback (emit e s) = playback s.
Proof.
  intros He. unfold playback. cbn. rewrite audio_app. cbn. rewrite He, app_nil_r.
  reflexivity.
Qed.

Lemma playback_then (p : PromiseId) (cb : Callback) (s : State) :
  playback (then_ p cb s) = playback s.
Proof.
  unfold then_. destruct (promises s !! p) as [[cbs|session]|]; try reflexivity.
  unfold playback. cbn. rewrite audio_app.
  destruct cb; cbn; rewrite app_nil_r; reflexivity.
Qed.

Lemma playback_resolve (p : PromiseId) (session : Session) (s : State) :
  playback (resolve p session s) = playback s.
Proof.
  unfold resolve. destruct (promises s !! p) as [[cbs|session']|]; try reflexivity.
  unfold playback. cbn. rewrite audio_app, audio_callbacks, app_nil_r. reflexivity.
Qed.

Lemma playback_set_task (t : TaskId) (st : Task) (s : State) :
  playback (set_task t st s) = playback s.
Proof. reflexivity. Qed.

Lemma playback_tool_loop (t : TaskId) (fcs : list FunctionCall) (s : State) :
  playback (tool_loop t fcs s) = playback s.
Proof.
  rewrite tool_loop_next_call. destruct (next_call fcs) as [[fc rest]|].
  - rewrite playback_set_task, !playback_emit; reflexivity.
  - apply playback_set_task.
Qed.

Lemma playback_handle_transcripts (m : LiveServerMessage) (s : State) :
  playback (handle_transcripts m s) = playback s.
Proof.
  unfold handle_transcripts.
  destruct (outputTranscription m) as [[txt|]|]; [destruct (truthy txt)| |];
    rewrite ?playback_emit by reflexivity;
    (destruct (inputTranscription m) as [[txt'|]|]; [destruct (truthy txt')| |]);
    rewrite ?playback_emit by reflexivity; reflexivity.
Qed.

Lemma playback_handle_toolCall (t : TaskId) (m : LiveServerMessage) (s : State) :
  playback (handle_toolCall t m s) = playback s.
Proof.
  unfold handle_toolCall. destruct (toolCall m) as [fcs|].
  - rewrite playback_tool_loop, playback_emit; reflexivity.
  - apply playback_set_task.
Qed.

Lemma playback_after_audio (t : TaskId) (m : LiveServerMessage) (s : State) :
  playback (after_audio t m s) = playback (handle_interruption m s).
Proof.
  unfold after_audio. rewrite playback_handle_toolCall, playback_handle_transcripts.
  reflexivity.
Qed.

Lemma handle_interruption_false (m : LiveServerMessage) (s : State) :
  interrupted m = false -> handle_interruption m s = s.
Proof. intros H. unfold handle_interruption. rewrite H. reflexivity. Qed.

Lemma playback_handle_interruption (m : LiveServerMessage) (s : State) :
  interrupted m = true ->
  playback (handle_interruption m s) =
  (0%Q, [], created s, audio (out s) ++ map source_stop (sources s), audio (microtasks s)).
Proof.
  intros H. unfold handle_interruption. rewrite H. unfold playback. cbn.
  rewrite !audio_app. cbn. rewrite app_nil_r. repeat f_equal.
  induction (sources s) as [|x l IH]; [reflexivity|]. cbn. f_equal. exact IH.
Qed.

Lemma playback_connect_catch (t : TaskId) (message : string) (s : State) :
  playback (connect_catch t message s) = playback s.
Proof.
  unfold connect_catch. rewrite playback_set_task, !playback_emit; reflexivity.
Qed.

(** A task that brings no message and settles no decode leaves the timeline
    cursor as it is and makes no call on a buffer source. *)
Lemma timeline_handle_no_message (e : Event) (s : State) :
  no_message e -> timeline (handle e s) = timeline s.
Proof.
  intros He.
  assert (Hp : forall s', playback s' = playback s -> timeline s' = timeline s).
  { intros s' H. unfold playback in H. unfold timeline. congruence. }
  destruct e; cbn [handle]; try contradiction.
  - apply Hp. unfold connect. rewrite !playback_emit; reflexivity.
  - apply Hp. unfold resume_getUserMedia.
    destruct (tasks s !! t) as [[]|]; try reflexivity.
    destruct r as [[]|msg]; [|apply playback_connect_catch].
    rewrite playback_set_task. unfold playback. cbn. rewrite audio_app, app_nil_r.
    reflexivity.
  - apply Hp. unfold resume_live_connect.
    destruct (tasks s !! t) as [[]|]; try reflexivity.
    destruct r as [liveSession|msg]; [|apply playback_connect_catch].
    rewrite playback_set_task.
    destruct (sessionResolver s); [apply playback_resolve | reflexivity].
  - apply Hp. unfold onopen. rewrite !playback_emit; reflexivity.
  - apply Hp. unfold onclose. rewrite !playback_emit; reflexivity.
  - apply Hp. unfold onerror. rewrite !playback_emit; reflexivity.
  - apply Hp. unfold resume_lookup.
    destruct (tasks s !! t) as [[| | | | |fc rest]|]; try reflexivity.
    rewrite playback_tool_loop. cbn [sessionPromise emit set_out].
    destruct (sessionPromise s) as [p|];
      rewrite ?playback_then, !playback_emit; reflexivity.
  - reflexivity.
  - apply Hp. unfold disconnect. rewrite playback_emit by reflexivity.
    destruct (sessionPromise s) as [p|]; [|reflexivity].
    transitivity (playback (then_ p cb_close s)); [reflexivity | apply playback_then].
  - reflexivity.
Qed.

Lemma timeline_fresh_task (s : State) :
  timeline (fresh_task s) = (nextStartTime s, [], []).
Proof. reflexivity. Qed.

Lemma step_no_message (e : Event) (s : State) :
  no_message e ->
  nextStartTime (fst (step e s)) = nextStartTime s /\ audio (snd (step e s)) = [].
Proof.
  intros He. pose proof (timeline_handle_no_message e (fresh_task s) He) as H.
  rewrite timeline_fresh_task in H. unfold timeline in H.
  injection H as H1 H2 H3. rewrite step_eq. cbn [fst snd].
  split; [exact H1|]. rewrite audio_app, H2, H3. reflexivity.
Qed.

Lemma run_no_message (es : list Event) (s : State) :
  Forall no_message es ->
  nextStartTime (fst (run es s)) = nextStartTime s /\ audio (snd (run es s)) = [].
Proof.
  revert s. induction es as [|e es IH]; intros s Hes; [split; reflexivity|].
  inversion Hes as [|? ? He Hes']; subst. rewrite run_cons. cbn [fst snd].
  destruct (step_no_message e s He) as [H1 H2].
  destruct (IH (fst (step e s)) Hes') as [H3 H4].
  split; [congruence|]. rewrite audio_app, H2, H4. reflexivity.
Qed.

(** The task of [onmessage] when the audio block is entered: the cursor is
    anchored, nothing is called, and the activation awaits the decode. *)
Lemma step_message_audio (m : LiveServerMessage) (now : Q) (s : State) :
  has_audio m s = true ->
  let s1 := fst (step (session_onmessage m now) s) in
  nextStartTime s1 = Qmax (nextStartTime s) now /\
  tasks s1 = tasks s ++ [AwaitDecode m] /\
  outputAudioContext s1 = outputAudioContext s /\
  outputNode s1 = outputNode s /\
  sources s1 = sources s /\
  created s1 = created s /\
  snd (step (session_onmessage m now) s) = [].
Proof.
  intros H. rewrite step_eq. cbn [fst snd handle]. unfold handleMessage.
  change (truthy_opt (inlineData m) &&
          outputAudioContext (set_tasks (tasks (fresh_task s) ++ [Running]) (fresh_task s)) &&
          outputNode (set_tasks (tasks (fresh_task s) ++ [Running]) (fresh_task s)))
    with (has_audio m s).
  rewrite H. cbn. rewrite insert_app_r_alt by lia. rewrite Nat.sub_diag.
  repeat split; reflexivity.
Qed.

(** The task of [onmessage] when the audio block is skipped. *)
Lemma step_message_no_audio (m : LiveServerMessage) (now : Q) (s : State) :
  has_audio m s = false ->
  handle (session_onmessage m now) (fresh_task s) =
  after_audio (length (tasks s)) m (set_tasks (tasks s ++ [Running]) (fresh_task s)).
Proof.
  intros H. cbn [handle]. unfold handleMessage.
  change (truthy_opt (inlineData m) &&
          outputAudioContext (set_tasks (tasks (fresh_task s) ++ [Running]) (fresh_task s)) &&
          outputNode (set_tasks (tasks (fresh_task s) ++ [Running]) (fresh_task s)))
    with (has_audio m s).
  rewrite H. reflexivity.
Qed.

Lemma step_decode (t : TaskId) (duration : Q) (m : LiveServerMessage) (s : State) :
  tasks s !! t = Some (AwaitDecode m) ->
  outputAudioContext s = true ->
  handle (decodeAudioData_settled t (fulfilled duration)) (fresh_task s) =
  after_audio t m (scheduled duration s).
Proof.
  intros Ht Hc. cbn [handle]. unfold resume_decode.
  change (tasks (fresh_task s)) with (tasks s). rewrite Ht.
  change (outputAudioContext (fresh_task s)) with (outputAudioContext s). rewrite Hc.
  reflexivity.
Qed.

Lemma starts_step (e : Event) (s : State) :
  starts (snd (step e s)) =
  starts (audio (out (handle e (fresh_task s)))) ++
  starts (audio (microtasks (handle e (fresh_task s)))).
Proof. rewrite step_eq. cbn [snd]. rewrite starts_app, !starts_audio. reflexivity. Qed.

Lemma stops_step (e : Event) (s : State) :
  stops (snd (step e s)) =
  stops (audio (out (handle e (fresh_task s)))) ++
  stops (audio (microtasks (handle e (fresh_task s)))).
Proof. rewrite step_eq. cbn [snd]. rewrite stops_app, !stops_audio. reflexivity. Qed.

Lemma process_eq (m : LiveServerMessage) (now : Q) (r : Outcome Q) (s : State) :
  let s1 := fst (step (session_onmessage m now) s) in
  let e2 := decodeAudioData_settled (length (tasks s)) r in
  process m now r s =
  (fst (step e2 s1), snd (step (session_onmessage m now) s) ++ snd (step e2 s1)).
Proof.
  cbn zeta. unfold process. rewrite !run_cons. cbn [run fst snd].
  rewrite app_nil_r. reflexivity.
Qed.

Lemma has_audio_context (m : LiveServerMessage) (s : State) :
  has_audio m s = true -> outputAudioContext s = true.
Proof.
  unfold has_audio. intros H. apply andb_true_iff in H as [H _].
  apply andb_true_iff in H as [_ H]. exact H.
Qed.

(** A message with audio, run through its decode: what the second task does. *)
Lemma process_audio (m : LiveServerMessage) (now duration : Q) (s : State) :
  has_audio m s = true ->
  let s1 := fst (step (session_onmessage m now) s) in
  process m now (fulfilled duration) s =
  (fresh_task (after_audio (length (tasks s)) m (scheduled duration s1)),
   out (after_audio (length (tasks s)) m (scheduled duration s1)) ++
   microtasks (after_audio (length (tasks s)) m (scheduled duration s1))).
Proof.
  intros H. cbn zeta. rewrite process_eq. cbn zeta.
  destruct (step_message_audio m now s H) as [_ [Ht [Hc [_ [_ [_ Ho]]]]]].
  rewrite Ho. cbn [app]. rewrite step_eq.
  rewrite (step_decode _ _ m).
  - reflexivity.
  - rewrite Ht, lookup_app_r by lia. rewrite Nat.sub_diag. reflexivity.
  - rewrite Hc. apply has_audio_context with (m := m). exact H.
Qed.

Lemma timeline_scheduled (duration : Q) (s : State) :
  timeline (scheduled duration s) =
  (fadd (nextStartTime s) duration,
   [source_start (created s) duration (nextStartTime s)], []).
Proof. reflexivity. Qed.

Lemma timeline_after_audio (t : TaskId) (m : LiveServerMessage) (s : State) :
  interrupted m = false -> timeline (after_audio t m s) = timeline s.
Proof.
  intros H. pose proof (playback_after_audio t m s) as Hp.
  rewrite (handle_interruption_false m s H) in Hp.
  unfold playback in Hp. unfold timeline. congruence.
Qed.

(** An enqueue without interruption: the buffer starts at the later of the
    cursor and the clock, and the cursor moves to the sum of this start and the
    duration of the buffer. *)
Lemma enqueue_schedule (m : LiveServerMessage) (now duration : Q) (s : State) :
  has_audio m s = true ->
  interrupted m = false ->
  starts (snd (process m now (fulfilled duration) s)) =
    [(Qmax (nextStartTime s) now, duration)] /\
  nextStartTime (fst (process m now (fulfilled duration) s)) =
    fadd (Qmax (nextStartTime s) now) duration.
Proof.
  intros Ha Hi. rewrite (process_audio m now duration s Ha). cbn [fst snd].
  destruct (step_message_audio m now s Ha) as [Hn _]. cbn zeta in Hn.
  remember (fst (step (session_onmessage m now) s)) as s1 eqn:E. clear E.
  pose proof (timeline_after_audio (length (tasks s)) m (scheduled duration s1) Hi) as H.
  rewrite timeline_scheduled in H. unfold timeline in H. injection H as H1 H2 H3.
  split.
  - rewrite starts_app, <- (starts_audio (out _)), <- (starts_audio (microtasks _)).
    rewrite H2, H3, Hn. reflexivity.
  - change (nextStartTime (fresh_task ?x)) with (nextStartTime x).
    rewrite H1, Hn. reflexivity.
Qed.

Lemma no_interrupt_state_ok (s : State) :
  no_interrupt_pending s ->
  state_ok (fun m => interrupted m = false) (fun _ => True) (fun _ => True) s.
Proof.
  intros H. split; [intros; exact I|]. split; [exact H|]. split; [|intros; exact I].
  intros p cbs _. apply any_callbacks_ok.
Qed.

Lemma no_interrupt_event_ok (e : Event) :
  no_interrupt e -> event_ok (fun m => interrupted m = false) (fun _ => True) e.
Proof. destruct e; try (intros; exact I); [destruct r; intros; exact I | intros H; exact H]. Qed.

Lemma no_message_dec (e : Event) :
  no_message e \/
  (exists m now, e = session_onmessage m now) \/
  (exists t r, e = decodeAudioData_settled t r).
Proof. destruct e; cbn; eauto. Qed.

(** A task without interruption moves the cursor forward only, and starts at
    most one buffer, at the cursor, which then moves to the sum of the cursor
    and the buffer's duration. *)
Lemma step_no_interrupt (e : Event) (s : State) :
  no_interrupt e -> binary64_clock e ->
  no_interrupt_pending s -> binary64 (nextStartTime s) ->
  no_interrupt_pending (fst (step e s)) /\
  binary64 (nextStartTime (fst (step e s))) /\
  (nextStartTime s <= nextStartTime (fst (step e s)))%Q /\
  (starts (snd (step e s)) = [] \/
   exists d, starts (snd (step e s)) = [(nextStartTime s, d)] /\
             (fadd (nextStartTime s) d <= nextStartTime (fst (step e s)))%Q).
Proof.
  intros He Hclock Hs Hb. split.
  { destruct (step_allowed (fun m => interrupted m = false) (fun _ => True) (fun _ => True)
                (fun _ _ => I) e s (no_interrupt_event_ok e He) (no_interrupt_state_ok s Hs))
      as [[_ [H _]] _].
    exact H. }
  destruct (no_message_dec e) as [Hq|[[m [now ->]]|[t [r ->]]]].
  - destruct (step_no_message e s Hq) as [H1 H2].
    rewrite H1. split; [exact Hb|]. split; [apply Qle_refl|]. left.
    rewrite <- starts_audio, H2. reflexivity.
  - cbn in He, Hclock. destruct (has_audio m s) eqn:Ha.
    + destruct (step_message_audio m now s Ha) as [Hn [_ [_ [_ [_ [_ Ho]]]]]].
      cbn zeta in Hn. rewrite Hn, Ho.
      split; [apply binary64_Qmax; assumption|].
      split; [apply Q.le_max_l | left; reflexivity].
    + pose proof (timeline_after_audio (length (tasks s)) m
                    (set_tasks (tasks s ++ [Running]) (fresh_task s)) He) as H.
      change (timeline (set_tasks (tasks s ++ [Running]) (fresh_task s)))
        with (nextStartTime s, @nil Effect, @nil Effect) in H.
      unfold timeline in H. injection H as H1 H2 H3.
      rewrite starts_step, step_eq. cbn [fst].
      rewrite (step_message_no_audio m now s Ha), H2, H3.
      change (nextStartTime (fresh_task ?x)) with (nextStartTime x). rewrite H1.
      split; [exact Hb|]. split; [apply Qle_refl | left; reflexivity].
  - assert (Hsame : forall s', timeline s' = timeline (fresh_task s) ->
              fst (step (decodeAudioData_settled t r) s) = fresh_task s' ->
              snd (step (decodeAudioData_settled t r) s) = out s' ++ microtasks s' ->
              binary64 (nextStartTime (fst (step (decodeAudioData_settled t r) s))) /\
              (nextStartTime s <= nextStartTime (fst (step (decodeAudioData_settled t r) s)))%Q /\
              (starts (snd (step (decodeAudioData_settled t r) s)) = [] \/
               exists d, starts (snd (step (decodeAudioData_settled t r) s)) =
                           [(nextStartTime s, d)] /\
                         (fadd (nextStartTime s) d <=
                          nextStartTime (fst (step (decodeAudioData_settled t r) s)))%Q)).
    { intros s' H E1 E2. rewrite E1, E2. unfold timeline in H. injection H as H1 H2 H3.
      change (nextStartTime (fresh_task ?x)) with (nextStartTime x). rewrite H1.
      split; [exact Hb|]. split; [apply Qle_refl|]. left.
      rewrite starts_app, <- (starts_audio (out _)), <- (starts_audio (microtasks _)).
      rewrite H2, H3. reflexivity. }
    destruct (tasks s !! t) as [st|] eqn:Et.
    2:{ apply (Hsame (fresh_task s)); [reflexivity| |];
        rewrite step_eq; cbn [fst snd handle]; unfold resume_decode;
        change (tasks (fresh_task s)) with (tasks s); rewrite Et; reflexivity. }
    destruct st as [| | | |m|fc rest];
      try (apply (Hsame (fresh_task s)); [reflexivity| |];
           rewrite step_eq; cbn [fst snd handle]; unfold resume_decode;
           change (tasks (fresh_task s)) with (tasks s); rewrite Et; reflexivity).
    destruct r as [d|msg].
    2:{ apply (Hsame (set_task t Finished (fresh_task s))); [reflexivity| |];
        rewrite step_eq; cbn [fst snd handle]; unfold resume_decode;
        change (tasks (fresh_task s)) with (tasks s); rewrite Et; reflexivity. }
    destruct (outputAudioContext s) eqn:Ec.
    2:{ apply (Hsame (set_task t Finished (fresh_task s))); [reflexivity| |];
        rewrite step_eq; cbn [fst snd handle]; unfold resume_decode;
        change (tasks (fresh_task s)) with (tasks s); rewrite Et;
        change (outputAudioContext (fresh_task s)) with (outputAudioContext s);
        rewrite Ec; reflexivity. }
    cbn in He. pose proof (Hs t m Et) as Hi.
    pose proof (timeline_after_audio t m (scheduled d s) Hi) as H.
    rewrite timeline_scheduled in H.
    unfold timeline in H. injection H as H1 H2 H3.
    rewrite starts_step, step_eq. cbn [fst].
    rewrite (step_decode t d m s Et Ec), H2, H3.
    change (nextStartTime (fresh_task ?x)) with (nextStartTime x). rewrite H1.
    split; [apply binary64_fadd|]. split; [apply fadd_ge; assumption|].
    right. exists d. split; [reflexivity | apply Qle_refl].
Qed.

Lemma back_to_back64_snoc (l : list (Q * Q)) (b : Q * Q) :
  back_to_back64 l ->
  Forall (fun a => (fadd (fst a) (snd a) <= fst b)%Q) l ->
  back_to_back64 (l ++ [b]).
Proof.
  intros Hl Hb i j b1 b2 Hij H1 H2.
  apply lookup_app_Some in H2 as [H2|[Hj H2]].
  - apply lookup_lt_Some in H2 as Hlt.
    rewrite lookup_app_l in H1 by lia. exact (Hl i j b1 b2 Hij H1 H2).
  - apply list_lookup_singleton_Some in H2 as [Hj0 <-].
    rewrite lookup_app_l in H1 by lia.
    rewrite Forall_forall in Hb. apply Hb.
    apply list_elem_of_lookup. exists i. exact H1.
Qed.

(** Runs without interruption schedule back to back, by the sums of the
    code. *)
Lemma run_no_interrupt (es : list Event) (s : State) :
  no_interrupt_pending s -> binary64 (nextStartTime s) ->
  Forall no_interrupt es -> Forall binary64_clock es ->
  back_to_back64 (starts (snd (run es s))).
Proof.
  intros Hs Hb Hes Hclocks.
  pose (K := fun (tr : list Effect) (s : State) =>
               no_interrupt_pending s /\ binary64 (nextStartTime s) /\
               back_to_back64 (starts tr) /\
               Forall (fun a => (fadd (fst a) (snd a) <= nextStartTime s)%Q) (starts tr)).
  assert (H : K ([] ++ snd (run es s)) (fst (run es s))).
  { apply (run_invariant (fun e => no_interrupt e /\ binary64_clock e) K).
    - intros e s0 tr [He Hc] [H1 [H0 [H2 H3]]].
      destruct (step_no_interrupt e s0 He Hc H1 H0) as [G1 [G0 [G2 G3]]].
      split; [exact G1|]. split; [exact G0|]. rewrite starts_app.
      destruct G3 as [G3|[d [G3 G4]]]; rewrite G3.
      + rewrite app_nil_r. split; [exact H2|].
        eapply Forall_impl; [exact H3|]. intros a Ha. exact (Qle_trans _ _ _ Ha G2).
      + split; [apply back_to_back64_snoc; [exact H2 | exact H3]|].
        apply Forall_app. split.
        * eapply Forall_impl; [exact H3|]. intros a Ha. exact (Qle_trans _ _ _ Ha G2).
        * constructor; [exact G4 | constructor].
    - apply Forall_and. split; assumption.
    - split; [exact Hs|]. split; [exact Hb|]. split; [|constructor].
      intros i j b1 b2 _ Hl. cbn in Hl. discriminate. }
  destruct H as [_ [_ [H _]]]. exact H.
Qed.

(** What starts back to back by the sums of the code overlaps by the error of
    a rounding at most. *)
Lemma back_to_back64_overlap (l : list (Q * Q)) : back_to_back64 l -> overlap_rounding l.
Proof.
  intros H i j b1 b2 Hij H1 H2. pose proof (H i j b1 b2 Hij H1 H2) as Hle.
  pose proof (fadd_error (fst b1) (snd b1)). lra.
Qed.


Lemma context_tool_loop (t : TaskId) (fcs : list FunctionCall) (s : State) :
  outputAudioContext (tool_loop t fcs s) = outputAudioContext s /\
  outputNode (tool_loop t fcs s) = outputNode s /\
  sources (tool_loop t fcs s) = sources s.
Proof.
  rewrite tool_loop_next_call. destruct (next_call fcs) as [[fc rest]|];
    repeat split; reflexivity.
Qed.

Lemma context_handle_transcripts (m : LiveServerMessage) (s : State) :
  outputAudioContext (handle_transcripts m s) = outputAudioContext s /\
  outputNode (handle_transcripts m s) = outputNode s /\
  sources (handle_transcripts m s) = sources s.
Proof.
  unfold handle_transcripts.
  destruct (outputTranscription m) as [[txt|]|]; [destruct (truthy txt)| |];
    (destruct (inputTranscription m) as [[txt'|]|]; [destruct (truthy txt')| |]);
    repeat split; reflexivity.
Qed.

Lemma context_handle_interruption (m : LiveServerMessage) (s : State) :
  outputAudioContext (handle_interruption m s) = outputAudioContext s /\
  outputNode (handle_interruption m s) = outputNode s.
Proof. unfold handle_interruption. destruct (interrupted m); split; reflexivity. Qed.

Lemma context_after_audio (t : TaskId) (m : LiveServerMessage) (s : State) :
  outputAudioContext (after_audio t m s) = outputAudioContext s /\
  outputNode (after_audio t m s) = outputNode s /\
  sources (after_audio t m s) = sources (handle_interruption m s).
Proof.
  unfold after_audio, handle_toolCall.
  destruct (context_handle_interruption m s) as [A1 A2].
  destruct (context_handle_transcripts m (handle_interruption m s)) as [B1 [B2 B3]].
  destruct (toolCall m) as [fcs|].
  - destruct (context_tool_loop t fcs
                (emit (onLog log_system "Model requesting tool use...")
                   (handle_transcripts m (handle_interruption m s)))) as [C1 [C2 C3]].
    rewrite C1, C2, C3. cbn [outputAudioContext outputNode sources emit set_out].
    rewrite B1, B2, B3, A1, A2. repeat split; reflexivity.
  - cbn [outputAudioContext outputNode sources set_task set_tasks].
    rewrite B1, B2, B3, A1, A2. repeat split; reflexivity.
Qed.

Lemma process_audio_context (m : LiveServerMessage) (now duration : Q) (s : State) :
  has_audio m s = true ->
  outputAudioContext (fst (process m now (fulfilled duration) s)) = outputAudioContext s /\
  outputNode (fst (process m now (fulfilled duration) s)) = outputNode s.
Proof.
  intros Ha. rewrite (process_audio m now duration s Ha). cbn [fst].
  destruct (step_message_audio m now s Ha) as [_ [_ [Hc [Hn _]]]]. cbn zeta in Hc, Hn.
  remember (fst (step (session_onmessage m now) s)) as s1 eqn:E. clear E.
  destruct (context_after_audio (length (tasks s)) m (scheduled duration s1)) as [A1 [A2 _]].
  change (outputAudioContext (fresh_task ?x)) with (outputAudioContext x).
  change (outputNode (fresh_task ?x)) with (outputNode x).
  rewrite A1, A2. split; [exact Hc | exact Hn].
Qed.

Lemma enqueues_cons (m : LiveServerMessage) (now duration : Q)
    (rest : list (LiveServerMessage * Q * Q)) (s : State) :
  enqueues ((m, now, duration) :: rest) s =
  (fst (enqueues rest (fst (process m now (fulfilled duration) s))),
   snd (process m now (fulfilled duration) s) ++
   snd (enqueues rest (fst (process m now (fulfilled duration) s)))).
Proof.
  cbn [enqueues]. destruct (process m now (fulfilled duration) s) as [s1 o1].
  cbn [fst snd]. destruct (enqueues rest s1) as [s2 o2]. reflexivity.
Qed.

Lemma back_to_back64_cons (b : Q * Q) (l : list (Q * Q)) :
  Forall (fun a => (fadd (fst b) (snd b) <= fst a)%Q) l ->
  back_to_back64 l ->
  back_to_back64 (b :: l).
Proof.
  intros Hb Hl i j b1 b2 Hij H1 H2.
  destruct j as [|j]; [lia|]. cbn in H2. destruct i as [|i].
  - cbn in H1. injection H1 as <-. rewrite Forall_forall in Hb. apply Hb.
    apply list_elem_of_lookup. exists j. exact H2.
  - cbn in H1. apply (Hl i j b1 b2); [lia | exact H1 | exact H2].
Qed.

Lemma schedule_after_cursor (cursor : Q) (items : list (LiveServerMessage * Q * Q)) :
  binary64 cursor ->
  Forall plain_audio items ->
  Forall (fun a => (cursor <= fst a)%Q) (schedule cursor items).
Proof.
  intros Hc H. revert cursor Hc.
  induction H as [|[[m now] d] rest [_ [_ [Hn Hd]]] _ IH]; intros cursor Hc.
  - constructor.
  - cbn [schedule]. cbn in Hn, Hd. constructor.
    + cbn. apply Q.le_max_l.
    + eapply Forall_impl; [apply IH; apply binary64_fadd|]. intros a Ha. cbn beta in Ha.
      pose proof (Q.le_max_l cursor now).
      pose proof (fadd_ge (Qmax cursor now) d (binary64_Qmax _ _ Hc Hn) Hd). lra.
Qed.

Lemma schedule_back_to_back64 (cursor : Q) (items : list (LiveServerMessage * Q * Q)) :
  Forall plain_audio items -> back_to_back64 (schedule cursor items).
Proof.
  intros H. revert cursor. induction H as [|[[m now] d] rest Hp Hrest IH]; intros cursor.
  - intros i j b1 b2 _ Hl. cbn in Hl. discriminate.
  - cbn [schedule]. apply back_to_back64_cons; [|apply IH].
    cbn [fst snd]. apply schedule_after_cursor; [apply binary64_fadd | exact Hrest].
Qed.

(** The enqueues of a sequence, one after the other. *)
Lemma enqueues_schedule (s : State) (items : list (LiveServerMessage * Q * Q)) :
  outputAudioContext s = true ->
  outputNode s = true ->
  Forall plain_audio items ->
  starts (snd (enqueues items s)) = schedule (nextStartTime s) items /\
  nextStartTime (fst (enqueues items s)) = cursor_after (nextStartTime s) items.
Proof.
  intros Hc Hn Hitems. revert s Hc Hn.
  induction Hitems as [|[[m now] d] rest [Ht [Hi _]] _ IH]; intros s Hc Hn.
  - split; reflexivity.
  - cbn in Ht, Hi.
    assert (Ha : has_audio m s = true) by (unfold has_audio; rewrite Ht, Hc, Hn; reflexivity).
    destruct (enqueue_schedule m now d s Ha Hi) as [E1 E2].
    destruct (process_audio_context m now d s Ha) as [C1 C2].
    rewrite enqueues_cons. cbn [fst snd schedule cursor_after].
    destruct (IH (fst (process m now (fulfilled d) s))) as [I1 I2];
      [congruence | congruence |].
    rewrite starts_app, E1, I1, I2, E2. split; reflexivity.
Qed.

(** C1, as the spec has it, fails: the sums of the code are rounded. A buffer
    of [0.04] seconds arrives while the clock is at [0.25] and starts there;
    the cursor moves to the sum [0.25 + 0.04] as binary64 has it, which is
    below the exact sum of the two numbers. The second buffer arrives while
    the first plays and starts at the cursor: before the end of the first. *)
Lemma C1_counterexample :
  ~ back_to_back (starts (snd (enqueues two_chunks connected_service))).
Proof.
  intros H.
  assert (E : starts (snd (enqueues two_chunks connected_service)) =
              schedule 0 two_chunks) by (vm_compute; reflexivity).
  rewrite E in H.
  specialize (H 0%nat 1%nat
                ((1 # 4)%Q, chunk_40ms)
                (fadd (1 # 4) chunk_40ms, chunk_40ms)
                ltac:(lia)).
  assert (Hlt : (fadd (1 # 4) chunk_40ms < (1 # 4) + chunk_40ms)%Q)
    by (vm_compute; reflexivity).
  apply (Qlt_not_le _ _ Hlt). apply H; vm_compute; reflexivity.
Qed.

(** C1, amended. A number is a binary64 number and a sum is rounded. For every
    sequence of enqueues without interruption, on a service with its output
    context, whose sums stay finite: the buffers are started, in order, each at
    the later of [nextStartTime] and the clock time of its message, and
    [nextStartTime] then advances to the sum of this start and the buffer's
    duration; so no buffer starts before the end of a buffer enqueued before
    it as the code computes this end, and it starts before the exact end by at
    most the error of rounding it. The same holds of the buffers started in any
    run of tasks, however interleaved, in which no message carries the
    [interrupted] flag. *)
Theorem C1_enqueue_no_overlap (s : State) (items : list (LiveServerMessage * Q * Q)) :
  outputAudioContext s = true ->
  outputNode s = true ->
  binary64 (nextStartTime s) ->
  Forall plain_audio items ->
  (cursor_after (nextStartTime s) items < pow2 1024)%Q ->
  starts (snd (enqueues items s)) = schedule (nextStartTime s) items /\
  nextStartTime (fst (enqueues items s)) = cursor_after (nextStartTime s) items /\
  back_to_back64 (starts (snd (enqueues items s))) /\
  overlap_rounding (starts (snd (enqueues items s))) /\
  (forall (s' : State) (es : list Event),
      no_interrupt_pending s' -> binary64 (nextStartTime s') ->
      Forall no_interrupt es -> Forall binary64_clock es ->
      (nextStartTime (fst (run es s')) < pow2 1024)%Q ->
      back_to_back64 (starts (snd (run es s'))) /\
      overlap_rounding (starts (snd (run es s')))).
Proof.
  intros Hc Hn Hb Hitems _.
  destruct (enqueues_schedule s items Hc Hn Hitems) as [H1 H2].
  assert (B : back_to_back64 (starts (snd (enqueues items s))))
    by (rewrite H1; apply schedule_back_to_back64; exact Hitems).
  split; [exact H1|]. split; [exact H2|]. split; [exact B|].
  split; [apply back_to_back64_overlap; exact B|].
  intros s' es Hs Hb' Hes Hclocks _.
  assert (B' : back_to_back64 (starts (snd (run es s'))))
    by (apply run_no_interrupt; assumption).
  split; [exact B' | apply back_to_back64_overlap; exact B'].
Qed.

(** The two buffers of [0.04] seconds: they start at [0.25] and at the
    rounded [0.25 + 0.04]. *)
Lemma C1_enqueue_no_overlap_witness :
  outputAudioContext connected_service = true /\
  outputNode connected_service = true /\
  binary64 (nextStartTime connected_service) /\
  Forall plain_audio two_chunks /\
  (cursor_after (nextStartTime connected_service) two_chunks < pow2 1024)%Q /\
  starts (snd (enqueues two_chunks connected_service)) =
    [((1 # 4)%Q, chunk_40ms); (fadd (1 # 4) chunk_40ms, chunk_40ms)] /\
  back_to_back64 (starts (snd (enqueues two_chunks connected_service))) /\
  overlap_rounding (starts (snd (enqueues two_chunks connected_service))).
Proof.
  assert (H1 : outputAudioContext connected_service = true) by reflexivity.
  assert (H2 : outputNode connected_service = true) by reflexivity.
  assert (H3 : binary64 (nextStartTime connected_service)) by reflexivity.
  assert (H4 : Forall plain_audio two_chunks).
  { repeat constructor; vm_compute; congruence. }
  assert (H5 : (cursor_after (nextStartTime connected_service) two_chunks < pow2 1024)%Q)
    by (vm_compute; reflexivity).
  pose proof (C1_enqueue_no_overlap connected_service two_chunks H1 H2 H3 H4 H5)
    as [E [_ [B [O _]]]].
  split; [exact H1|]. split; [exact H2|]. split; [exact H3|]. split; [exact H4|].
  split; [exact H5|]. split; [rewrite E; vm_compute; reflexivity|].
  split; [exact B | exact O].
Defined.

(** The buffer that an enqueue starts, interruption or not. *)
Lemma enqueue_start (m : LiveServerMessage) (now duration : Q) (s : State) :
  has_audio m s = true ->
  starts (snd (process m now (fulfilled duration) s)) =
    [(Qmax (nextStartTime s) now, duration)].
Proof.
  intros Ha. destruct (interrupted m) eqn:Hi;
    [|apply (enqueue_schedule m now duration s Ha Hi)].
  rewrite (process_audio m now duration s Ha). cbn [fst snd].
  destruct (step_message_audio m now s Ha) as [Hn _]. cbn zeta in Hn.
  remember (fst (step (session_onmessage m now) s)) as s1 eqn:E. clear E.
  pose proof (playback_after_audio (length (tasks s)) m (scheduled duration s1)) as H.
  rewrite (playback_handle_interruption m _ Hi) in H.
  unfold playback in H. injection H as _ _ _ H2 H3.
  rewrite starts_app, <- (starts_audio (out _)), <- (starts_audio (microtasks _)).
  rewrite H2, H3. cbn [microtasks scheduled set_nextStartTime set_sources emit set_out
                         set_created fresh_task set_microtasks out audio List.filter app
                         is_audio].
  rewrite starts_cons_start, starts_source_stop, Hn. reflexivity.
Qed.


(** The settling of a decode that the activation does not await does nothing. *)
Lemma step_decode_idle (t : TaskId) (r : Outcome Q) (s : State) :
  (forall m, tasks s !! t <> Some (AwaitDecode m)) ->
  step (decodeAudioData_settled t r) s = (fresh_task s, []).
Proof.
  intros H. rewrite step_eq. cbn [handle]. unfold resume_decode.
  change (tasks (fresh_task s)) with (tasks s).
  destruct (tasks s !! t) as [[| | | |m|fc rest]|] eqn:E; try reflexivity.
  exfalso. exact (H m eq_refl).
Qed.


(** ** After an interruption *)











(** ** The order of the tool calls *)





































(* ===================================================================== *)
(** * Further properties of the code *)
(* ===================================================================== *)

(** ** The knowledge base under the admin methods *)

Lemma search_by_filter (db : list DatabaseEntry) (query : string) :
  searchKnowledgeBase db query =
  match List.filter (entry_matches (toLowerCase query)) db with
  | m0 :: _ => content m0
  | [] => search_fallback (toLowerCase query)
  end.
Proof. reflexivity. Qed.

Lemma upper_keyword_no_match (lq kw : string) :
  has_upper lq = false -> has_upper kw = true -> includes lq kw = false.
Proof.
  intros Hl Hk. apply includes_false_iff. intros [a [b H]]. subst lq.
  rewrite !has_upper_app, Hk, orb_true_r in Hl. discriminate.
Qed.

Lemma upper_entry_no_match (q : string) (e : DatabaseEntry) :
  (forall kw, In kw (keywords e) -> has_upper kw = true) ->
  entry_matches (toLowerCase q) e = false.
Proof.
  intros H. apply entry_matches_false_iff. intros [kw [Hin Hsub]].
  apply includes_true_iff in Hsub.
  rewrite (upper_keyword_no_match _ _ (toLowerCase_no_upper q) (H kw Hin)) in Hsub.
  discriminate.
Qed.

(** X1. Only the query is lowercased by the search, so an entry whose
    keywords all contain an upper-case letter answers no query: wherever it
    stands in the database, every search gives what it gives without it. *)
Theorem X1_upper_case_keywords_never_match (before after : list DatabaseEntry)
    (e : DatabaseEntry) (query : string) :
  (forall kw, In kw (keywords e) -> has_upper kw = true) ->
  searchKnowledgeBase (before ++ e :: after) query =
  searchKnowledgeBase (before ++ after) query.
Proof.
  intros H. rewrite !search_by_filter, !List.filter_app. cbn [List.filter].
  rewrite (upper_entry_no_match query e H). reflexivity.
Qed.

Lemma X1_upper_case_keywords_never_match_witness :
  let e := {| id := "x"; category := Policy; keywords := ["Refund"];
              content := "CUSTOM_REFUND" |} in
  (forall kw, In kw (keywords e) -> has_upper kw = true) /\
  searchKnowledgeBase ([] ++ e :: INITIAL_DATA) "Refund please" =
  searchKnowledgeBase ([] ++ INITIAL_DATA) "Refund please".
Proof.
  intros e.
  assert (H : forall kw, In kw (keywords e) -> has_upper kw = true).
  { intros kw [<-|[]]. reflexivity. }
  split; [exact H|].
  exact (X1_upper_case_keywords_never_match [] INITIAL_DATA e "Refund please" H).
Defined.

Lemma filter_existsb_nil {A} (f : A -> bool) (l : list A) :
  existsb f l = false -> List.filter f l = [].
Proof.
  induction l as [|a l IH]; [reflexivity|]. cbn. destruct (f a); [discriminate|].
  exact IH.
Qed.

Lemma filter_existsb_cons {A} (f : A -> bool) (l : list A) :
  existsb f l = true -> exists m0 ms, List.filter f l = m0 :: ms.
Proof.
  induction l as [|a l IH]; [discriminate|]. cbn. destruct (f a); [eauto|].
  exact IH.
Qed.

(** A search of a database with one more entry at its end. *)
Lemma search_snoc (db : list DatabaseEntry) (e : DatabaseEntry) (query : string) :
  searchKnowledgeBase (db ++ [e]) query =
  if existsb (entry_matches (toLowerCase query)) db
  then searchKnowledgeBase db query
  else if entry_matches (toLowerCase query) e then content e
       else search_fallback (toLowerCase query).
Proof.
  rewrite !search_by_filter, List.filter_app.
  destruct (existsb (entry_matches (toLowerCase query)) db) eqn:E.
  - destruct (filter_existsb_cons _ _ E) as [m0 [ms ->]]. reflexivity.
  - rewrite (filter_existsb_nil _ _ E). cbn [app List.filter].
    destruct (entry_matches (toLowerCase query) e); reflexivity.
Qed.

(** X2. An entry that [addDatabaseEntry] adds goes to the end of the
    database, so it never takes a query away from an older entry: a query
    that an older entry answers gets the same answer as before; any other
    query gets the new content if the new entry matches it, and the same
    fallback as before if not. *)
Theorem X2_added_entry_never_shadows (new_id : string) (now : Z) (cat : Category)
    (kws : list string) (c : string) (db : list StampedEntry) (query : string) :
  searchKnowledgeBase (entries_of (addDatabaseEntry new_id now cat kws c db)) query =
  if existsb (entry_matches (toLowerCase query)) (entries_of db)
  then searchKnowledgeBase (entries_of db) query
  else if entry_matches (toLowerCase query) (entry_of (newEntry new_id now cat kws c))
       then c
       else search_fallback (toLowerCase query).
Proof.
  unfold addDatabaseEntry, entries_of. rewrite map_app. apply search_snoc.
Qed.

Lemma trim_lower_keyword_in (new_id : string) (now : Z) (cat : Category)
    (kws : list string) (c k : string) :
  In k kws ->
  In (trim (toLowerCase k)) (keywords (entry_of (newEntry new_id now cat kws c))).
Proof.
  intros H. cbn [newEntry entry_of keywords].
  apply (in_map (fun k => trim (toLowerCase k))). exact H.
Qed.

Lemma no_match_existsb (lq : string) (db : list DatabaseEntry) :
  (forall x, In x db -> ~ has_keyword_in lq x) ->
  existsb (entry_matches lq) db = false.
Proof.
  intros H. destruct (existsb (entry_matches lq) db) eqn:E; [|reflexivity].
  apply existsb_exists in E as [x [Hin Hm]].
  apply entry_matches_true_iff in Hm. exfalso. exact (H x Hin Hm).
Qed.

(** X3. A keyword of ASCII is typed in any letter case and with blanks around
    it. [addDatabaseEntry] stores it lowercased and trimmed: with its capital
    letters made small and without the blanks. So the new entry answers every
    query, of ASCII or not, in which the keyword stands in any letter case,
    when no older entry answers the query. *)
Theorem X3_added_keyword_matches_any_case (new_id : string) (now : Z) (cat : Category)
    (kws : list string) (c : string) (db : list StampedEntry)
    (pad1 keyword pad2 before variant after : string) :
  In (pad1 ++ keyword ++ pad2)%string kws ->
  blanks pad1 = true -> plain_keyword keyword = true -> blanks pad2 = true ->
  lower_letters variant = lower_letters keyword ->
  (forall x, In x (entries_of db) ->
             ~ has_keyword_in (toLowerCase (before ++ variant ++ after)) x) ->
  trim (toLowerCase (pad1 ++ keyword ++ pad2)) = lower_letters keyword /\
  searchKnowledgeBase (entries_of (addDatabaseEntry new_id now cat kws c db))
    (before ++ variant ++ after) = c.
Proof.
  intros Hk H1 Hw H2 Hv Hold.
  pose proof (stored_keyword pad1 keyword pad2 H1 Hw H2) as Hstored.
  split; [exact Hstored|].
  assert (Ha : ascii_text variant = true).
  { rewrite <- lower_letters_ascii, Hv, lower_letters_ascii.
    destruct keyword as [|k0 k]; [discriminate|]. cbn [plain_keyword] in Hw.
    apply andb_true_iff in Hw as [Hw _]. apply andb_true_iff in Hw as [Hw _]. exact Hw. }
  unfold addDatabaseEntry, entries_of in *. rewrite map_app.
  cbn [map]. rewrite search_snoc.
  rewrite (no_match_existsb _ _ Hold).
  assert (Hm : entry_matches (toLowerCase (before ++ variant ++ after))
                 (entry_of (newEntry new_id now cat kws c)) = true).
  { apply entry_matches_true_iff. exists (lower_letters keyword). split.
    - rewrite <- Hstored. apply trim_lower_keyword_in. exact Hk.
    - rewrite <- Hv. apply toLowerCase_within. exact Ha. }
  rewrite Hm. reflexivity.
Qed.

(** The admin adds the keyword [" Warp Drive "]; the caller asks about a
    ["WARP DRIVE"]. *)
Lemma X3_added_keyword_matches_any_case_witness :
  let db := map (fun e => {| entry_of := e; addedAt := 0 |}) INITIAL_DATA in
  In (" " ++ "Warp Drive" ++ " ")%string [" Warp Drive "; "engine"] /\
  blanks " " = true /\ plain_keyword "Warp Drive" = true /\
  lower_letters "WARP DRIVE" = lower_letters "Warp Drive" /\
  (forall x, In x (entries_of db) ->
             ~ has_keyword_in (toLowerCase ("My " ++ "WARP DRIVE" ++ " is noisy")) x) /\
  searchKnowledgeBase
    (entries_of (addDatabaseEntry "k3" 5 Tech [" Warp Drive "; "engine"] "KB_WARP" db))
    "My WARP DRIVE is noisy" = "KB_WARP".
Proof.
  intros db.
  assert (H1 : In (" " ++ "Warp Drive" ++ " ")%string [" Warp Drive "; "engine"])
    by (left; reflexivity).
  assert (H2 : blanks " " = true) by reflexivity.
  assert (H3 : plain_keyword "Warp Drive" = true) by reflexivity.
  assert (H4 : lower_letters "WARP DRIVE" = lower_letters "Warp Drive") by reflexivity.
  assert (H5 : forall x, In x (entries_of db) ->
                 ~ has_keyword_in (toLowerCase ("My " ++ "WARP DRIVE" ++ " is noisy")) x).
  { intros x Hin. apply entry_matches_false_iff.
    assert (Hall : forallb (fun x => negb (entry_matches
                      (toLowerCase "My WARP DRIVE is noisy") x)) (entries_of db) = true)
      by (vm_compute; reflexivity).
    rewrite forallb_forall in Hall. apply negb_true_iff. apply (Hall x). exact Hin. }
  split; [exact H1|]. split; [exact H2|]. split; [exact H3|]. split; [exact H4|].
  split; [exact H5|].
  exact (proj2 (X3_added_keyword_matches_any_case "k3" 5 Tech _ "KB_WARP" db
                  " " "Warp Drive" " " "My " "WARP DRIVE" " is noisy" H1 H2 H3 H2 H4 H5)).
Defined.

Lemma includes_empty (s : string) : includes s EmptyString = true.
Proof. apply includes_true_iff. exists EmptyString, s. reflexivity. Qed.

(** X4. [handleSubmit] splits the keywords field at the commas and adds every
    piece, also a blank one (after a trailing comma, or between two commas).
    The blank piece is stored as the empty keyword, which occurs in every
    query: from then on a query that no older entry answers gets the new
    content, never the policy index or the not-found sentence. *)
Theorem X4_blank_keyword_answers_every_query (new_id : string) (now : Z)
    (cat : Category) (keywords_field content_field : string)
    (db : list StampedEntry) (piece query : string) :
  truthy (trim keywords_field) = true ->
  truthy (trim content_field) = true ->
  In piece (split_comma keywords_field) ->
  trim piece = EmptyString ->
  searchKnowledgeBase
    (entries_of (handleSubmit new_id now cat keywords_field content_field db)) query =
  if existsb (entry_matches (toLowerCase query)) (entries_of db)
  then searchKnowledgeBase (entries_of db) query
  else content_field.
Proof.
  intros Hk Hc Hin Hblank. unfold handleSubmit. rewrite Hk, Hc. cbn [negb orb].
  unfold addDatabaseEntry, entries_of. rewrite map_app. cbn [map]. rewrite search_snoc.
  destruct (existsb (entry_matches (toLowerCase query)) (map entry_of db)); [reflexivity|].
  assert (Hm : entry_matches (toLowerCase query)
                 (entry_of (newEntry new_id now cat
                              (map trim (split_comma keywords_field)) content_field)) = true).
  { unfold entry_matches. apply existsb_exists. exists EmptyString.
    split; [|apply includes_empty].
    cbn [newEntry entry_of keywords]. rewrite map_map.
    apply in_map_iff. exists piece. rewrite Hblank. split; [reflexivity | exact Hin]. }
  rewrite Hm. reflexivity.
Qed.

(** The keywords field ["refund,"] ends with a comma. *)
Lemma X4_blank_keyword_answers_every_query_witness :
  let db := map (fun e => {| entry_of := e; addedAt := 0 |}) INITIAL_DATA in
  truthy (trim "refund,") = true /\
  truthy (trim "KB_CUSTOM") = true /\
  In EmptyString (split_comma "refund,") /\
  trim EmptyString = EmptyString /\
  searchKnowledgeBase (entries_of db) "zzz" = NOT_FOUND /\
  searchKnowledgeBase (entries_of (handleSubmit "k4" 5 Policy "refund," "KB_CUSTOM" db)) "zzz"
    = "KB_CUSTOM".
Proof.
  intros db.
  assert (H1 : truthy (trim "refund,") = true) by reflexivity.
  assert (H2 : truthy (trim "KB_CUSTOM") = true) by reflexivity.
  assert (H3 : In EmptyString (split_comma "refund,")) by (right; left; reflexivity).
  assert (H4 : trim EmptyString = EmptyString) by reflexivity.
  split; [exact H1|]. split; [exact H2|]. split; [exact H3|]. split; [exact H4|].
  split; [reflexivity|].
  rewrite (X4_blank_keyword_answers_every_query "k4" 5 Policy "refund," "KB_CUSTOM" db
             EmptyString "zzz" H1 H2 H3 H4).
  reflexivity.
Defined.

Lemma delete_as_filter (i : string) (db : list StampedEntry) :
  entries_of (deleteDatabaseEntry i db) =
  List.filter (fun e => negb (String.eqb (id e) i)) (entries_of db).
Proof.
  unfold deleteDatabaseEntry, entries_of. induction db as [|e db IH]; [reflexivity|].
  cbn [List.filter map]. destruct (negb (String.eqb (id (entry_of e)) i)); cbn [map];
    rewrite IH; reflexivity.
Qed.

Lemma filter_all_true {A} (f : A -> bool) (l : list A) :
  (forall x, In x l -> f x = true) -> List.filter f l = l.
Proof.
  induction l as [|a l IH]; intros H; [reflexivity|]. cbn.
  rewrite (H a (or_introl eq_refl)), IH; [reflexivity|].
  intros x Hx. apply H. right. exact Hx.
Qed.

(** X5. [deleteDatabaseEntry] with an id that no entry has leaves the database
    as it is, and deleting twice is deleting once; what is left has no entry
    with the id, and keeps every other entry. *)
Theorem X5_delete_absent_and_twice (i : string) (db : list StampedEntry) :
  ((forall e, In e db -> id (entry_of e) <> i) -> deleteDatabaseEntry i db = db) /\
  deleteDatabaseEntry i (deleteDatabaseEntry i db) = deleteDatabaseEntry i db /\
  (forall e, In e (deleteDatabaseEntry i db) <-> In e db /\ id (entry_of e) <> i).
Proof.
  assert (Hin : forall e, In e (deleteDatabaseEntry i db) <->
                          In e db /\ id (entry_of e) <> i).
  { intros e. unfold deleteDatabaseEntry. rewrite filter_In, negb_true_iff.
    rewrite String.eqb_neq. reflexivity. }
  split; [|split; [|exact Hin]].
  - intros H. apply filter_all_true. intros e He.
    apply negb_true_iff, String.eqb_neq, H, He.
  - apply filter_all_true. intros e He. apply Hin in He as [_ He].
    apply negb_true_iff, String.eqb_neq, He.
Qed.

(** X6. Adding an entry and deleting it again by its id gives back the
    database, when no older entry has that id. *)
Theorem X6_add_then_delete (new_id : string) (now : Z) (cat : Category)
    (kws : list string) (c : string) (db : list StampedEntry) :
  (forall e, In e db -> id (entry_of e) <> new_id) ->
  deleteDatabaseEntry new_id (addDatabaseEntry new_id now cat kws c db) = db.
Proof.
  intros H. unfold deleteDatabaseEntry, addDatabaseEntry.
  rewrite List.filter_app. cbn [List.filter newEntry entry_of id].
  rewrite String.eqb_refl. cbn [negb]. rewrite app_nil_r.
  apply filter_all_true. intros e He. apply negb_true_iff, String.eqb_neq, H, He.
Qed.

Lemma X6_add_then_delete_witness :
  let db := map (fun e => {| entry_of := e; addedAt := 0 |}) INITIAL_DATA in
  (forall e, In e db -> id (entry_of e) <> "k6") /\
  deleteDatabaseEntry "k6" (addDatabaseEntry "k6" 5 Info ["Zeta"] "KB_ZETA" db) = db.
Proof.
  intros db.
  assert (H : forall e, In e db -> id (entry_of e) <> "k6").
  { intros e He. apply String.eqb_neq.
    assert (Hall : forallb (fun e => negb (String.eqb (id (entry_of e)) "k6")) db = true)
      by (vm_compute; reflexivity).
    rewrite forallb_forall in Hall. apply negb_true_iff. exact (Hall e He). }
  split; [exact H|].
  exact (X6_add_then_delete "k6" 5 Info ["Zeta"] "KB_ZETA" db H).
Defined.

Lemma filter_filter_unmatched {A} (keep f : A -> bool) (l : list A) :
  (forall x, In x l -> keep x = false -> f x = false) ->
  List.filter f (List.filter keep l) = List.filter f l.
Proof.
  induction l as [|a l IH]; intros H; [reflexivity|]. cbn [List.filter].
  assert (IH' : List.filter f (List.filter keep l) = List.filter f l)
    by (apply IH; intros x Hx; apply H; right; exact Hx).
  destruct (keep a) eqn:E.
  - cbn [List.filter]. rewrite IH'. reflexivity.
  - rewrite (H a (or_introl eq_refl) E). exact IH'.
Qed.

(** X7. Deleting entries that do not answer a query does not change what the
    search gives for this query. *)
Theorem X7_delete_keeps_other_answers (i : string) (db : list StampedEntry)
    (query : string) :
  (forall e, In e db -> id (entry_of e) = i ->
             entry_matches (toLowerCase query) (entry_of e) = false) ->
  searchKnowledgeBase (entries_of (deleteDatabaseEntry i db)) query =
  searchKnowledgeBase (entries_of db) query.
Proof.
  intros H. rewrite !search_by_filter, delete_as_filter.
  rewrite filter_filter_unmatched; [reflexivity|].
  intros x Hx Hk. unfold entries_of in Hx. apply in_map_iff in Hx as [e [<- He]].
  apply H; [exact He|]. apply negb_false_iff, String.eqb_eq in Hk. exact Hk.
Qed.

Lemma X7_delete_keeps_other_answers_witness :
  let db := map (fun e => {| entry_of := e; addedAt := 0 |}) INITIAL_DATA in
  (forall e, In e db -> id (entry_of e) = "pol-2" ->
             entry_matches (toLowerCase "I want a refund") (entry_of e) = false) /\
  searchKnowledgeBase (entries_of (deleteDatabaseEntry "pol-2" db)) "I want a refund" =
  searchKnowledgeBase (entries_of db) "I want a refund".
Proof.
  intros db.
  assert (H : forall e, In e db -> id (entry_of e) = "pol-2" ->
                entry_matches (toLowerCase "I want a refund") (entry_of e) = false).
  { intros e He Hid.
    assert (Hall : forallb (fun e => negb (String.eqb (id (entry_of e)) "pol-2") ||
                      negb (entry_matches (toLowerCase "I want a refund") (entry_of e)))
                     db = true) by (vm_compute; reflexivity).
    rewrite forallb_forall in Hall. specialize (Hall e He).
    apply String.eqb_eq in Hid. rewrite Hid in Hall. cbn [negb orb] in Hall.
    apply negb_true_iff. exact Hall. }
  split; [exact H|].
  exact (X7_delete_keeps_other_answers "pol-2" db "I want a refund" H).
Defined.

(** ** The admin listing *)

Lemma sort_insert_perm {A} (cmp : A -> A -> Z) (x : A) (l : list A) :
  Permutation (sort_insert cmp x l) (x :: l).
Proof.
  induction l as [|y l IH]; [reflexivity|]. cbn [sort_insert].
  destruct (0 <? cmp y x)%Z; [reflexivity|].
  rewrite IH. apply perm_swap.
Qed.

Lemma Array_sort_perm_acc {A} (cmp : A -> A -> Z) (l acc : list A) :
  Permutation (fold_left (fun sorted x => sort_insert cmp x sorted) l acc) (acc ++ l).
Proof.
  revert acc. induction l as [|x l IH]; intros acc; cbn [fold_left].
  - rewrite app_nil_r. reflexivity.
  - rewrite IH, sort_insert_perm. cbn [app]. apply Permutation_middle.
Qed.

Lemma by_stamp_insert_sorted (x : StampedEntry) (l : list StampedEntry) :
  newest_first l ->
  newest_first (sort_insert (fun a b => (addedAt b - addedAt a)%Z) x l).
Proof.
  unfold newest_first. intros H. induction H as [|y l Hl IH Hy]; cbn [sort_insert].
  - constructor; constructor.
  - destruct (0 <? addedAt x - addedAt y)%Z eqn:E.
    + apply Z.ltb_lt in E. constructor; [constructor; assumption|].
      constructor; [lia|]. eapply Forall_impl; [exact Hy|].
      intros z Hz. cbn beta in Hz. lia.
    + apply Z.ltb_ge in E. constructor; [exact IH|].
      rewrite (sort_insert_perm _ x l). constructor; [lia | exact Hy].
Qed.

Lemma by_stamp_insert_stable (z : Z) (x : StampedEntry) (l : list StampedEntry) :
  newest_first l ->
  stamped z (sort_insert (fun a b => (addedAt b - addedAt a)%Z) x l) =
  stamped z l ++ stamped z [x].
Proof.
  unfold newest_first, stamped. intros H.
  induction H as [|y l Hl IH Hy]; cbn [sort_insert]; [reflexivity|].
  destruct (0 <? addedAt x - addedAt y)%Z eqn:E.
  - apply Z.ltb_lt in E. cbn [List.filter].
    destruct (addedAt x =? z)%Z eqn:Ex; [|rewrite app_nil_r; reflexivity].
    apply Z.eqb_eq in Ex.
    assert (Ey : (addedAt y =? z)%Z = false) by (apply Z.eqb_neq; lia).
    rewrite Ey.
    assert (Hnil : List.filter (fun e => (addedAt e =? z)%Z) l = []).
    { apply filter_existsb_nil. destruct (existsb _ l) eqn:Eb; [|reflexivity].
      apply existsb_exists in Eb as [w [Hw Hz]]. apply Z.eqb_eq in Hz.
      rewrite Forall_forall in Hy. apply list_elem_of_In in Hw.
      specialize (Hy w Hw). cbn beta in Hy. lia. }
    rewrite Hnil. reflexivity.
  - cbn [List.filter]. destruct (addedAt y =? z)%Z; rewrite IH; reflexivity.
Qed.

Lemma by_stamp_sort_acc (l acc : list StampedEntry) :
  newest_first acc ->
  newest_first (fold_left (fun sorted x =>
                  sort_insert (fun a b => (addedAt b - addedAt a)%Z) x sorted) l acc) /\
  forall z,
    stamped z (fold_left (fun sorted x =>
                 sort_insert (fun a b => (addedAt b - addedAt a)%Z) x sorted) l acc) =
    stamped z acc ++ stamped z l.
Proof.
  revert acc. induction l as [|x l IH]; intros acc Hacc; cbn [fold_left].
  - split; [exact Hacc|]. intros z. unfold stamped. cbn [List.filter].
    rewrite app_nil_r. reflexivity.
  - destruct (IH _ (by_stamp_insert_sorted x acc Hacc)) as [H1 H2].
    split; [exact H1|]. intros z. rewrite H2, (by_stamp_insert_stable z x acc Hacc).
    rewrite <- app_assoc. unfold stamped. cbn [List.filter app].
    destruct (addedAt x =? z)%Z; reflexivity.
Qed.

(** X8. [getDatabaseEntries] lists every entry of the database once, the
    newest first, and entries with the same stamp in the order in which the
    database holds them (the order in which the search tries them). *)
Theorem X8_listing_newest_first (db : list StampedEntry) :
  Permutation (getDatabaseEntries db) db /\
  newest_first (getDatabaseEntries db) /\
  forall z, stamped z (getDatabaseEntries db) = stamped z db.
Proof.
  unfold getDatabaseEntries, Array_sort. split; [|split].
  - rewrite Array_sort_perm_acc. reflexivity.
  - apply by_stamp_sort_acc. constructor.
  - intros z. destruct (by_stamp_sort_acc db [] (SSorted_nil _)) as [_ H].
    rewrite H. reflexivity.
Qed.

Lemma sort_insert_newest (x : StampedEntry) (l : list StampedEntry) :
  Forall (fun e => (addedAt e < addedAt x)%Z) l ->
  sort_insert (fun a b => (addedAt b - addedAt a)%Z) x l = x :: l.
Proof.
  intros H. destruct H as [|y l Hy _]; [reflexivity|]. cbn [sort_insert].
  assert (E : (0 <? addedAt x - addedAt y)%Z = true) by (apply Z.ltb_lt; lia).
  rewrite E. reflexivity.
Qed.

Lemma Array_sort_snoc {A} (cmp : A -> A -> Z) (l : list A) (x : A) :
  Array_sort cmp (l ++ [x]) = sort_insert cmp x (Array_sort cmp l).
Proof. unfold Array_sort. rewrite fold_left_app. reflexivity. Qed.

(** X9. After [addDatabaseEntry] at a time later than every stamp in the
    database, the listing shows the new entry first and below it the listing
    as it was. *)
Theorem X9_added_entry_listed_first (new_id : string) (now : Z) (cat : Category)
    (kws : list string) (c : string) (db : list StampedEntry) :
  (forall e, In e db -> (addedAt e < now)%Z) ->
  getDatabaseEntries (addDatabaseEntry new_id now cat kws c db) =
  newEntry new_id now cat kws c :: getDatabaseEntries db.
Proof.
  intros H. unfold getDatabaseEntries, addDatabaseEntry. rewrite Array_sort_snoc.
  apply sort_insert_newest. apply Forall_forall. intros e He.
  apply list_elem_of_In in He.
  assert (Hp : Permutation (Array_sort (fun a b => (addedAt b - addedAt a)%Z) db) db)
    by (unfold Array_sort; rewrite Array_sort_perm_acc; reflexivity).
  apply (Permutation_in _ Hp) in He. cbn [newEntry addedAt]. exact (H e He).
Qed.

Lemma X9_added_entry_listed_first_witness :
  let db := [ {| entry_of := {| id := "a"; category := Info; keywords := ["a"];
                                content := "A" |}; addedAt := 10 |};
              {| entry_of := {| id := "b"; category := Info; keywords := ["b"];
                                content := "B" |}; addedAt := 30 |};
              {| entry_of := {| id := "c"; category := Info; keywords := ["c"];
                                content := "C" |}; addedAt := 10 |} ] in
  (forall e, In e db -> (addedAt e < 40)%Z) /\
  map (fun e => id (entry_of e))
      (getDatabaseEntries (addDatabaseEntry "d" 40 Tech ["d"] "D" db)) = ["d"; "b"; "a"; "c"].
Proof.
  intros db.
  assert (H : forall e, In e db -> (addedAt e < 40)%Z).
  { intros e [<-|[<-|[<-|[]]]]; reflexivity. }
  split; [exact H|].
  rewrite (X9_added_entry_listed_first "d" 40 Tech ["d"] "D" db H). reflexivity.
Defined.

(** ** The text agent *)

Lemma join_app (a b : list string) : join (a ++ b) = (join a ++ join b)%string.
Proof.
  unfold join. induction a as [|x a IH]; [reflexivity|].
  cbn [app fold_right]. rewrite IH, string_app_assoc. reflexivity.
Qed.

Lemma tokens_app (a b : list AgentCall) : tokens (a ++ b) = tokens a ++ tokens b.
Proof. apply flat_map_app. Qed.

Lemma searches_app (a b : list AgentCall) : searches (a ++ b) = searches a ++ searches b.
Proof. apply flat_map_app. Qed.

Lemma sent_app (a b : list AgentCall) : sent (a ++ b) = sent a ++ sent b.
Proof. apply flat_map_app. Qed.

Lemma outbound_app (a b : list AgentCall) : outbound (a ++ b) = outbound a ++ outbound b.
Proof. apply List.filter_app. Qed.

Lemma tokens_onToken (l : list string) : tokens (map agent_onToken l) = l.
Proof. induction l as [|x l IH]; [reflexivity|]. simpl. f_equal. exact IH. Qed.

Lemma searches_onToken (l : list string) : searches (map agent_onToken l) = [].
Proof. induction l as [|x l IH]; [reflexivity|]. exact IH. Qed.

Lemma outbound_onToken (l : list string) : outbound (map agent_onToken l) = [].
Proof. induction l as [|x l IH]; [reflexivity|]. exact IH. Qed.

Lemma outbound_log (type : LogType) (msg : string) (l : list AgentCall) :
  outbound (agent_onLog type msg :: l) = outbound l.
Proof. reflexivity. Qed.

Lemma outbound_send (m : ChatMessage) (l : list AgentCall) :
  outbound (chat_sendMessageStream m :: l) = chat_sendMessageStream m :: outbound l.
Proof. reflexivity. Qed.

Lemma tokens_log (type : LogType) (msg : string) (l : list AgentCall) :
  tokens (agent_onLog type msg :: l) = tokens l.
Proof. reflexivity. Qed.

Lemma tokens_send (m : ChatMessage) (l : list AgentCall) :
  tokens (chat_sendMessageStream m :: l) = tokens l.
Proof. reflexivity. Qed.

(** [for await]: every chunk is read; the texts go to [onToken] in order and
    are joined behind the text so far. *)
Lemma for_await_spec (cs : list Chunk) (textAcc : string) (funcCalls : list FunctionCall)
    (calls : list AgentCall) :
  for_await cs (textAcc, funcCalls) calls =
  (fulfilled ((textAcc ++ join (texts_of cs))%string, funcCalls ++ calls_of cs),
   calls ++ map agent_onToken (texts_of cs)).
Proof.
  revert textAcc funcCalls calls.
  induction cs as [|chunk cs IH]; intros textAcc funcCalls calls.
  - cbn. rewrite string_app_empty_r, !app_nil_r. reflexivity.
  - cbn [for_await texts_of calls_of flat_map]. unfold bind at 1.
    assert (E : consume_chunk chunk (textAcc, funcCalls) calls =
                (fulfilled ((textAcc ++ join (texts_of [chunk]))%string,
                            funcCalls ++ calls_of [chunk]),
                 calls ++ map agent_onToken (texts_of [chunk]))).
    { unfold consume_chunk, texts_of, calls_of. cbn [flat_map].
      destruct (chunk_text chunk) as [t|]; [destruct (truthy t)|];
        destruct (chunk_functionCalls chunk) as [fc|];
        try destruct fc as [|f fc];
        cbn; rewrite ?string_app_empty_r, ?app_nil_r; reflexivity. }
    rewrite E, IH.
    change (texts_of (chunk :: cs)) with (texts_of [chunk] ++ texts_of cs)
      || (unfold texts_of at 3 4; cbn [flat_map]).
    unfold texts_of, calls_of. cbn [flat_map].
    rewrite !app_nil_r, join_app, map_app, string_app_assoc, <- !app_assoc.
    reflexivity.
Qed.

Lemma consumeStream_spec (st : Stream) (calls : list AgentCall) :
  exists o,
    consumeStream st calls = (o, calls ++ map agent_onToken (texts_of (chunks st))) /\
    forall r, o = fulfilled r -> r = (join (texts_of (chunks st)), stream_calls st).
Proof.
  unfold consumeStream, bind. rewrite for_await_spec.
  destruct (thrown st) as [message|].
  - eexists. split; [reflexivity|]. intros r H. discriminate H.
  - eexists. split; [reflexivity|]. intros r [= <-]. reflexivity.
Qed.

(** The loop over the function calls: what it sends and searches is the
    exchange for the queries of the search tool, cut short when the run fails;
    the text it returns is the text it had with what it has streamed behind. *)
Lemma tool_turns_spec (w : World) (fcs : list FunctionCall) :
  forall (textAcc : string) (calls : list AgentCall) o calls',
    tool_turns w fcs textAcc calls = (o, calls') ->
    exists more,
      calls' = calls ++ more /\
      (exists k, exchange w (length (searches calls)) (tool_queries fcs) = outbound more ++ k /\
                 forall t, o = fulfilled t -> k = []) /\
      (forall t, o = fulfilled t -> t = (textAcc ++ join (tokens more))%string).
Proof.
  induction fcs as [|fc fcs IH]; intros textAcc calls o calls' H.
  - cbn in H. injection H as <- <-. exists []. rewrite app_nil_r.
    split; [reflexivity|]. split.
    + exists []. split; [reflexivity|]. reflexivity.
    + intros t [= <-]. cbn. rewrite string_app_empty_r. reflexivity.
  - cbn [tool_turns] in H. unfold tool_queries. cbn [List.filter].
    destruct (String.eqb (fc_name fc) TOOL_NAME) eqn:E.
    2:{ exact (IH _ _ _ _ H). }
    apply String.eqb_eq in E. rewrite E in H.
    unfold bind at 1 2 3 4 in H. unfold call at 1 2, search, chat_send in H.
    cbn [map] in *. fold (tool_queries fcs).
    remember (searchKnowledgeBase (database_at w (length (searches
                (calls ++ [agent_onLog log_rag
                   ("Querying Knowledge Base: " ++ dq ++ fc_query fc ++ dq)]))))
                (fc_query fc)) as result eqn:Hres.
    rewrite searches_app in Hres. cbn in Hres. rewrite app_nil_r in Hres.
    match type of H with
    | context [sendMessageStream w ?h] => destruct (sendMessageStream w h) as [stream2|message]
    end.
    2:{ injection H as <- <-. eexists. rewrite <- !app_assoc. split; [reflexivity|].
        split.
        - eexists. cbn. split; [rewrite <- Hres; reflexivity|]. intros t Ht. discriminate Ht.
        - intros t Ht. discriminate Ht. }
    unfold bind in H.
    match type of H with
    | context [consumeStream stream2 ?c] =>
        destruct (consumeStream_spec stream2 c) as [o2 [E2 Ho2]]
    end.
    rewrite E2 in H. destruct o2 as [outcome|message].
    2:{ injection H as <- <-. eexists. rewrite <- !app_assoc. split; [reflexivity|].
        split.
        - eexists. rewrite !outbound_app, outbound_onToken. cbn.
          split; [rewrite <- Hres; reflexivity|]. intros t Ht. discriminate Ht.
        - intros t Ht. discriminate Ht. }
    specialize (Ho2 _ eq_refl). subst outcome. cbn [fst] in H.
    destruct (IH _ _ _ _ H) as [more [-> [[k [Hk Hk2]] Ht]]].
    eexists. rewrite <- !app_assoc. split; [reflexivity|]. split.
    + exists k. split; [|exact Hk2].
      rewrite !searches_app, searches_onToken in Hk. cbn in Hk.
      rewrite !app_nil_r, length_app, Nat.add_comm in Hk. cbn in Hk.
      rewrite !outbound_app, outbound_onToken. cbn. rewrite <- Hres, Hk. reflexivity.
    + intros t Hf. rewrite (Ht t Hf).
      rewrite !tokens_app, tokens_onToken. cbn. rewrite join_app.
      rewrite string_app_assoc. reflexivity.
Qed.

(** The run of [processTextQuery] up to the speech request, with an API key
    and a first stream: the calls made, and the text when it gets there. *)
Lemma text_turn_spec (w : World) (query : string) (stream1 : Stream) :
  sendMessageStream w [user_message query] = fulfilled stream1 ->
  forall o calls,
    (let* first :=
       (let* _ := call (agent_onLog log_system "Processing query with Gemini 2.5 Flash...") in
        let* _ := call (agent_onLog log_system "Sending query to model...") in
        let* stream1 := chat_send w (user_message query) in
        consumeStream stream1) in
     tool_turns w (snd first) (fst first)) [] = (o, calls) ->
    (exists k, chat_sendMessageStream (user_message query)
               :: exchange w 0 (tool_queries (stream_calls stream1)) = outbound calls ++ k /\
               forall t, o = fulfilled t -> k = []) /\
    (forall t, o = fulfilled t -> t = streamed calls).
Proof.
  intros Hs o calls H.
  unfold bind at 1 2 3 4 in H. unfold call at 1 2, chat_send in H.
  cbn [app sent flat_map] in H. rewrite Hs in H.
  match type of H with
  | context [consumeStream stream1 ?c] =>
      destruct (consumeStream_spec stream1 c) as [o1 [E1 Ho1]]
  end.
  rewrite E1 in H. destruct o1 as [first|message].
  2:{ injection H as <- <-. split.
      - eexists. rewrite !outbound_log, outbound_send, outbound_onToken.
        split; [reflexivity|]. intros t Ht. discriminate Ht.
      - intros t Ht. discriminate Ht. }
  specialize (Ho1 _ eq_refl). subst first. cbn [fst snd] in H.
  destruct (tool_turns_spec _ _ _ _ _ _ H) as [more [-> [[k [Hk Hk2]] Ht]]].
  split.
  - exists k. split; [|exact Hk2].
    rewrite searches_app, searches_onToken in Hk. cbn [searches flat_map app length] in Hk.
    rewrite !outbound_app, outbound_onToken, !outbound_log, outbound_send.
    cbn [outbound List.filter app]. rewrite Hk. reflexivity.
  - intros t Hf. rewrite (Ht t Hf). unfold streamed.
    rewrite !tokens_app, tokens_onToken, !tokens_log, tokens_send.
    cbn [tokens flat_map app]. rewrite join_app. reflexivity.
Qed.

Lemma processTextQuery_eq (w : World) (query : string) (calls : list AgentCall) :
  truthy_opt (API_KEY w) = true ->
  processTextQuery w query calls =
  (let* textAcc :=
     (let* first :=
        (let* _ := call (agent_onLog log_system "Processing query with Gemini 2.5 Flash...") in
         let* _ := call (agent_onLog log_system "Sending query to model...") in
         let* stream1 := chat_send w (user_message query) in
         consumeStream stream1) in
      tool_turns w (snd first) (fst first)) in
   let answerText := if truthy textAcc then textAcc else NO_TEXT in
   let* _ := call (agent_onLog log_system "Synthesizing speech from response...") in
   let* audioBase64 := speak w answerText in
   match audioBase64 with
   | Some data => if truthy data then ret (answerText, data)
                  else throw "Failed to generate speech audio"
   | None => throw "Failed to generate speech audio"
   end) calls.
Proof.
  intros Hk. unfold processTextQuery. rewrite Hk. cbn [negb].
  unfold bind, call, chat_send.
  destruct (sendMessageStream w _) as [stream1|message]; [|reflexivity].
  destruct (consumeStream stream1 _) as [[first|message] calls1]; reflexivity.
Qed.

Lemma text_turn_text (w : World) (query : string) (o : Outcome string)
    (calls : list AgentCall) :
  (let* first :=
     (let* _ := call (agent_onLog log_system "Processing query with Gemini 2.5 Flash...") in
      let* _ := call (agent_onLog log_system "Sending query to model...") in
      let* stream1 := chat_send w (user_message query) in
      consumeStream stream1) in
   tool_turns w (snd first) (fst first)) [] = (o, calls) ->
  forall t, o = fulfilled t -> t = streamed calls.
Proof.
  intros H. destruct (sendMessageStream w [user_message query]) as [stream1|message] eqn:Hs.
  - exact (proj2 (text_turn_spec w query stream1 Hs o calls H)).
  - unfold bind, call, chat_send in H. cbn [app sent flat_map] in H.
    rewrite Hs in H. injection H as <- <-. intros t Ht. discriminate Ht.
Qed.

(** A fulfilled run: its last two calls are the log line and the speech
    request for the text returned, which is the text streamed before them. *)
Lemma processTextQuery_fulfilled (w : World) (query text audio : string)
    (calls : list AgentCall) :
  processTextQuery w query [] = (fulfilled (text, audio), calls) ->
  exists calls1,
    calls = (calls1 ++ [agent_onLog log_system "Synthesizing speech from response..."]) ++
            [models_generateContent text] /\
    streamed calls = streamed calls1 /\
    text = (if truthy (streamed calls1) then streamed calls1 else NO_TEXT) /\
    truthy audio = true /\
    generateContent w text = fulfilled (Some audio).
Proof.
  intros H. destruct (truthy_opt (API_KEY w)) eqn:Hk.
  2:{ unfold processTextQuery in H. rewrite Hk in H. discriminate H. }
  rewrite (processTextQuery_eq w query [] Hk) in H. unfold bind at 1 in H.
  match type of H with
  | context [match ?m [] with _ => _ end] => destruct (m []) as [[t|message] calls1] eqn:E
  end; [|discriminate H].
  pose proof (text_turn_text w query _ _ E t eq_refl) as Ht.
  unfold bind, call, speak in H.
  destruct (generateContent w (if truthy t then t else NO_TEXT)) as [[data|]|message] eqn:G;
    try discriminate H.
  destruct (truthy data) eqn:Hd; [|discriminate H].
  injection H as <- <- <-. exists calls1. rewrite <- Ht.
  split; [reflexivity|]. split; [|split; [reflexivity|split; [exact Hd|exact G]]].
  unfold streamed. rewrite !tokens_app. cbn [tokens flat_map app].
  rewrite !app_nil_r. rewrite Ht. reflexivity.
Qed.

(** X10. When [processTextQuery] fulfils its promise, the [text] it returns
    is the tokens it has given to [onToken], joined in their order, or the
    sentence "I processed your request ..." when it has given none. The audio
    that comes with it is not empty and is what the speech model returned for
    that very text, in the last call of the run. *)
Theorem X10_text_is_the_streamed_text (w : World) (query text audio : string)
    (calls : list AgentCall) :
  processTextQuery w query [] = (fulfilled (text, audio), calls) ->
  text = (if truthy (streamed calls) then streamed calls else NO_TEXT) /\
  truthy audio = true /\
  generateContent w text = fulfilled (Some audio) /\
  last calls = Some (models_generateContent text).
Proof.
  intros H.
  destruct (processTextQuery_fulfilled w query text audio calls H)
    as [calls1 [Hc [Hs [Ht [Ha Hg]]]]].
  rewrite Hs. split; [exact Ht|]. split; [exact Ha|]. split; [exact Hg|].
  rewrite Hc. apply last_snoc.
Qed.

Lemma X10_text_is_the_streamed_text_witness :
  processTextQuery example_world "Can I return it?" [] =
    (fulfilled ("Thirty days. Thirty days. ", "UklGRg"), example_calls) /\
  "Thirty days. Thirty days. " =
    (if truthy (streamed example_calls) then streamed example_calls else NO_TEXT).
Proof.
  assert (H : processTextQuery example_world "Can I return it?" [] =
              (fulfilled ("Thirty days. Thirty days. ", "UklGRg"), example_calls))
    by (vm_compute; reflexivity).
  split; [exact H|].
  exact (proj1 (X10_text_is_the_streamed_text example_world _ _ _ _ H)).
Defined.

(** X11. In a run of [processTextQuery] whose first stream is [stream1], the
    calls to the chat and to the knowledge base are, in this order: the user's
    query sent, then for each function call of [stream1] that names the search
    tool, in the order of the stream, one search and the sending of its result
    under the tool's name. A fulfilled run has made them all, a failed run the
    first of them. Nothing else is searched or sent: calls of other tools get
    no response, and function calls that the later streams carry are dropped. *)
Theorem X11_chat_and_lookups (w : World) (query : string) (stream1 : Stream)
    (o : Outcome (string * string)) (calls : list AgentCall) :
  sendMessageStream w [user_message query] = fulfilled stream1 ->
  processTextQuery w query [] = (o, calls) ->
  exists rest,
    chat_sendMessageStream (user_message query)
    :: exchange w 0 (tool_queries (stream_calls stream1)) = outbound calls ++ rest /\
    (forall r, o = fulfilled r -> rest = []).
Proof.
  intros Hs H. destruct (truthy_opt (API_KEY w)) eqn:Hk.
  2:{ unfold processTextQuery in H. rewrite Hk in H. injection H as <- <-.
      eexists. split; [reflexivity|]. intros r Hr. discriminate Hr. }
  rewrite (processTextQuery_eq w query [] Hk) in H. unfold bind at 1 in H.
  match type of H with
  | context [match ?m [] with _ => _ end] => destruct (m []) as [o1 calls1] eqn:E
  end.
  destruct (text_turn_spec w query stream1 Hs _ _ E) as [[k [Hk1 Hk2]] _].
  destruct o1 as [t|message].
  2:{ injection H as <- <-. exists k. split; [exact Hk1|]. intros r Hr. discriminate Hr. }
  rewrite (Hk2 t eq_refl), app_nil_r in Hk1.
  unfold bind, call, speak in H.
  assert (Hc : calls = (calls1 ++ [agent_onLog log_system
                                     "Synthesizing speech from response..."]) ++
                       [models_generateContent (if truthy t then t else NO_TEXT)]).
  { destruct (generateContent w _) as [[data|]|message]; [destruct (truthy data)| |];
      injection H as _ <-; reflexivity. }
  exists []. rewrite Hc, !outbound_app. cbn [outbound List.filter].
  rewrite !app_nil_r. split; [exact Hk1|]. reflexivity.
Qed.

Lemma X11_chat_and_lookups_witness :
  sendMessageStream example_world [user_message "Can I return it?"] =
    fulfilled example_stream /\
  processTextQuery example_world "Can I return it?" [] =
    (fulfilled ("Thirty days. Thirty days. ", "UklGRg"), example_calls) /\
  outbound example_calls =
  [ chat_sendMessageStream (user_message "Can I return it?");
    agent_searchKnowledgeBase (fc_query call_1);
    chat_sendMessageStream
      (functionResponse TOOL_NAME (searchKnowledgeBase INITIAL_DATA (fc_query call_1)));
    agent_searchKnowledgeBase (fc_query call_3);
    chat_sendMessageStream
      (functionResponse TOOL_NAME (searchKnowledgeBase INITIAL_DATA (fc_query call_3))) ].
Proof.
  assert (H1 : sendMessageStream example_world [user_message "Can I return it?"] =
               fulfilled example_stream) by reflexivity.
  assert (H2 : processTextQuery example_world "Can I return it?" [] =
               (fulfilled ("Thirty days. Thirty days. ", "UklGRg"), example_calls))
    by (vm_compute; reflexivity).
  split; [exact H1|]. split; [exact H2|].
  destruct (X11_chat_and_lookups example_world _ _ _ _ H1 H2) as [rest [H Hrest]].
  rewrite (Hrest _ eq_refl), app_nil_r in H. rewrite <- H. reflexivity.
Defined.

(** ** The transcript *)

Lemma alternating_snoc_same (init : list TranscriptEntry) (l l' : TranscriptEntry) :
  sender l' = sender l -> alternating (init ++ [l]) -> alternating (init ++ [l']).
Proof.
  intros Hs. induction init as [|a init IH]; cbn [app alternating]; [tauto|].
  intros [H1 H2]. split; [|exact (IH H2)].
  destruct init as [|b init]; cbn [app] in *; [rewrite Hs|]; exact H1.
Qed.

Lemma alternating_snoc_other (init : list TranscriptEntry) (l new : TranscriptEntry) :
  sender l <> sender new -> alternating (init ++ [l]) ->
  alternating ((init ++ [l]) ++ [new]).
Proof.
  intros Hs. induction init as [|a init IH]; cbn [app alternating].
  - intros _. split; [exact Hs|]. split; exact I.
  - intros [H1 H2]. split; [|exact (IH H2)].
    destruct init as [|b init]; cbn [app] in *; exact H1.
Qed.

Lemma said_app (sndr : Sender) (a b : list TranscriptEntry) :
  said sndr (a ++ b) = (said sndr a ++ said sndr b)%string.
Proof. unfold said. rewrite List.filter_app. apply transcript_text_app. Qed.

Lemma said_one (sndr : Sender) (e : TranscriptEntry) :
  said sndr [e] = if Sender_eqb (sender e) sndr then text e else EmptyString.
Proof.
  unfold said. cbn [List.filter]. destruct (Sender_eqb (sender e) sndr); [|reflexivity].
  cbn. apply string_app_empty_r.
Qed.

Lemma onTranscript_step (txt : string) (isFinal : bool) (s : Sender)
    (prev : list TranscriptEntry) :
  (alternating prev -> alternating (onTranscript txt isFinal s prev)) /\
  forall sndr, said sndr (onTranscript txt isFinal s prev) =
               (said sndr prev ++ (if Sender_eqb s sndr then txt else EmptyString))%string.
Proof.
  destruct (last_cases prev) as [->|[init [l ->]]].
  - split; [intros _; cbn; tauto|]. intros sndr.
    change (onTranscript txt isFinal s []) with [ {| sender := s; text := txt |} ].
    rewrite said_one. reflexivity.
  - destruct (Sender_eqb (sender l) s) eqn:E.
    + apply Sender_eqb_eq in E. subst s. rewrite onTranscript_same. split.
      * apply alternating_snoc_same. reflexivity.
      * intros sndr. rewrite !said_app, !said_one. cbn [sender text].
        rewrite string_app_assoc.
        destruct (Sender_eqb (sender l) sndr); reflexivity.
    + apply Sender_eqb_neq in E. rewrite onTranscript_other by exact E. split.
      * apply alternating_snoc_other. exact E.
      * intros sndr. rewrite (said_app sndr (init ++ [l])), said_one. reflexivity.
Qed.

(** X12. Whatever [onTranscript] calls arrive, the transcript built from the
    empty one never has two neighbouring entries of the same sender, and what
    each sender has said in it is the text of that sender's deltas, joined in
    the order of their arrival: no delta is lost, doubled or moved. *)
Theorem X12_transcript_alternates (deltas : list (string * bool * Sender)) :
  alternating (transcript_after deltas []) /\
  forall sndr, said sndr (transcript_after deltas []) = delta_text sndr deltas.
Proof.
  assert (H : forall prev,
             alternating prev ->
             alternating (transcript_after deltas prev) /\
             forall sndr, said sndr (transcript_after deltas prev) =
                          (said sndr prev ++ delta_text sndr deltas)%string).
  { induction deltas as [|[[txt f] s] deltas IH]; intros prev Hp.
    - split; [exact Hp|]. intros sndr. cbn. rewrite string_app_empty_r. reflexivity.
    - cbn [transcript_after fold_left fst snd].
      destruct (onTranscript_step txt f s prev) as [Ha Hs].
      destruct (IH _ (Ha Hp)) as [IH1 IH2]. split; [exact IH1|].
      intros sndr. unfold transcript_after in IH2. rewrite IH2, Hs.
      unfold delta_text. cbn [List.filter snd].
      destruct (Sender_eqb s sndr); cbn [map fst join fold_right].
      + rewrite string_app_assoc. reflexivity.
      + rewrite string_app_empty_r. reflexivity. }
  destruct (H [] I) as [H1 H2]. split; [exact H1|]. intros sndr. rewrite H2. reflexivity.
Qed.

Lemma onToken_agent (token : string) (init : list TranscriptEntry) (x : string) :
  onToken token (init ++ [ {| sender := agent; text := x |} ]) =
  init ++ [ {| sender := agent; text := x ++ token |} ].
Proof. unfold onToken. rewrite last_snoc. cbn [sender Sender_eqb text]. apply insert_last_snoc. Qed.

Lemma onToken_user (token : string) (init : list TranscriptEntry) (x : string) :
  onToken token (init ++ [ {| sender := user; text := x |} ]) =
  init ++ [ {| sender := user; text := x |} ].
Proof. unfold onToken. rewrite last_snoc. reflexivity. Qed.

Lemma tokens_after_user (ts : list string) (init : list TranscriptEntry) (x : string) :
  fold_left (fun tr token => onToken token tr) ts (init ++ [ {| sender := user; text := x |} ]) =
  init ++ [ {| sender := user; text := x |} ].
Proof.
  induction ts as [|t ts IH]; [reflexivity|]. cbn [fold_left]. rewrite onToken_user. exact IH.
Qed.

Lemma tokens_after_agent (ts : list string) (init : list TranscriptEntry) (x : string) :
  fold_left (fun tr token => onToken token tr) ts (init ++ [ {| sender := agent; text := x |} ]) =
  init ++ [ {| sender := agent; text := x ++ join ts |} ].
Proof.
  revert x. induction ts as [|t ts IH]; intros x.
  - cbn. rewrite string_app_empty_r. reflexivity.
  - cbn [fold_left]. rewrite onToken_agent, IH. cbn [join fold_right].
    rewrite string_app_assoc. reflexivity.
Qed.

Lemma set_answer_agent (answer : string) (init : list TranscriptEntry) (x : string) :
  set_answer answer (init ++ [ {| sender := agent; text := x |} ]) =
  init ++ [ {| sender := agent; text := answer |} ].
Proof.
  unfold set_answer. rewrite last_snoc. cbn [sender Sender_eqb text]. apply insert_last_snoc.
Qed.

(** X13. While the answer of a text turn streams in, the transcript shows
    the user's query and the agent's entry with the tokens joined that came
    after the entry was there; tokens that came before it are dropped. When
    [processTextQuery] has returned, the text returned is set in the agent's
    entry only if the connection state is [DISCONNECTED] and the playback of
    the answer has started: the transcript then ends with the query and the
    text returned. In every other connection state, and when the playback
    fails, the transcript stays as it has streamed, without the dropped
    tokens. When the agent's entry was there before the first token and some
    text has streamed, the transcript ends with the text returned in every
    case. *)
Theorem X13_text_turn_transcript (w : World) (userQuery text audio : string)
    (calls : list AgentCall) (early late : list string) (prev : list TranscriptEntry) :
  processTextQuery w userQuery [] = (fulfilled (text, audio), calls) ->
  tokens calls = early ++ late ->
  streaming_transcript userQuery early late prev =
    prev ++ [ {| sender := user; text := userQuery |};
              {| sender := agent; text := join late |} ] /\
  text_turn_transcript userQuery early late text DISCONNECTED (fulfilled tt) prev =
    prev ++ [ {| sender := user; text := userQuery |}; {| sender := agent; text := text |} ] /\
  (forall (connectionState : ConnectionState) (playback : Outcome unit),
      connectionState <> DISCONNECTED ->
      text_turn_transcript userQuery early late text connectionState playback prev =
      streaming_transcript userQuery early late prev) /\
  (forall (connectionState : ConnectionState) (message : string),
      text_turn_transcript userQuery early late text connectionState (rejected message) prev =
      streaming_transcript userQuery early late prev) /\
  (early = [] -> truthy (streamed calls) = true ->
   forall (connectionState : ConnectionState) (playback : Outcome unit),
     text_turn_transcript userQuery early late text connectionState playback prev =
     prev ++ [ {| sender := user; text := userQuery |}; {| sender := agent; text := text |} ]).
Proof.
  intros H Hsplit.
  assert (Hs : streaming_transcript userQuery early late prev =
               prev ++ [ {| sender := user; text := userQuery |};
                         {| sender := agent; text := join late |} ]).
  { unfold streaming_transcript. rewrite tokens_after_user, tokens_after_agent.
    rewrite <- app_assoc. reflexivity. }
  assert (Hf : text_turn_transcript userQuery early late text DISCONNECTED (fulfilled tt) prev =
               prev ++ [ {| sender := user; text := userQuery |};
                         {| sender := agent; text := text |} ]).
  { unfold text_turn_transcript. cbv zeta. rewrite Hs.
    change (prev ++ [ {| sender := user; text := userQuery |};
                      {| sender := agent; text := join late |} ])
      with (prev ++ [ {| sender := user; text := userQuery |} ] ++
                    [ {| sender := agent; text := join late |} ]).
    rewrite app_assoc, set_answer_agent, <- app_assoc. reflexivity. }
  split; [exact Hs|]. split; [exact Hf|]. split; [|split].
  - intros st pl Hst. unfold text_turn_transcript. cbv zeta.
    destruct st; [exfalso; apply Hst; reflexivity | reflexivity..].
  - intros st msg. unfold text_turn_transcript. cbv zeta. destruct st; reflexivity.
  - intros He Ht st pl.
    assert (Hsame : streaming_transcript userQuery early late prev =
                    prev ++ [ {| sender := user; text := userQuery |};
                              {| sender := agent; text := text |} ]).
    { rewrite Hs.
      destruct (processTextQuery_fulfilled w userQuery text audio calls H)
        as [calls1 [_ [Hs1 [Htext _]]]].
      rewrite <- Hs1, Ht in Htext. rewrite Htext. unfold streamed.
      rewrite Hsplit, He. reflexivity. }
    destruct st; [destruct pl as [[]|msg]; [rewrite Hf; reflexivity|]|..];
      unfold text_turn_transcript; cbv zeta; exact Hsame.
Qed.

(** The first token arrives before the agent's entry is there. With the
    playback started the transcript ends with the text returned; in the
    connection state [ERROR] it keeps the text as it has streamed, without
    the first token. *)
Lemma X13_text_turn_transcript_witness :
  processTextQuery example_world "Can I return it?" [] =
    (fulfilled ("Thirty days. Thirty days. ", "UklGRg"), example_calls) /\
  tokens example_calls = ["Thirty"] ++ [" days. "; "Thirty"; " days. "] /\
  streaming_transcript "Can I return it?" ["Thirty"] [" days. "; "Thirty"; " days. "] [] =
    [ {| sender := user; text := "Can I return it?" |};
      {| sender := agent; text := " days. Thirty days. " |} ] /\
  text_turn_transcript "Can I return it?" ["Thirty"] [" days. "; "Thirty"; " days. "]
      "Thirty days. Thirty days. " DISCONNECTED (fulfilled tt) [] =
    [ {| sender := user; text := "Can I return it?" |};
      {| sender := agent; text := "Thirty days. Thirty days. " |} ] /\
  ERROR <> DISCONNECTED /\
  text_turn_transcript "Can I return it?" ["Thirty"] [" days. "; "Thirty"; " days. "]
      "Thirty days. Thirty days. " ERROR (fulfilled tt) [] =
    [ {| sender := user; text := "Can I return it?" |};
      {| sender := agent; text := " days. Thirty days. " |} ].
Proof.
  assert (H1 : processTextQuery example_world "Can I return it?" [] =
               (fulfilled ("Thirty days. Thirty days. ", "UklGRg"), example_calls))
    by (vm_compute; reflexivity).
  assert (H2 : tokens example_calls = ["Thirty"] ++ [" days. "; "Thirty"; " days. "])
    by reflexivity.
  assert (H3 : ERROR <> DISCONNECTED) by discriminate.
  split; [exact H1|]. split; [exact H2|].
  destruct (X13_text_turn_transcript example_world _ _ _ _ _ _ [] H1 H2)
    as [Ha [Hb [Hc _]]].
  split; [exact Ha|]. split; [exact Hb|]. split; [exact H3|].
  rewrite (Hc ERROR (fulfilled tt) H3). exact Ha.
Defined.

(** ** The duration display *)

Lemma read_padded (n : nat) : read_number (padStart2 (Number_toString n)) = Some n.
Proof.
  unfold read_number, padStart2, Number_toString.
  pose proof (DecimalNat.Unsigned.of_to n) as Hn.
  pose proof (DecimalString.NilEmpty.usu (Nat.to_uint n)) as Hu.
  destruct (DecimalString.NilEmpty.string_of_uint (Nat.to_uint n)) as [|c1 [|c2 s]] eqn:E;
    cbn [String.length].
  - destruct (Nat.to_uint n); try discriminate E. cbn in Hn. subst n. reflexivity.
  - cbn [DecimalString.NilEmpty.uint_of_string] in *. rewrite Hu.
    cbn [DecimalString.uint_of_char option_map]. f_equal. exact Hn.
  - rewrite Hu. cbn [option_map]. f_equal. exact Hn.
Qed.

Lemma digits_no_colon (a b : string) (n : nat) :
  read_number a = Some n ->
  before_colon (a ++ String ":" b) = a /\ after_colon (a ++ String ":" b) = b.
Proof.
  unfold read_number. revert n. induction a as [|c a IH]; intros n H.
  - split; reflexivity.
  - change ((String c a ++ String ":" b)%string) with (String c (a ++ String ":" b)%string).
    cbn [before_colon after_colon].
    cbn [DecimalString.NilEmpty.uint_of_string] in H.
    destruct (DecimalString.NilEmpty.uint_of_string a) as [d|] eqn:Ea.
    2:{ discriminate H. }
    destruct (Ascii.eqb c ":") eqn:Ec.
    + apply Ascii.eqb_eq in Ec. subst c. discriminate H.
    + destruct (IH _ eq_refl) as [H1 H2]. rewrite H1, H2. split; reflexivity.
Qed.

Lemma formatTime_read (n : nat) :
  read_number (before_colon (formatTime n)) = Some (n / 60)%nat /\
  read_number (after_colon (formatTime n)) = Some (n mod 60)%nat.
Proof.
  unfold formatTime. cbv zeta.
  change (":" ++ padStart2 (Number_toString (n mod 60)))%string
    with (String ":" (padStart2 (Number_toString (n mod 60)))).
  destruct (digits_no_colon _ (padStart2 (Number_toString (n mod 60))) _
              (read_padded (n / 60))) as [H1 H2].
  rewrite H1, H2. split; apply read_padded.
Qed.

Lemma formatTime_below_6000 :
  forallb (fun n => String.eqb (formatTime n) (mm_ss (n / 60) (n mod 60)))
          (seq 0 (60 * 100)) = true.
Proof. vm_compute. reflexivity. Qed.

(** X14. [formatTime] shows different numbers of seconds differently, and a
    time below 100 minutes as [mm:ss], two digits of minutes and two of
    seconds; no display is shorter than that. *)
Theorem X14_formatTime_display :
  (forall a b, formatTime a = formatTime b -> a = b) /\
  (forall n, (n / 60 < 100)%nat -> formatTime n = mm_ss (n / 60) (n mod 60)) /\
  (forall n, (5 <= String.length (formatTime n))%nat).
Proof.
  split; [|split].
  - intros a b H.
    destruct (formatTime_read a) as [A1 A2]. destruct (formatTime_read b) as [B1 B2].
    rewrite H in A1, A2.
    assert (E1 : (a / 60 = b / 60)%nat) by congruence.
    assert (E2 : (a mod 60 = b mod 60)%nat) by congruence.
    rewrite (Nat.div_mod_eq a 60), (Nat.div_mod_eq b 60), E1, E2. reflexivity.
  - intros n Hn. pose proof formatTime_below_6000 as H.
    rewrite forallb_forall in H. apply String.eqb_eq. apply H.
    apply in_seq. split; [lia|]. cbn [Nat.add].
    destruct (Nat.lt_ge_cases n (60 * 100)) as [Hlt|Hge]; [exact Hlt|].
    apply (Nat.div_le_lower_bound n 60 100) in Hge; lia.
  - intros n. unfold formatTime. cbv zeta.
    assert (Hp : forall s, (2 <= String.length (padStart2 s))%nat).
    { intros s. unfold padStart2. destruct s as [|c1 [|c2 s]]; cbn; lia. }
    assert (Hl : forall a b, String.length (a ++ b) = (String.length a + String.length b)%nat).
    { intros a b. induction a as [|c a IH]; [reflexivity|].
      change ((String c a ++ b)%string) with (String c (a ++ b)%string).
      cbn [String.length]. rewrite IH. reflexivity. }
    rewrite !Hl. pose proof (Hp (Number_toString (n / 60))).
    pose proof (Hp (Number_toString (n mod 60))). cbn [String.length]. lia.
Qed.

(** ** Hanging up *)

(** X15. Tasks that bring no message, [disconnect()] and a later [connect()]
    among them, make no call on a buffer source and leave [nextStartTime] as it
    is: hanging up stops no source, and the first buffer of the next session is
    started at the later of its clock and the cursor that the session before
    has left, so at that old cursor when the new clock is behind it. *)
Theorem X15_hang_up_keeps_cursor (s : State) (es : list Event) (m : LiveServerMessage)
    (now duration : Q) :
  Forall no_message es ->
  has_audio m (fst (run es s)) = true ->
  audio (snd (run es s)) = [] /\
  starts (snd (process m now (fulfilled duration) (fst (run es s)))) =
    [(Qmax (nextStartTime s) now, duration)] /\
  ((now <= nextStartTime s)%Q -> (Qmax (nextStartTime s) now == nextStartTime s)%Q).
Proof.
  intros Hes Ha. destruct (run_no_message es s Hes) as [Hn Hcalls].
  split; [exact Hcalls|]. split.
  - rewrite (enqueue_start m now duration _ Ha), Hn. reflexivity.
  - intros Hle. apply Q.max_l. exact Hle.
Qed.

Lemma X15_hang_up_keeps_cursor_witness :
  Forall no_message hang_up_and_reconnect /\
  has_audio (audio_message "CCCC") (fst (run hang_up_and_reconnect two_buffers_scheduled))
    = true /\
  (nextStartTime two_buffers_scheduled == 2)%Q /\
  starts (snd (process (audio_message "CCCC") 0%Q (fulfilled 1%Q)
                 (fst (run hang_up_and_reconnect two_buffers_scheduled)))) =
    [(Qmax (nextStartTime two_buffers_scheduled) 0, 1%Q)].
Proof.
  assert (Hes : Forall no_message hang_up_and_reconnect) by (repeat constructor).
  assert (Ha : has_audio (audio_message "CCCC")
                 (fst (run hang_up_and_reconnect two_buffers_scheduled)) = true)
    by (vm_compute; reflexivity).
  split; [exact Hes|]. split; [exact Ha|]. split; [vm_compute; reflexivity|].
  exact (proj1 (proj2 (X15_hang_up_keeps_cursor two_buffers_scheduled hang_up_and_reconnect
                         (audio_message "CCCC") 0%Q 1%Q Hes Ha))).
Defined.

Lemma context_then (p : PromiseId) (cb : Callback) (s : State) :
  outputAudioContext (then_ p cb s) = outputAudioContext s.
Proof. unfold then_. destruct (promises s !! p) as [[cbs|session]|]; reflexivity. Qed.

Lemma context_resolve (p : PromiseId) (session : Session) (s : State) :
  outputAudioContext (resolve p session s) = outputAudioContext s.
Proof. unfold resolve. destruct (promises s !! p) as [[cbs|session']|]; reflexivity. Qed.

(** Without an output context a task starts no buffer, and unless it is a
    successful [getUserMedia] it leaves the service without one. *)
Lemma step_without_context (e : Event) (s : State) :
  no_new_context e ->
  outputAudioContext s = false ->
  outputAudioContext (fst (step e s)) = false /\ starts (snd (step e s)) = [].
Proof.
  intros He Hc.
  assert (Hf : outputAudioContext (fresh_task s) = false) by exact Hc.
  destruct e as [|t r|t r| | |msg|m now|t r|t|source| |db].
  1-6, 9-12:
    (split;
     [| rewrite <- starts_audio;
        match goal with
        | |- context [step ?e ?s0] => rewrite (proj2 (step_no_message e s0 I))
        end; reflexivity]).
  - exact Hc.
  - destruct r as [[]|message]; [contradiction|].
    rewrite step_eq. cbn [fst handle]. unfold resume_getUserMedia.
    destruct (tasks (fresh_task s) !! t) as [[]|]; exact Hc.
  - rewrite step_eq. cbn [fst handle]. unfold resume_live_connect.
    destruct (tasks (fresh_task s) !! t) as [[]|]; try exact Hc.
    destruct r as [session|message]; [|exact Hc].
    destruct (sessionResolver (fresh_task s)) as [p|]; [|exact Hc].
    change (outputAudioContext (resolve p session (fresh_task s)) = false).
    rewrite context_resolve. exact Hc.
  - exact Hc.
  - exact Hc.
  - exact Hc.
  - rewrite step_eq. cbn [fst handle]. unfold resume_lookup.
    destruct (tasks (fresh_task s) !! t) as [[| | | | |fc rest]|]; try exact Hc.
    change (outputAudioContext (tool_loop t rest ?x)) with (outputAudioContext (tool_loop t rest x)).
    match goal with
    | |- outputAudioContext (fresh_task (tool_loop t rest ?x)) = false =>
        change (outputAudioContext (tool_loop t rest x) = false);
        rewrite (proj1 (context_tool_loop t rest x))
    end.
    destruct (sessionPromise _) as [p|]; [rewrite context_then|]; exact Hc.
  - exact Hc.
  - reflexivity.
  - exact Hc.
  - assert (Ha : has_audio m s = false).
    { unfold has_audio. rewrite Hc, andb_false_r. reflexivity. }
    pose proof (step_message_no_audio m now s Ha) as Hh.
    split.
    + rewrite step_eq. cbn [fst]. rewrite Hh.
      change (outputAudioContext (fresh_task ?x)) with (outputAudioContext x).
      rewrite (proj1 (context_after_audio _ m _)). exact Hc.
    + rewrite starts_step, Hh.
      pose proof (playback_after_audio (length (tasks s)) m
                    (set_tasks (tasks s ++ [Running]) (fresh_task s))) as Hp.
      destruct (interrupted m) eqn:Hi.
      * rewrite (playback_handle_interruption m _ Hi) in Hp.
        unfold playback in Hp. injection Hp as _ _ _ H2 H3. rewrite H2, H3.
        cbn [out microtasks set_tasks fresh_task set_microtasks set_out audio List.filter app].
        rewrite starts_source_stop. reflexivity.
      * rewrite (handle_interruption_false m _ Hi) in Hp.
        unfold playback in Hp. injection Hp as _ _ _ H2 H3. rewrite H2, H3. reflexivity.
  - rewrite step_eq. cbn [fst snd handle]. unfold resume_decode.
    destruct (tasks (fresh_task s) !! t) as [[| | | |m|]|]; try (split; [exact Hc|reflexivity]).
    destruct r as [duration|message]; [rewrite Hf|]; split; try exact Hc; reflexivity.
Qed.

(** X16. After [disconnect()] no buffer is started, whatever arrives (messages
    of the old session with audio, decodes that were pending and now settle,
    lookups that complete), until a [connect()] has got the microphone and
    created a new output context. *)
Theorem X16_no_playback_after_disconnect (s : State) (es : list Event) :
  Forall no_new_context es ->
  starts (snd (run (disconnect_called :: es) s)) = [].
Proof.
  intros Hes. rewrite run_cons. cbn [snd]. rewrite starts_app.
  assert (Hd : starts (snd (step disconnect_called s)) = []).
  { rewrite <- starts_audio. rewrite (proj2 (step_no_message disconnect_called s I)).
    reflexivity. }
  assert (Hc : outputAudioContext (fst (step disconnect_called s)) = false) by reflexivity.
  rewrite Hd. cbn [app]. remember (fst (step disconnect_called s)) as s1 eqn:E. clear E Hd.
  revert s1 Hc. induction es as [|e es IH]; intros s1 Hc; [reflexivity|].
  inversion Hes as [|? ? He Hes']; subst.
  destruct (step_without_context e s1 He Hc) as [H1 H2].
  rewrite run_cons. cbn [snd]. rewrite starts_app, H2. cbn [app]. apply IH; assumption.
Qed.

Lemma X16_no_playback_after_disconnect_witness :
  Forall no_new_context late_audio /\
  starts (snd (run (disconnect_called :: late_audio) decode_pending)) = [] /\
  length (starts (snd (run late_audio decode_pending))) = 2%nat.
Proof.
  assert (Hes : Forall no_new_context late_audio) by (repeat constructor).
  split; [exact Hes|]. split; [|reflexivity].
  exact (X16_no_playback_after_disconnect decode_pending late_audio Hes).
Defined.

(** ** Closing the session *)

Lemma closes_app (a b : list Effect) : closes (a ++ b) = (closes a + closes b)%nat.
Proof. unfold closes. rewrite List.filter_app, length_app. reflexivity. Qed.

Lemma closes_callbacks (session : Session) (cbs : list Callback) :
  closes (map (run_callback session) cbs) = length (List.filter is_cb_close cbs).
Proof.
  unfold closes. induction cbs as [|cb cbs IH]; [reflexivity|].
  destruct cb; cbn; rewrite <- IH; reflexivity.
Qed.

Lemma closes_source_stop (l : list SourceId) : closes (map source_stop l) = 0%nat.
Proof. unfold closes. induction l as [|x l IH]; [reflexivity|]. exact IH. Qed.

Lemma due_insert (ps : list Promise) (p : PromiseId) (x y : Promise) :
  ps !! p = Some x ->
  (list_sum (map closes_of (<[ p := y ]> ps)) + closes_of x =
   list_sum (map closes_of ps) + closes_of y)%nat.
Proof.
  unfold list_sum. revert p. induction ps as [|z ps IH]; intros p H; [discriminate H|].
  destruct p as [|p].
  - cbn in *. injection H as ->. lia.
  - change ((z :: ps) !! S p) with (ps !! p) in H.
    change (<[ S p := y ]> (z :: ps)) with (z :: <[ p := y ]> ps).
    specialize (IH p H). cbn [map foldr].
    match goal with
    | |- (?a + ?b + ?c = ?a + ?d + ?e)%nat =>
        enough (Hsum : (b + c = d + e)%nat) by lia; exact IH
    end.
Qed.

Lemma budget_emit (e : Effect) (s : State) :
  is_close e = false -> close_budget (emit e s) = close_budget s.
Proof.
  intros He. unfold close_budget, closes_due. cbn [emit set_out out microtasks promises].
  rewrite closes_app. unfold closes at 2. cbn [List.filter]. rewrite He. cbn. lia.
Qed.

Lemma budget_same (s' s : State) :
  promises s' = promises s -> out s' = out s -> microtasks s' = microtasks s ->
  close_budget s' = close_budget s.
Proof. intros H1 H2 H3. unfold close_budget, closes_due. rewrite H1, H2, H3. reflexivity. Qed.

Lemma budget_set_task (t : TaskId) (st : Task) (s : State) :
  close_budget (set_task t st s) = close_budget s.
Proof. reflexivity. Qed.

Lemma budget_then (p : PromiseId) (cb : Callback) (s : State) :
  (close_budget (then_ p cb s) <= close_budget s + (if is_cb_close cb then 1 else 0))%nat.
Proof.
  unfold then_. destruct (promises s !! p) as [[cbs|session]|] eqn:E; [| |lia].
  - unfold close_budget, closes_due.
    cbn [set_promises promises out microtasks].
    pose proof (due_insert (promises s) p (Pending cbs) (Pending (cbs ++ [cb])) E) as H.
    cbn [closes_of] in H. rewrite List.filter_app, length_app in H. cbn [List.filter] in H.
    destruct (is_cb_close cb); cbn [length] in H; lia.
  - unfold close_budget, closes_due. cbn [set_microtasks promises out microtasks].
    rewrite closes_app. destruct cb; cbn; lia.
Qed.

Lemma budget_resolve (p : PromiseId) (session : Session) (s : State) :
  close_budget (resolve p session s) = close_budget s.
Proof.
  unfold resolve. destruct (promises s !! p) as [[cbs|session']|] eqn:E; try reflexivity.
  unfold close_budget, closes_due. cbn [set_microtasks set_promises promises out microtasks].
  pose proof (due_insert (promises s) p (Pending cbs) (Resolved session) E) as H.
  cbn [closes_of] in H. rewrite closes_app, closes_callbacks. lia.
Qed.

Lemma budget_tool_loop (t : TaskId) (fcs : list FunctionCall) (s : State) :
  close_budget (tool_loop t fcs s) = close_budget s.
Proof.
  rewrite tool_loop_next_call. destruct (next_call fcs) as [[fc rest]|].
  - rewrite budget_set_task, !budget_emit; reflexivity.
  - apply budget_set_task.
Qed.

Lemma budget_after_audio (t : TaskId) (m : LiveServerMessage) (s : State) :
  close_budget (after_audio t m s) = close_budget s.
Proof.
  unfold after_audio.
  assert (H1 : close_budget (handle_interruption m s) = close_budget s).
  { unfold handle_interruption. destruct (interrupted m); [|reflexivity].
    unfold close_budget, closes_due.
    cbn [set_nextStartTime set_sources set_out emit promises out microtasks].
    rewrite !closes_app, closes_source_stop. cbn. lia. }
  assert (H2 : forall s', close_budget (handle_transcripts m s') = close_budget s').
  { intros s'. unfold handle_transcripts.
    destruct (outputTranscription m) as [[txt|]|]; [destruct (truthy txt)| |];
      rewrite ?budget_emit by reflexivity;
      (destruct (inputTranscription m) as [[txt'|]|]; [destruct (truthy txt')| |]);
      rewrite ?budget_emit by reflexivity; reflexivity. }
  unfold handle_toolCall. destruct (toolCall m) as [fcs|].
  - rewrite budget_tool_loop, budget_emit by reflexivity. rewrite H2. exact H1.
  - rewrite budget_set_task, H2. exact H1.
Qed.

Lemma budget_connect_catch (t : TaskId) (message : string) (s : State) :
  close_budget (connect_catch t message s) = close_budget s.
Proof. unfold connect_catch. rewrite budget_set_task, !budget_emit; reflexivity. Qed.

(** A task adds to the closes due, made and queued only when it is a call of
    [disconnect()], and then one at most. *)
Lemma budget_handle (e : Event) (s : State) :
  (close_budget (handle e s) <= close_budget s + (if is_disconnect e then 1 else 0))%nat.
Proof.
  destruct e as [|t r|t r| | |msg|m now|t r|t|source| |db]; cbn [handle is_disconnect].
  - unfold connect. rewrite !budget_emit by reflexivity.
    rewrite (budget_same _ s) by reflexivity. lia.
  - unfold resume_getUserMedia. destruct (tasks s !! t) as [[]|]; try lia.
    destruct r as [[]|message]; [|rewrite budget_connect_catch; lia].
    rewrite budget_set_task.
    match goal with
    | |- (close_budget ?x <= _)%nat =>
        assert (H : close_budget x =
                    close_budget (set_promises (promises s ++ [Pending []])
                                    (emit (onLog log_system "Connecting to Gemini Live API...") s)))
          by (apply budget_same; reflexivity)
    end.
    rewrite H. clear H.
    assert (H : close_budget (set_promises (promises s ++ [Pending []])
                                (emit (onLog log_system "Connecting to Gemini Live API...") s)) =
                close_budget (emit (onLog log_system "Connecting to Gemini Live API...") s)).
    { unfold close_budget, closes_due. cbn [set_promises promises out microtasks].
      rewrite map_app, list_sum_app. cbn [map closes_of List.filter length list_sum foldr].
      cbn [emit set_out promises]. lia. }
    rewrite H, budget_emit by reflexivity. lia.
  - unfold resume_live_connect. destruct (tasks s !! t) as [[]|]; try lia.
    destruct r as [session|message]; [|rewrite budget_connect_catch; lia].
    rewrite budget_set_task. destruct (sessionResolver s) as [p|]; [|lia].
    rewrite budget_resolve. lia.
  - unfold onopen. rewrite !budget_emit by reflexivity. lia.
  - unfold onclose. rewrite !budget_emit by reflexivity. lia.
  - unfold onerror. rewrite !budget_emit by reflexivity. lia.
  - unfold handleMessage.
    destruct (truthy_opt (inlineData m) && _ && _).
    + rewrite budget_set_task. rewrite (budget_same _ s) by reflexivity. lia.
    + rewrite budget_after_audio. rewrite (budget_same _ s) by reflexivity. lia.
  - unfold resume_decode. destruct (tasks s !! t) as [[| | | |m|]|]; try lia.
    destruct r as [duration|message]; [|rewrite budget_set_task; lia].
    destruct (outputAudioContext s); [|rewrite budget_set_task; lia].
    rewrite budget_after_audio.
    match goal with
    | |- (close_budget ?x <= _)%nat =>
        assert (H : close_budget x =
                    close_budget (emit (source_start (created s) duration (nextStartTime s)) s))
          by (apply budget_same; reflexivity)
    end.
    rewrite H, budget_emit by reflexivity. lia.
  - unfold resume_lookup. destruct (tasks s !! t) as [[| | | | |fc rest]|]; try lia.
    rewrite budget_tool_loop.
    match goal with
    | |- (close_budget (match sessionPromise ?x with _ => _ end) <= _)%nat =>
        assert (Hx : close_budget x = close_budget s) by (rewrite !budget_emit; reflexivity);
        destruct (sessionPromise x) as [p|]
    end.
    + match goal with
      | |- (close_budget (then_ p ?cb ?x) <= _)%nat => pose proof (budget_then p cb x) as H
      end.
      cbn [is_cb_close] in H. lia.
    + lia.
  - unfold source_onended. rewrite (budget_same _ s) by reflexivity. lia.
  - unfold disconnect. rewrite budget_emit by reflexivity.
    destruct (sessionPromise s) as [p|].
    + pose proof (budget_then p cb_close s) as H. cbn [is_cb_close] in H.
      rewrite (budget_same _ (then_ p cb_close s)) by reflexivity. exact H.
    + rewrite (budget_same _ s) by reflexivity. lia.
  - rewrite (budget_same _ s) by reflexivity. lia.
Qed.

Lemma step_closes (e : Event) (s : State) :
  (closes (snd (step e s)) + closes_due (fst (step e s)) <=
   closes_due s + (if is_disconnect e then 1 else 0))%nat.
Proof.
  pose proof (budget_handle e (fresh_task s)) as H. rewrite step_eq. cbn [fst snd].
  rewrite closes_app. unfold close_budget, closes_due in *.
  cbn [fresh_task set_microtasks set_out promises out microtasks] in *.
  unfold closes in H at 3 4. cbn [List.filter length] in H. lia.
Qed.

(** X17. In every run, the calls of [session.close()] made, with the [close]
    callbacks that still wait for a session, are at most those that waited at
    the start and one for each call of [disconnect()]. From a new service: a
    session is closed at most as many times as [disconnect()] is called, and not
    at all in a run without it, whatever the session or a failing connect
    brings. *)
Theorem X17_closes_follow_disconnects :
  (forall (es : list Event) (s : State),
      (closes (snd (run es s)) + closes_due (fst (run es s)) <=
       closes_due s + disconnects es)%nat) /\
  (forall (db : list DatabaseEntry) (es : list Event),
      (closes (snd (run es (new_service db))) <= disconnects es)%nat).
Proof.
  assert (H : forall (es : list Event) (s : State),
             (closes (snd (run es s)) + closes_due (fst (run es s)) <=
              closes_due s + disconnects es)%nat).
  { induction es as [|e es IH]; intros s.
    - cbn. lia.
    - rewrite run_cons. cbn [fst snd]. rewrite closes_app.
      pose proof (step_closes e s) as H1. pose proof (IH (fst (step e s))) as H2.
      unfold disconnects in *. cbn [List.filter].
      destruct (is_disconnect e); cbn [length]; lia. }
  split; [exact H|].
  intros db es. pose proof (H es (new_service db)) as H1.
  change (closes_due (new_service db)) with 0%nat in H1. lia.
Qed.

(** [disconnect()] while the session is awaited: the close waits with the
    promise and is made when the session is delivered; the second
    [disconnect()] finds no promise and closes nothing. *)
Example close_deferred_to_delivery :
  List.filter is_close (snd (run hang_up_while_connecting (new_service INITIAL_DATA))) =
  [session_close 7%nat].
Proof. reflexivity. Qed.

(** ** The transcript of a live call *)

Lemma append_nonempty (a b : string) : b <> EmptyString -> (a ++ b)%string <> EmptyString.
Proof.
  intros Hb. destruct a as [|c a]; [exact Hb|].
  change ((String c a ++ b)%string) with (String c (a ++ b)%string). discriminate.
Qed.

Lemma onTranscript_no_empty (txt : string) (isFinal : bool) (sndr : Sender)
    (prev : list TranscriptEntry) :
  txt <> EmptyString -> no_empty_entry prev ->
  no_empty_entry (onTranscript txt isFinal sndr prev).
Proof.
  unfold no_empty_entry. intros Ht Hp.
  destruct (last_cases prev) as [->|[init [l ->]]].
  - constructor; [exact Ht | constructor].
  - apply Forall_app in Hp as [Hi Hl].
    destruct (Sender_eqb (sender l) sndr) eqn:E.
    + apply Sender_eqb_eq in E. subst sndr. rewrite onTranscript_same.
      apply Forall_app. split; [exact Hi|]. constructor; [|constructor].
      cbn [text]. apply append_nonempty. exact Ht.
    + apply Sender_eqb_neq in E. rewrite onTranscript_other by exact E.
      apply Forall_app. split; [apply Forall_app; split; assumption|].
      constructor; [exact Ht | constructor].
Qed.

Lemma shown_ok (effs : list Effect) (prev : list TranscriptEntry) :
  Forall transcript_call_ok effs ->
  alternating prev -> no_empty_entry prev ->
  alternating (shown effs prev) /\ no_empty_entry (shown effs prev).
Proof.
  revert prev. induction effs as [|e effs IH]; intros prev He Ha Hn; [split; assumption|].
  inversion He as [|? ? H1 H2]; subst. cbn [shown fold_left].
  destruct e; try (apply IH; assumption).
  destruct H1 as [Ht _]. apply IH; [exact H2| |].
  - apply (onTranscript_step txt isFinal sndr prev). exact Ha.
  - apply onTranscript_no_empty; assumption.
Qed.

(** X18. The transcript that the App builds from the [onTranscript] calls of
    a service, in any run from any state, starting with the empty transcript:
    every entry has some text, and no two neighbours have the same sender. An
    empty transcription text never opens an empty entry, since the service
    does not pass it on. *)
Theorem X18_live_transcript (s : State) (es : list Event) :
  alternating (shown (snd (run es s)) []) /\
  no_empty_entry (shown (snd (run es s)) []).
Proof.
  apply shown_ok; [|exact I|constructor].
  destruct (run_allowed (fun _ => True) (fun _ => True) (fun _ => True) (fun _ _ => I) es s
              (all_events_ok es) (any_state_ok s)) as [_ H].
  eapply Forall_impl; [exact H|].
  intros e He. destruct e; try exact I. exact He.
Qed.

(** ** The bytes for the visualizer *)

Lemma visual_byte_floor (x : Q) : visual_byte x = ((Qfloor (Qabs.Qabs x * 255)) mod 256)%Z.
Proof.
  unfold visual_byte, ToUint8, truncate.
  assert (H : (0 <= Qabs.Qabs x * 255)%Q) by (pose proof (Qabs.Qabs_nonneg x); nra).
  apply Qle_bool_iff in H. rewrite H. reflexivity.
Qed.

Lemma visual_byte_small (x : Q) :
  (Qabs.Qabs x <= 1)%Q -> visual_byte x = Qfloor (Qabs.Qabs x * 255).
Proof.
  intros H. rewrite visual_byte_floor. apply Z.mod_small.
  pose proof (Qabs.Qabs_nonneg x) as H0. split.
  - change 0%Z with (Qfloor 0). apply Qfloor_resp_le. nra.
  - assert (H1 : (Qfloor (Qabs.Qabs x * 255) <= Qfloor 255)%Z) by (apply Qfloor_resp_le; nra).
    change (Qfloor 255) with 255%Z in H1. lia.
Qed.

(** X19. The byte that the visualizer gets for a sample: it lies in 0..255
    and depends on the magnitude of the sample only. For magnitudes up to 1 it
    is the magnitude times 255, rounded down, so it grows with the magnitude.
    Beyond that it wraps around: for every sample the byte is the magnitude
    times 255, rounded down, modulo 256, so that the samples [129/128] and
    [3/2], which are float32 numbers, give the bytes 0 and 126. *)
Theorem X19_visual_byte :
  (forall x, (0 <= visual_byte x <= 255)%Z) /\
  (forall x, visual_byte (- x) = visual_byte x) /\
  (forall x, (Qabs.Qabs x <= 1)%Q -> visual_byte x = Qfloor (Qabs.Qabs x * 255)) /\
  (forall x y, (Qabs.Qabs x <= Qabs.Qabs y)%Q -> (Qabs.Qabs y <= 1)%Q ->
               (visual_byte x <= visual_byte y)%Z) /\
  (forall x, visual_byte x = (Qfloor (Qabs.Qabs x * 255) mod 256)%Z) /\
  visual_byte (129 # 128) = 0%Z /\
  visual_byte (3 # 2) = 126%Z.
Proof.
  split; [|split; [|split; [|split; [|split; [|split]]]]].
  - intros x. rewrite visual_byte_floor.
    pose proof (Z.mod_pos_bound (Qfloor (Qabs.Qabs x * 255)) 256 ltac:(lia)). lia.
  - intros x. rewrite !visual_byte_floor. f_equal. apply Qfloor_comp.
    rewrite Qabs.Qabs_opp. reflexivity.
  - exact visual_byte_small.
  - intros x y Hxy Hy. rewrite !visual_byte_small by lra.
    apply Qfloor_resp_le. nra.
  - exact visual_byte_floor.
  - reflexivity.
  - reflexivity.
Qed.

(** ** The tokens of the text agent *)

Lemma texts_of_nonempty (cs : list Chunk) :
  Forall (fun token => token <> EmptyString) (texts_of cs).
Proof.
  induction cs as [|chunk cs IH]; [constructor|].
  unfold texts_of. cbn [flat_map]. fold (texts_of cs).
  destruct (chunk_text chunk) as [t|]; [|exact IH].
  destruct (truthy t) eqn:E; [|exact IH].
  constructor; [|exact IH]. apply truthy_nonempty. exact E.
Qed.

Lemma tokens_ok_snoc (calls : list AgentCall) (c : AgentCall) :
  tokens [c] = [] -> tokens_ok calls -> tokens_ok (calls ++ [c]).
Proof.
  unfold tokens_ok. intros Hc H. rewrite tokens_app, Hc, app_nil_r. exact H.
Qed.

Lemma tokens_ok_stream (calls : list AgentCall) (cs : list Chunk) :
  tokens_ok calls -> tokens_ok (calls ++ map agent_onToken (texts_of cs)).
Proof.
  unfold tokens_ok. intros H. rewrite tokens_app, tokens_onToken.
  apply Forall_app. split; [exact H | apply texts_of_nonempty].
Qed.

Lemma tool_turns_tokens (w : World) (fcs : list FunctionCall) :
  forall (textAcc : string) (calls : list AgentCall) o calls',
    tool_turns w fcs textAcc calls = (o, calls') ->
    tokens_ok calls -> tokens_ok calls'.
Proof.
  induction fcs as [|fc fcs IH]; intros textAcc calls o calls' H Hok.
  - cbn in H. injection H as <- <-. exact Hok.
  - cbn [tool_turns] in H.
    destruct (String.eqb (fc_name fc) TOOL_NAME); [|exact (IH _ _ _ _ H Hok)].
    unfold bind at 1 2 3 4 in H. unfold call at 1 2, search, chat_send in H.
    match type of H with
    | context [sendMessageStream w (sent ?c)] =>
        assert (Hc : tokens_ok c) by (repeat (apply tokens_ok_snoc; [reflexivity|]); exact Hok);
        destruct (sendMessageStream w (sent c)) as [stream2|message]
    end.
    2:{ injection H as <- <-. exact Hc. }
    unfold bind in H.
    match type of H with
    | context [consumeStream stream2 ?c] =>
        destruct (consumeStream_spec stream2 c) as [o2 [E2 _]]
    end.
    rewrite E2 in H. pose proof (tokens_ok_stream _ (chunks stream2) Hc) as Hs.
    destruct o2 as [outcome|message].
    + exact (IH _ _ _ _ H Hs).
    + injection H as <- <-. exact Hs.
Qed.

Lemma join_nonempty (pieces : list string) :
  Forall (fun token => token <> EmptyString) pieces -> pieces <> [] ->
  truthy (join pieces) = true.
Proof.
  intros H Hne. destruct H as [|t pieces Ht _]; [contradiction|].
  cbn [join fold_right]. destruct t as [|c t]; [contradiction|]. reflexivity.
Qed.

(** X20. In every run of [processTextQuery], fulfilled or not, every token
    given to [onToken] is a non-empty string. So a fulfilled run that has given
    at least one token returns the tokens joined, and the sentence "I processed
    your request ..." is returned only by a run that has given none. *)
Theorem X20_tokens_not_empty (w : World) (query : string)
    (o : Outcome (string * string)) (calls : list AgentCall) :
  processTextQuery w query [] = (o, calls) ->
  tokens_ok calls /\
  forall text audio, o = fulfilled (text, audio) ->
    (tokens calls <> [] -> text = streamed calls) /\
    (tokens calls = [] -> text = NO_TEXT).
Proof.
  intros H.
  assert (Hok : tokens_ok calls).
  { destruct (truthy_opt (API_KEY w)) eqn:Hk.
    2:{ unfold processTextQuery in H. rewrite Hk in H. injection H as <- <-. constructor. }
    rewrite (processTextQuery_eq w query [] Hk) in H. unfold bind at 1 in H.
    match type of H with
    | context [match ?m [] with _ => _ end] => destruct (m []) as [o1 calls1] eqn:E
    end.
    assert (H1 : tokens_ok calls1).
    { unfold bind at 1 2 3 4 in E. unfold call at 1 2, chat_send in E.
      cbn [app sent flat_map] in E.
      destruct (sendMessageStream w [user_message query]) as [stream1|message].
      2:{ injection E as <- <-. constructor. }
      match type of E with
      | context [consumeStream stream1 ?c] =>
          destruct (consumeStream_spec stream1 c) as [o2 [E2 _]];
          pose proof (tokens_ok_stream c (chunks stream1) (List.Forall_nil _)) as Hs
      end.
      rewrite E2 in E. destruct o2 as [first|message].
      - exact (tool_turns_tokens _ _ _ _ _ _ E Hs).
      - injection E as <- <-. exact Hs. }
    destruct o1 as [t|message]; [|injection H as <- <-; exact H1].
    unfold bind, call, speak in H.
    assert (Hc : calls = (calls1 ++ [agent_onLog log_system
                                       "Synthesizing speech from response..."]) ++
                         [models_generateContent (if truthy t then t else NO_TEXT)]).
    { destruct (generateContent w _) as [[data|]|message]; [destruct (truthy data)| |];
        injection H as _ <-; reflexivity. }
    rewrite Hc. repeat (apply tokens_ok_snoc; [reflexivity|]). exact H1. }
  split; [exact Hok|].
  intros text audio ->.
  destruct (processTextQuery_fulfilled w query text audio calls H)
    as [calls1 [_ [Hs [Ht _]]]].
  rewrite <- Hs in Ht. split.
  - intros Hne. unfold streamed in Ht at 1.
    rewrite (join_nonempty _ Hok Hne) in Ht. exact Ht.
  - intros He. unfold streamed in Ht. rewrite He in Ht. exact Ht.
Qed.

Lemma X20_tokens_not_empty_witness :
  processTextQuery example_world "Can I return it?" [] =
    (fulfilled ("Thirty days. Thirty days. ", "UklGRg"), example_calls) /\
  tokens_ok example_calls /\
  tokens example_calls = ["Thirty"; " days. "; "Thirty"; " days. "].
Proof.
  assert (H : processTextQuery example_world "Can I return it?" [] =
              (fulfilled ("Thirty days. Thirty days. ", "UklGRg"), example_calls))
    by (vm_compute; reflexivity).
  split; [exact H|]. split; [|reflexivity].
  exact (proj1 (X20_tokens_not_empty example_world _ _ _ H)).
Defined.

(** ** The buffer sources *)

Lemma live_after_app (live : list SourceId) (a b : list Effect) :
  live_after live (a ++ b) = live_after (live_after live a) b.
Proof.
  revert live. induction a as [|e a IH]; intros live; [reflexivity|].
  destruct e; cbn [app live_after]; apply IH.
Qed.

Lemma stop_discipline_app (live : list SourceId) (a b : list Effect) :
  stop_discipline live a -> stop_discipline (live_after live a) b ->
  stop_discipline live (a ++ b).
Proof.
  revert live. induction a as [|e a IH]; intros live Ha Hb; [exact Hb|].
  destruct e; cbn [app stop_discipline live_after] in *; try (apply IH; assumption).
  destruct Ha as [Hin Ha]. split; [exact Hin|]. apply IH; assumption.
Qed.

Lemma live_after_audio (live : list SourceId) (effs : list Effect) :
  live_after live effs = live_after live (audio effs).
Proof.
  revert live. induction effs as [|e effs IH]; intros live; [reflexivity|].
  destruct e; cbn [audio List.filter is_audio live_after]; apply IH.
Qed.

Lemma stop_discipline_audio (live : list SourceId) (effs : list Effect) :
  stop_discipline live (audio effs) -> stop_discipline live effs.
Proof.
  revert live. induction effs as [|e effs IH]; intros live H; [exact I|].
  destruct e; cbn [audio List.filter is_audio stop_discipline] in *;
    try (apply IH; exact H).
  destruct H as [Hin H]. split; [exact Hin | apply IH; exact H].
Qed.

(** Stopping the sources of a set with no source twice, all of them live. *)
Lemma stop_all (l live : list SourceId) :
  List.NoDup l -> (forall x, In x l -> In x live) ->
  stop_discipline live (map source_stop l).
Proof.
  revert live. induction l as [|x l IH]; intros live Hnd Hin; [exact I|].
  cbn [map stop_discipline]. split; [apply Hin; left; reflexivity|].
  apply List.NoDup_cons_iff in Hnd as [Hx Hnd]. apply IH; [exact Hnd|].
  intros y Hy. apply List.filter_In. split; [apply Hin; right; exact Hy|].
  apply negb_true_iff, Nat.eqb_neq. intros ->. exact (Hx Hy).
Qed.

Lemma NoDup_snoc_fresh (l : list SourceId) (c : SourceId) :
  List.NoDup l -> (forall x, In x l -> (x < c)%nat) -> List.NoDup (l ++ [c]).
Proof.
  intros Hnd Hlt. induction l as [|x l IH]; cbn [app].
  - constructor; [intros []|constructor].
  - apply List.NoDup_cons_iff in Hnd as [Hx Hnd]. constructor.
    + rewrite List.in_app_iff. intros [H|[H|[]]]; [exact (Hx H)|].
      specialize (Hlt x (or_introl eq_refl)). lia.
    + apply IH; [exact Hnd|]. intros y Hy. apply Hlt. right. exact Hy.
Qed.

(** A task that is neither a message, nor a decode that settles, nor the end
    of a source, leaves the playback state as it is. *)
Lemma playback_handle_quiet (e : Event) (s : State) :
  no_message e -> (forall source, e <> source_ended source) ->
  playback (handle e s) = playback s.
Proof.
  intros He Hs. destruct e; cbn [handle]; try contradiction.
  - unfold connect. rewrite !playback_emit; reflexivity.
  - unfold resume_getUserMedia.
    destruct (tasks s !! t) as [[]|]; try reflexivity.
    destruct r as [[]|msg]; [|apply playback_connect_catch].
    rewrite playback_set_task. unfold playback. cbn. rewrite audio_app, app_nil_r.
    reflexivity.
  - unfold resume_live_connect.
    destruct (tasks s !! t) as [[]|]; try reflexivity.
    destruct r as [liveSession|msg]; [|apply playback_connect_catch].
    rewrite playback_set_task.
    destruct (sessionResolver s); [apply playback_resolve | reflexivity].
  - unfold onopen. rewrite !playback_emit; reflexivity.
  - unfold onclose. rewrite !playback_emit; reflexivity.
  - unfold onerror. rewrite !playback_emit; reflexivity.
  - unfold resume_lookup.
    destruct (tasks s !! t) as [[| | | | |fc rest]|]; try reflexivity.
    rewrite playback_tool_loop. cbn [sessionPromise emit set_out].
    destruct (sessionPromise s) as [p|];
      rewrite ?playback_then, !playback_emit; reflexivity.
  - exfalso. exact (Hs source eq_refl).
  - unfold disconnect. rewrite playback_emit by reflexivity.
    destruct (sessionPromise s) as [p|]; [|reflexivity].
    transitivity (playback (then_ p cb_close s)); [reflexivity | apply playback_then].
  - reflexivity.
Qed.

(** What a task does to the sources, read off the playback state in which its
    handler ends. *)
Lemma step_sources (e : Event) (s : State) (n : Q) (src : list SourceId) (cr : nat)
    (ao am : list Effect) :
  playback (handle e (fresh_task s)) = (n, src, cr, ao, am) ->
  sources (fst (step e s)) = src /\ created (fst (step e s)) = cr /\
  audio (snd (step e s)) = ao ++ am.
Proof.
  intros H. unfold playback in H. injection H as _ H2 H3 H4 H5.
  rewrite step_eq. cbn [fst snd]. rewrite audio_app, H4, H5.
  repeat split; assumption.
Qed.

(** The four ways in which a task can touch the sources: it starts and stops
    none and takes away at most; it stops them all; it starts a new one; it
    starts a new one and stops them all, the new one too. *)
Lemma step_sources_cases (e : Event) (s : State) :
  (audio (snd (step e s)) = [] /\ created (fst (step e s)) = created s /\
   exists source, sources (fst (step e s)) =
                  List.filter (fun x => negb (Nat.eqb x source)) (sources s) \/
                  sources (fst (step e s)) = sources s) \/
  (audio (snd (step e s)) = map source_stop (sources s) /\
   created (fst (step e s)) = created s /\ sources (fst (step e s)) = []) \/
  (exists d w, audio (snd (step e s)) = [source_start (created s) d w] /\
               created (fst (step e s)) = S (created s) /\
               sources (fst (step e s)) = sources s ++ [created s]) \/
  (exists d w, audio (snd (step e s)) =
                 source_start (created s) d w :: map source_stop (sources s ++ [created s]) /\
               created (fst (step e s)) = S (created s) /\
               sources (fst (step e s)) = []).
Proof.
  assert (Hquiet : forall h, playback h = playback (fresh_task s) ->
                             h = handle e (fresh_task s) ->
                             audio (snd (step e s)) = [] /\
                             created (fst (step e s)) = created s /\
                             sources (fst (step e s)) = sources s).
  { intros h Hp ->. destruct (step_sources e s _ _ _ _ _ Hp) as [A [B C]].
    repeat split; assumption. }
  assert (Hafter : forall t m s0,
             handle e (fresh_task s) = after_audio t m s0 ->
             audio (microtasks s0) = [] ->
             (interrupted m = false /\
              audio (snd (step e s)) = audio (out s0) /\
              created (fst (step e s)) = created s0 /\
              sources (fst (step e s)) = sources s0) \/
             (interrupted m = true /\
              audio (snd (step e s)) = audio (out s0) ++ map source_stop (sources s0) /\
              created (fst (step e s)) = created s0 /\
              sources (fst (step e s)) = [])).
  { intros t m s0 Hh Hm. pose proof (playback_after_audio t m s0) as Hp.
    rewrite <- Hh in Hp. destruct (interrupted m) eqn:Hi.
    - right. rewrite (playback_handle_interruption m s0 Hi) in Hp.
      destruct (step_sources e s _ _ _ _ _ Hp) as [A [B C]].
      rewrite Hm, app_nil_r in C. repeat split; assumption.
    - left. rewrite (handle_interruption_false m s0 Hi) in Hp.
      destruct (step_sources e s _ _ _ _ _ Hp) as [A [B C]].
      rewrite Hm, app_nil_r in C. repeat split; assumption. }
  destruct (no_message_dec e) as [He|[[m [now ->]]|[t [r ->]]]].
  - left.
    assert (Hended : (exists source, e = source_ended source) \/
                     forall source, e <> source_ended source).
    { destruct e; try (right; intros source H; discriminate H). left. eauto. }
    destruct Hended as [[source ->]|Hs].
    + split; [reflexivity|]. split; [reflexivity|]. exists source. left. reflexivity.
    + destruct (Hquiet _ (playback_handle_quiet e (fresh_task s) He Hs) eq_refl)
        as [A [B C]].
      split; [exact A|]. split; [exact B|]. exists 0%nat. right. exact C.
  - destruct (has_audio m s) eqn:Ha.
    + left. destruct (step_message_audio m now s Ha) as [_ [_ [_ [_ [A [B C]]]]]].
      cbn zeta in A, B. rewrite C. split; [reflexivity|]. split; [exact B|].
      exists 0%nat. right. exact A.
    + destruct (Hafter _ _ _ (step_message_no_audio m now s Ha) eq_refl)
        as [[_ [A [B C]]]|[_ [A [B C]]]].
      * left. split; [exact A|]. split; [exact B|]. exists 0%nat. right. exact C.
      * right. left. split; [exact A|]. split; [exact B|exact C].
  - assert (Hidle : (forall m, tasks s !! t <> Some (AwaitDecode m)) ->
                    audio (snd (step (decodeAudioData_settled t r) s)) = [] /\
                    created (fst (step (decodeAudioData_settled t r) s)) = created s /\
                    sources (fst (step (decodeAudioData_settled t r) s)) = sources s).
    { intros Hno. rewrite (step_decode_idle t r s Hno). repeat split; reflexivity. }
    destruct (tasks s !! t) as [[| | | |m|fc rest]|] eqn:Et;
      try (left; destruct Hidle as [A [B C]]; [intros m0 Hm0; discriminate Hm0|];
           split; [exact A|]; split; [exact B|]; exists 0%nat; right; exact C).
    destruct r as [d|message].
    + destruct (outputAudioContext s) eqn:Hc.
      * destruct (Hafter _ _ _ (step_decode t d m s Et Hc) eq_refl)
          as [[_ [A [B C]]]|[_ [A [B C]]]].
        -- right. right. left. exists d, (nextStartTime s).
           split; [exact A|]. split; [exact B|exact C].
        -- right. right. right. exists d, (nextStartTime s).
           split; [exact A|]. split; [exact B|exact C].
      * left. rewrite step_eq. cbn [fst snd handle]. unfold resume_decode.
        change (tasks (fresh_task s)) with (tasks s). rewrite Et.
        change (outputAudioContext (fresh_task s)) with (outputAudioContext s).
        rewrite Hc. split; [reflexivity|]. split; [reflexivity|].
        exists 0%nat. right. reflexivity.
    + left. rewrite step_eq. cbn [fst snd handle]. unfold resume_decode.
      change (tasks (fresh_task s)) with (tasks s). rewrite Et.
      split; [reflexivity|]. split; [reflexivity|].
      exists 0%nat. right. reflexivity.
Qed.

(** X21. In every run from a state whose [sources] hold no source twice and
    only sources created before, every [stop()] is called on a source that has
    been started and has not been stopped yet: an interruption stops each live
    source once, and no later task stops it again. *)
Theorem X21_stop_only_live_sources (s : State) (es : list Event) :
  sources_ok s ->
  stop_discipline (sources s) (snd (run es s)) /\
  sources_ok (fst (run es s)) /\
  forall x, In x (sources (fst (run es s))) ->
            In x (live_after (sources s) (snd (run es s))).
Proof.
  intros Hs.
  pose (K := fun (tr : list Effect) (s' : State) =>
               stop_discipline (sources s) tr /\ sources_ok s' /\
               forall x, In x (sources s') -> In x (live_after (sources s) tr)).
  assert (H : K ([] ++ snd (run es s)) (fst (run es s))).
  { apply (run_invariant (fun _ => True) K).
    - intros e s1 tr _ [K1 [[K2 K3] K4]].
      pose proof (stop_discipline_app (sources s) tr (snd (step e s1)) K1) as Happ.
      unfold K, sources_ok. rewrite live_after_app, (live_after_audio _ (snd (step e s1))).
      destruct (step_sources_cases e s1)
        as [[A [B [source C]]]|[[A [B C]]|[[d [w [A [B C]]]]|[d [w [A [B C]]]]]]];
        rewrite A, B.
      + assert (Hsub : forall x, In x (sources (fst (step e s1))) -> In x (sources s1)).
        { intros x Hx. destruct C as [C|C]; rewrite C in Hx; [|exact Hx].
          apply List.filter_In in Hx as [Hx _]. exact Hx. }
        split; [apply Happ, stop_discipline_audio; rewrite A; exact I|].
        split; [split|].
        * destruct C as [C|C]; rewrite C; [apply List.NoDup_filter|]; exact K2.
        * intros x Hx. apply K3, Hsub, Hx.
        * intros x Hx. cbn [live_after]. apply K4, Hsub, Hx.
      + rewrite C.
        split; [apply Happ, stop_discipline_audio; rewrite A; apply stop_all; assumption|].
        split; [split; [constructor | intros x []] | intros x []].
      + rewrite C.
        split; [apply Happ, stop_discipline_audio; rewrite A; exact I|].
        split; [split|].
        * apply NoDup_snoc_fresh; assumption.
        * intros x Hx. apply List.in_app_iff in Hx as [Hx|[<-|[]]]; [|lia].
          specialize (K3 x Hx). lia.
        * intros x Hx. cbn [live_after].
          apply List.in_app_iff in Hx as [Hx|[<-|[]]]; [right; apply K4, Hx | left; reflexivity].
      + rewrite C.
        split; [|split; [split; [constructor | intros x []] | intros x []]].
        apply Happ, stop_discipline_audio. rewrite A. cbn [stop_discipline].
        apply stop_all; [apply NoDup_snoc_fresh; assumption|].
        intros x Hx. apply List.in_app_iff in Hx as [Hx|[<-|[]]];
          [right; apply K4, Hx | left; reflexivity].
    - apply Forall_forall. intros e _. exact I.
    - split; [exact I|]. split; [exact Hs|]. intros x Hx. exact Hx. }
  exact H.
Qed.

Lemma X21_stop_only_live_sources_witness :
  sources_ok two_buffers_scheduled /\
  sources two_buffers_scheduled = [0%nat; 1%nat] /\
  stops (snd (run barge_in two_buffers_scheduled)) = [1%nat; 2%nat] /\
  stop_discipline (sources two_buffers_scheduled) (snd (run barge_in two_buffers_scheduled)).
Proof.
  assert (H : sources_ok two_buffers_scheduled).
  { unfold sources_ok.
    change (sources two_buffers_scheduled) with [0%nat; 1%nat].
    change (created two_buffers_scheduled) with 2%nat. split.
    - constructor; [intros [H|[]]; discriminate H|].
      constructor; [intros []|constructor].
    - intros x [<-|[<-|[]]]; lia. }
  split; [exact H|]. split; [reflexivity|]. split; [reflexivity|].
  exact (proj1 (X21_stop_only_live_sources two_buffers_scheduled barge_in H)).
Defined.
